(** * Red-black tree with top-down insertion and erasure, and a stack cursor

    A shallow embedding of [rbtree-ec.c]: nodes live in a store indexed by
    addresses, every C function is a computation in a state-and-fault monad
    over that store, and every loop takes a fuel argument. *)

From stdpp Require Import gmap list.
From Stdlib Require Import ZArith Lia.

Local Open Scope Z_scope.

(** ** Addresses and nodes *)

(** An address is either the stack slot of the local [head] sentinel of
    [jsw_rbinsert] / [jsw_rberase], or the address of a caller-owned node. *)
Inductive loc := Head | Nd (a : N).

(** A pointer is an address or NULL ([None]). *)
Abbreviation ptr := (option loc).

Definition loc_to_opt (l : loc) : option N :=
  match l with Head => None | Nd a => Some a end.

Definition loc_of_opt (o : option N) : loc :=
  match o with None => Head | Some a => Nd a end.

#[global] Instance loc_eq_dec : EqDecision loc.
Proof. solve_decision. Defined.

#[global] Instance loc_countable : Countable loc.
Proof. apply (inj_countable' loc_to_opt loc_of_opt). by intros []. Defined.

(** [test_data] is declared in a header that is not part of the sources; the
    code only uses its [key] field, in an [int] subtraction. *)
Record test_data := { key : Z }.

(** [struct jsw_rbnode]: colour flag (1 = red), [link[0]], [link[1]], data. *)
Record jsw_rbnode := {
  red : bool;
  link0 : ptr;
  link1 : ptr;
  data : test_data
}.

Definition link (n : jsw_rbnode) (dir : bool) : ptr :=
  if dir then link1 n else link0 n.

Definition with_red (b : bool) (n : jsw_rbnode) : jsw_rbnode :=
  {| red := b; link0 := link0 n; link1 := link1 n; data := data n |}.

Definition with_link (dir : bool) (p : ptr) (n : jsw_rbnode) : jsw_rbnode :=
  if dir
  then {| red := red n; link0 := link0 n; link1 := p; data := data n |}
  else {| red := red n; link0 := p; link1 := link1 n; data := data n |}.

Definition with_data (d : test_data) (n : jsw_rbnode) : jsw_rbnode :=
  {| red := red n; link0 := link0 n; link1 := link1 n; data := d |}.

(** The store: the [root] field of the one [jsw_rbtree_t], and the nodes. *)
Record store := {
  root : ptr;
  heap : gmap loc jsw_rbnode
}.

(** ** Machine integers *)

(** [int] is taken to be 32 bits wide; arithmetic wraps around. *)
Definition INT_MIN : Z := - 2 ^ 31.
Definition INT_MAX : Z := 2 ^ 31 - 1.

Definition wrap (z : Z) : Z := (z + 2 ^ 31) mod 2 ^ 32 - 2 ^ 31.

Definition in_int (z : Z) : Prop := INT_MIN <= z <= INT_MAX.

(** ** The monad of the embedding *)

Inductive fault :=
  | NullDeref     (* a NULL pointer was dereferenced *)
  | Dangling      (* an address that holds no node was accessed *)
  | OutOfBounds   (* an index outside [path] was accessed *)
  | OutOfFuel.    (* the loop budget of the model ran out *)

Inductive res (S A : Type) :=
  | Ok (a : A) (s : S)
  | Err (e : fault).
Arguments Ok {S A} a s.
Arguments Err {S A} e.

Definition M (S A : Type) : Type := S -> res S A.

Definition ret {S A} (a : A) : M S A := fun s => Ok a s.

Definition bind {S A B} (c : M S A) (k : A -> M S B) : M S B :=
  fun s => match c s with
           | Ok a s' => k a s'
           | Err e => Err e
           end.

Definition fail {S A} (e : fault) : M S A := fun _ => Err e.

Notation "'let!' x ':=' c 'in' k" := (bind c (fun x => k))
  (at level 10, x pattern, c at level 100, k at level 200, only parsing).
Notation "c '>>' k" := (bind c (fun _ => k))
  (at level 100, k at level 200, right associativity, only parsing).

(** Dereferencing a pointer value. *)
Definition deref {S} (p : ptr) : M S loc :=
  match p with
  | Some l => ret l
  | None => fail NullDeref
  end.

(** *** Accesses to nodes *)

Definition load (l : loc) : M store jsw_rbnode :=
  fun s => match heap s !! l with
           | Some n => Ok n s
           | None => Err Dangling
           end.

Definition modify (l : loc) (f : jsw_rbnode -> jsw_rbnode) : M store unit :=
  fun s => match heap s !! l with
           | Some n => Ok tt {| root := root s; heap := <[l := f n]> (heap s) |}
           | None => Err Dangling
           end.

Definition get_red (l : loc) : M store bool := let! n := load l in ret (red n).
Definition get_link (l : loc) (dir : bool) : M store ptr :=
  let! n := load l in ret (link n dir).
Definition get_data (l : loc) : M store test_data := let! n := load l in ret (data n).

Definition set_red (l : loc) (b : bool) : M store unit := modify l (with_red b).
Definition set_link (l : loc) (dir : bool) (p : ptr) : M store unit :=
  modify l (with_link dir p).
Definition set_data (l : loc) (d : test_data) : M store unit := modify l (with_data d).

Definition get_root : M store ptr := fun s => Ok (root s) s.
Definition set_root (p : ptr) : M store unit :=
  fun s => Ok tt {| root := p; heap := heap s |}.

(** [jsw_rbnode_t head = { .red = 0 }]: every other field is zeroed. *)
Definition head_init : jsw_rbnode :=
  {| red := false; link0 := None; link1 := None; data := {| key := 0 |} |}.

Definition enter_head : M store unit :=
  fun s => Ok tt {| root := root s; heap := <[Head := head_init]> (heap s) |}.

Definition leave_head : M store unit :=
  fun s => Ok tt {| root := root s; heap := delete Head (heap s) |}.

(** ** The helpers of the library *)

(** [node_cmp]: [n2->data.key - n1->data.key], an [int] subtraction. *)
Definition node_cmp (n1 n2 : loc) : M store Z :=
  let! d2 := get_data n2 in
  let! d1 := get_data n1 in
  ret (wrap (key d2 - key d1)).

(** [is_red]: [root != NULL && root->red == 1]. *)
Definition is_red (rt : ptr) : M store bool :=
  match rt with
  | None => ret false
  | Some l => get_red l
  end.

(** [jsw_single]: single rotation around [root] in direction [dir]. *)
Definition jsw_single (rt : ptr) (dir : bool) : M store ptr :=
  let! r := deref rt in
  let! save := get_link r (negb dir) in
  let! s := deref save in
  let! sl := get_link s dir in
  set_link r (negb dir) sl >>
  set_link s dir (Some r) >>
  set_red r true >>
  set_red s false >>
  ret save.

(** [jsw_double]: double rotation around [root] in direction [dir]. *)
Definition jsw_double (rt : ptr) (dir : bool) : M store ptr :=
  let! r := deref rt in
  let! c := get_link r (negb dir) in
  let! c' := jsw_single c (negb dir) in
  set_link r (negb dir) c' >>
  jsw_single rt dir.

(** [new_node]: paints the caller's node red and clears its links. *)
Definition new_node (rn : loc) : M store ptr :=
  set_red rn true >>
  set_link rn true None >>
  set_link rn false None >>
  ret (Some rn).

(** ** Search *)

Fixpoint find_loop (fuel : nat) (node : loc) (it : ptr) : M store ptr :=
  match fuel with
  | O => fail OutOfFuel
  | S fuel =>
    match it with
    | None => ret None
    | Some i =>
      let! cmp := node_cmp i node in
      if cmp =? 0 then ret it
      else
        let! nxt := get_link i (cmp <? 0) in
        find_loop fuel node nxt
    end
  end.

Definition jsw_rbfind (fuel : nat) (node : loc) : M store ptr :=
  let! it := get_root in
  let! it := find_loop fuel node it in
  ret (match it with None => None | Some i => Some i end).

(** ** Insertion *)

(** The [for ( ; ; )] loop of [jsw_rbinsert].  It yields [Some 0] when the
    function returns from inside the loop, [None] when the loop is left by
    [break]. *)
Fixpoint insert_loop (fuel : nat) (node : loc) (t : loc) (g p q : ptr)
    (dir last : bool) : M store (option Z) :=
  match fuel with
  | O => fail OutOfFuel
  | S fuel =>
    let! q :=
      match q with
      | None =>
        (* Insert a new node at the first null link *)
        let! q' := new_node node in
        let! pl := deref p in
        set_link pl dir q' >>
        ret q'
      | Some ql =>
        let! c0 := get_link ql false in
        let! r0 := is_red c0 in
        let! r1 := (if r0 then let! c1 := get_link ql true in is_red c1
                    else ret false) in
        if r1 then
          (* Simple red violation: color flip *)
          set_red ql true >>
          let! c0 := get_link ql false in
          let! c0l := deref c0 in
          set_red c0l false >>
          let! c1 := get_link ql true in
          let! c1l := deref c1 in
          set_red c1l false >>
          ret q
        else ret q
      end in
    match q with
    | None => ret (Some 0)
    | Some ql =>
      let! rq := is_red q in
      let! rp := (if rq then is_red p else ret false) in
      (if rp then
         (* Hard red violation: rotations necessary *)
         let! t1 := get_link t true in
         let dir2 := bool_decide (t1 = g) in
         let! pl := deref p in
         let! pc := get_link pl last in
         if bool_decide (q = pc) then
           let! x := jsw_single g (negb last) in
           set_link t dir2 x
         else
           let! x := jsw_double g (negb last) in
           set_link t dir2 x
       else ret tt) >>
      let! cmp := node_cmp ql node in
      if cmp =? 0 then ret None
      else
        let last := dir in
        let! cmp := node_cmp ql node in
        let dir := cmp <? 0 in
        let t := match g with Some gl => gl | None => t end in
        let g := p in
        let p := q in
        let! q := get_link ql dir in
        insert_loop fuel node t g p q dir last
    end
  end.

Definition jsw_rbinsert (fuel : nat) (node : loc) : M store Z :=
  let! r := get_root in
  let! early :=
    match r with
    | None =>
      (* We have an empty tree; attach the new node directly to the root *)
      let! n := new_node node in
      set_root n >>
      let! r' := get_root in
      match r' with
      | None => ret (Some 0)
      | Some _ => ret None
      end
    | Some _ =>
      enter_head >>
      set_link Head true r >>
      let! out := insert_loop fuel node Head None None r false false in
      match out with
      | Some z => leave_head >> ret (Some z)
      | None =>
        (* Update the root (it may be different) *)
        let! h1 := get_link Head true in
        set_root h1 >>
        leave_head >>
        ret None
      end
    end in
  match early with
  | Some z => ret z
  | None =>
    (* Make the root black for simplified logic *)
    let! r := get_root in
    let! rl := deref r in
    set_red rl false >>
    ret 1
  end.

(** ** Erasure *)

(** The local variables of [jsw_rberase] that are live across its loop. *)
Record erase_vars := {
  ev_q : loc;
  ev_p : ptr;
  ev_g : ptr;
  ev_f : ptr;
  ev_dir : bool
}.

(** The "push the red node down" block of the loop body; it yields the new
    value of [p]. *)
Definition erase_push (q : loc) (p g : ptr) (dir last : bool) : M store ptr :=
  let! rq := is_red (Some q) in
  let! rqd := (if rq then ret true
               else let! qd := get_link q dir in is_red qd) in
  if negb rq && negb rqd then
    let! qn := get_link q (negb dir) in
    let! rqn := is_red qn in
    if rqn then
      let! x := jsw_single (Some q) dir in
      let! pl := deref p in
      set_link pl last x >>
      ret x
    else
      let! qn' := get_link q (negb dir) in
      let! rqn' := is_red qn' in
      if negb rqn' then
        let! pl := deref p in
        let! s := get_link pl (negb last) in
        match s with
        | None => ret p
        | Some sl =>
          let! sn := get_link sl (negb last) in
          let! rsn := is_red sn in
          let! rsl := (if rsn then ret true
                       else let! sc := get_link sl last in is_red sc) in
          if negb rsn && negb rsl then
            (* Color flip *)
            set_red pl false >>
            set_red sl true >>
            set_red q true >>
            ret p
          else
            let! gl := deref g in
            let! g1 := get_link gl true in
            let dir2 := bool_decide (g1 = p) in
            let! sc := get_link sl last in
            let! rsc := is_red sc in
            (if rsc then
               let! x := jsw_double p last in
               set_link gl dir2 x
             else
               let! sn' := get_link sl (negb last) in
               let! rsn' := is_red sn' in
               if rsn' then
                 let! x := jsw_single p last in
                 set_link gl dir2 x
               else ret tt) >>
            (* Ensure correct coloring *)
            let! x := get_link gl dir2 in
            let! xl := deref x in
            set_red xl true >>
            set_red q true >>
            let! x := get_link gl dir2 in
            let! xl := deref x in
            let! x0 := get_link xl false in
            let! x0l := deref x0 in
            set_red x0l false >>
            let! x := get_link gl dir2 in
            let! xl := deref x in
            let! x1 := get_link xl true in
            let! x1l := deref x1 in
            set_red x1l false >>
            ret p
        end
      else ret p
  else ret p.

(** The [while ( q->link[dir] != NULL )] loop; it yields the variables at
    the loop exit. *)
Fixpoint erase_loop (fuel : nat) (node : loc) (v : erase_vars)
    : M store erase_vars :=
  match fuel with
  | O => fail OutOfFuel
  | S fuel =>
    let! c := get_link (ev_q v) (ev_dir v) in
    match c with
    | None => ret v
    | Some cl =>
      let last := ev_dir v in
      (* Move the helpers down *)
      let g := ev_p v in
      let p := Some (ev_q v) in
      let q := cl in
      let! cmp := node_cmp q node in
      let dir := cmp <? 0 in
      (* Save the node with matching data and keep going *)
      let! cmp' := node_cmp q node in
      let f := if cmp' =? 0 then Some q else ev_f v in
      let! p := erase_push q p g dir last in
      erase_loop fuel node
        {| ev_q := q; ev_p := p; ev_g := g; ev_f := f; ev_dir := dir |}
    end
  end.

Definition jsw_rberase (fuel : nat) (node : loc) : M store Z :=
  let! r := get_root in
  match r with
  | None => ret 1
  | Some _ =>
    enter_head >>
    set_link Head true r >>
    let! v := erase_loop fuel node
      {| ev_q := Head; ev_p := None; ev_g := None; ev_f := None;
         ev_dir := true |} in
    (* Replace and remove the saved node *)
    match ev_f v with
    | Some fl =>
      let! tmp := get_data fl in
      let! dq := get_data (ev_q v) in
      set_data fl dq >>
      set_data (ev_q v) tmp >>
      let! pl := deref (ev_p v) in
      let! p1 := get_link pl true in
      let! q0 := get_link (ev_q v) false in
      let! c := get_link (ev_q v) (bool_decide (q0 = None)) in
      set_link pl (bool_decide (p1 = Some (ev_q v))) c
    | None => ret tt
    end >>
    (* Update the root (it may be different) *)
    let! h1 := get_link Head true in
    set_root h1 >>
    leave_head >>
    (* Make the root black for simplified logic *)
    let! r := get_root in
    match r with
    | Some rl => set_red rl false
    | None => ret tt
    end >>
    ret 1
  end.

(** ** The cursor *)

Definition HEIGHT_LIMIT : nat := 64.

(** [struct jsw_rbtrav].  The model has one tree, so the [tree] field, which
    the code only ever writes, carries the root pointer it was paired with;
    [path] is the array of [HEIGHT_LIMIT] slots and [top] the stack index. *)
Record jsw_rbtrav := {
  trav_tree : ptr;
  it : ptr;
  path : list ptr;
  top : nat
}.

Definition get_it : M jsw_rbtrav ptr := fun tr => Ok (it tr) tr.

Definition set_it (p : ptr) : M jsw_rbtrav unit :=
  fun tr => Ok tt {| trav_tree := trav_tree tr; it := p; path := path tr;
                     top := top tr |}.

Definition get_top : M jsw_rbtrav nat := fun tr => Ok (top tr) tr.

Definition set_top (n : nat) : M jsw_rbtrav unit :=
  fun tr => Ok tt {| trav_tree := trav_tree tr; it := it tr; path := path tr;
                     top := n |}.

Definition set_tree (p : ptr) : M jsw_rbtrav unit :=
  fun tr => Ok tt {| trav_tree := p; it := it tr; path := path tr;
                     top := top tr |}.

(** [trav->path[i] = p]: a fault when [i] is outside the array. *)
Definition set_path (i : nat) (p : ptr) : M jsw_rbtrav unit :=
  fun tr =>
    if (i <? HEIGHT_LIMIT)%nat
    then Ok tt {| trav_tree := trav_tree tr; it := it tr;
                  path := <[i := p]> (path tr); top := top tr |}
    else Err OutOfBounds.

(** [trav->path[i]]: a fault when [i] is outside the array. *)
Definition get_path (i : nat) : M jsw_rbtrav ptr :=
  fun tr =>
    if (i <? HEIGHT_LIMIT)%nat
    then match path tr !! i with
         | Some p => Ok p tr
         | None => Err OutOfBounds
         end
    else Err OutOfBounds.

(** [trav->path[trav->top++] = trav->it]. *)
Definition push_it : M jsw_rbtrav unit :=
  let! i := get_top in
  let! p := get_it in
  set_top (S i) >>
  set_path i p.

(** Reading [l->link[dir]] in the store [s], which the cursor never writes. *)
Definition node_link (s : store) (l : loc) (dir : bool) : M jsw_rbtrav ptr :=
  fun tr => match heap s !! l with
            | Some n => Ok (link n dir) tr
            | None => Err Dangling
            end.

(** [while ( trav->it->link[dir] != NULL )] with the push in its body. *)
Fixpoint descend (fuel : nat) (s : store) (dir : bool) : M jsw_rbtrav unit :=
  match fuel with
  | O => fail OutOfFuel
  | S fuel =>
    let! i := get_it in
    let! il := deref i in
    let! c := node_link s il dir in
    match c with
    | None => ret tt
    | Some _ =>
      push_it >>
      let! i := get_it in
      let! il := deref i in
      let! c := node_link s il dir in
      set_it c >>
      descend fuel s dir
    end
  end.

(** [jsw_rbtnew]: the block comes from [malloc]; its contents are whatever
    the caller's [junk] says. *)
Definition jsw_rbtnew (junk : jsw_rbtrav) : jsw_rbtrav :=
  {| trav_tree := trav_tree junk; it := it junk;
     path := take HEIGHT_LIMIT (path junk ++ replicate HEIGHT_LIMIT None);
     top := top junk |}.

(** [start]. *)
Definition start (fuel : nat) (s : store) (dir : bool) : M jsw_rbtrav ptr :=
  set_tree (root s) >>
  set_it (root s) >>
  set_top 0 >>
  (* Save the path for later traversal *)
  let! i := get_it in
  match i with
  | Some _ => descend fuel s dir
  | None => ret tt
  end >>
  let! i := get_it in
  ret (match i with None => None | Some l => Some l end).

(** The [do ... while ( last == trav->it->link[dir] )] loop of [move]. *)
Fixpoint ascend (fuel : nat) (s : store) (dir : bool) : M jsw_rbtrav unit :=
  match fuel with
  | O => fail OutOfFuel
  | S fuel =>
    let! n := get_top in
    match n with
    | O => set_it None
    | S n' =>
      let! last := get_it in
      set_top n' >>
      let! up := get_path n' in
      set_it up >>
      let! i := get_it in
      let! il := deref i in
      let! c := node_link s il dir in
      if bool_decide (last = c) then ascend fuel s dir else ret tt
    end
  end.

(** [move]. *)
Definition move (fuel : nat) (s : store) (dir : bool) : M jsw_rbtrav ptr :=
  let! i := get_it in
  let! il := deref i in
  let! c := node_link s il dir in
  match c with
  | Some _ =>
    (* Continue down this branch *)
    push_it >>
    let! i := get_it in
    let! il := deref i in
    let! c := node_link s il dir in
    set_it c >>
    descend fuel s (negb dir)
  | None =>
    (* Move to the next branch *)
    ascend fuel s dir
  end >>
  let! i := get_it in
  ret (match i with None => None | Some l => Some l end).

Definition jsw_rbtfirst (fuel : nat) (s : store) : M jsw_rbtrav ptr :=
  start fuel s false.

Definition jsw_rbtlast (fuel : nat) (s : store) : M jsw_rbtrav ptr :=
  start fuel s true.

Definition jsw_rbtnext (fuel : nat) (s : store) : M jsw_rbtrav ptr :=
  move fuel s true.

Definition jsw_rbtprev (fuel : nat) (s : store) : M jsw_rbtrav ptr :=
  move fuel s false.

(** ** Caller-side scaffolding for concrete runs *)

(** A caller's record before it is handed to [jsw_rbinsert]. *)
Definition blank (k : Z) : jsw_rbnode :=
  {| red := false; link0 := None; link1 := None; data := {| key := k |} |}.

(** Records with the keys [ks] at the addresses [a], [a+1], ... *)
Fixpoint records (a : N) (ks : list Z) : gmap loc jsw_rbnode :=
  match ks with
  | [] => ∅
  | k :: ks => <[Nd a := blank k]> (records (N.succ a) ks)
  end.

(** An empty tree next to caller records with the keys [ks], at [1], [2], ... *)
Definition fresh_store (ks : list Z) : store :=
  {| root := None; heap := records 1 ks |}.

(** Inserts the records at the given addresses, in order. *)
Fixpoint insert_all (fuel : nat) (nodes : list N) : M store unit :=
  match nodes with
  | [] => ret tt
  | a :: nodes => jsw_rbinsert fuel (Nd a) >> insert_all fuel nodes
  end.

(** The store reached from [fresh_store ks] by inserting the first [n]
    records; the store is left as it is if a call faults. *)
Definition built (ks : list Z) (n : nat) : store :=
  match insert_all 64 (map N.of_nat (seq 1 n)) (fresh_store ks) with
  | Ok _ s => s
  | Err _ => fresh_store ks
  end.

(** The key stored at a pointer, if any. *)
Definition key_at (s : store) (p : ptr) : option Z :=
  match p with
  | Some l => (fun n => key (data n)) <$> heap s !! l
  | None => None
  end.

(** * Vocabulary of the proofs *)

(** ** The two halves of the body of the insertion loop *)

(** The head of the loop body of [jsw_rbinsert]: a new node at a null link,
    or a colour flip.  It yields the new value of [q]. *)
Definition insert_visit (node : loc) (p q : ptr) (dir : bool) : M store ptr :=
  match q with
  | None =>
    let! q' := new_node node in
    let! pl := deref p in
    set_link pl dir q' >>
    ret q'
  | Some ql =>
    let! c0 := get_link ql false in
    let! r0 := is_red c0 in
    let! r1 := (if r0 then let! c1 := get_link ql true in is_red c1
                else ret false) in
    if r1 then
      set_red ql true >>
      let! c0 := get_link ql false in
      let! c0l := deref c0 in
      set_red c0l false >>
      let! c1 := get_link ql true in
      let! c1l := deref c1 in
      set_red c1l false >>
      ret q
    else ret q
  end.

(** [if ( is_red ( q ) && is_red ( p ) )] and its rotations. *)
Definition insert_fix (t : loc) (g p q : ptr) (last : bool) : M store unit :=
  let! rq := is_red q in
  let! rp := (if rq then is_red p else ret false) in
  if rp then
    let! t1 := get_link t true in
    let dir2 := bool_decide (t1 = g) in
    let! pl := deref p in
    let! pc := get_link pl last in
    if bool_decide (q = pc) then
      let! x := jsw_single g (negb last) in
      set_link t dir2 x
    else
      let! x := jsw_double g (negb last) in
      set_link t dir2 x
  else ret tt.

(** ** The shape of the linked structure *)

(** The shape and colours of a linked tree: [T c l x r] is the node at address
    [x], red when [c] holds, with [l] hanging at [link[0]] and [r] at
    [link[1]].  Keys stay in the store. *)
Inductive tree :=
  | Leaf
  | T (c : bool) (l : tree) (x : loc) (r : tree).

Definition rootp (t : tree) : ptr :=
  match t with Leaf => None | T _ _ x _ => Some x end.

(** Addresses in link[0]-to-link[1] order. *)
Fixpoint locs (t : tree) : list loc :=
  match t with
  | Leaf => []
  | T _ l x r => locs l ++ x :: locs r
  end.

Fixpoint slocs (t : tree) : gset loc :=
  match t with
  | Leaf => ∅
  | T _ l x r => {[x]} ∪ slocs l ∪ slocs r
  end.

(** No address occurs twice. *)
Fixpoint wf (t : tree) : Prop :=
  match t with
  | Leaf => True
  | T _ l x r =>
    (x ∉ slocs l) /\ (x ∉ slocs r) /\ (slocs l ## slocs r) /\ wf l /\ wf r
  end.

(** The nodes of the heap [h] are linked and coloured as [t] says. *)
Fixpoint repr (h : gmap loc jsw_rbnode) (t : tree) : Prop :=
  match t with
  | Leaf => True
  | T c l x r =>
    (exists n, h !! x = Some n /\ red n = c /\
               link0 n = rootp l /\ link1 n = rootp r) /\
    repr h l /\ repr h r
  end.

(** The store [s] holds the tree [t] below its root pointer. *)
Definition holds (s : store) (t : tree) : Prop :=
  root s = rootp t /\ repr (heap s) t /\ wf t /\ Head ∉ slocs t.

(** ** The red-black invariants *)

Definition is_red_t (t : tree) : bool :=
  match t with T true _ _ _ => true | _ => false end.

(** Black nodes on the link[0] spine. *)
Fixpoint bh (t : tree) : nat :=
  match t with
  | Leaf => O
  | T c l _ _ => ((if c then 0 else 1) + bh l)%nat
  end.

(** Every path to an absent child crosses the same number of black nodes. *)
Fixpoint balanced (t : tree) : Prop :=
  match t with
  | Leaf => True
  | T _ l _ r => bh l = bh r /\ balanced l /\ balanced r
  end.

(** No red node has a red child. *)
Fixpoint no_red_red (t : tree) : Prop :=
  match t with
  | Leaf => True
  | T c l _ r =>
    (c = true -> is_red_t l = false /\ is_red_t r = false) /\
    no_red_red l /\ no_red_red r
  end.

Definition rb_inv (t : tree) : Prop :=
  is_red_t t = false /\ no_red_red t /\ balanced t.

Fixpoint height (t : tree) : nat :=
  match t with
  | Leaf => O
  | T _ l _ r => S (Nat.max (height l) (height r))
  end.

Fixpoint size (t : tree) : nat :=
  match t with
  | Leaf => O
  | T _ l _ r => S (size l + size r)
  end.

(** ** Direction-generic views *)

(** The node [x] with [a] at [link[d]] and [b] at [link[!d]]. *)
Definition mk (d : bool) (c : bool) (x : loc) (a b : tree) : tree :=
  if d then T c b x a else T c a x b.

Definition child (t : tree) (d : bool) : tree :=
  match t with
  | Leaf => Leaf
  | T _ l _ r => if d then r else l
  end.

(** One step of a path from the root: the node [fx], coloured [fc], was left
    through [link[fd]]; [fsib] hangs at its other link. *)
Record frame := {
  fc : bool;
  fx : loc;
  fd : bool;
  fsib : tree
}.

Definition plug1 (F : frame) (t : tree) : tree :=
  mk (fd F) (fc F) (fx F) t (fsib F).

(** Frames are listed from the hole upwards. *)
Fixpoint plug (ctx : list frame) (t : tree) : tree :=
  match ctx with
  | [] => t
  | F :: ctx => plug ctx (plug1 F t)
  end.

(** The [head] sentinel seen as one more step above the root. *)
Definition head_frame : frame :=
  {| fc := false; fx := Head; fd := true; fsib := Leaf |}.

(** The address of the [i]-th frame, if there is one. *)
Definition frame_loc (ctx : list frame) (i : nat) : ptr :=
  fx <$> ctx !! i.

(** ** Outcomes of fuelled runs *)

(** The run ended well with a result that satisfies [Q], or it only ran out
    of fuel, and then the fuel was at most [bound]. *)
Definition runs {S A} (r : res S A) (bound fuel : nat) (Q : A -> S -> Prop)
    : Prop :=
  match r with
  | Ok a s => Q a s
  | Err e => e = OutOfFuel /\ (fuel <= bound)%nat
  end.

(** ** Cursor positions *)

(** The cursor stands on the root of [tq], reached from the root of the tree
    along [ctx]; its stack holds the addresses of the frames, root first. *)
Definition cur (ctx : list frame) (tq : tree) (tr : jsw_rbtrav) : Prop :=
  it tr = rootp tq /\ top tr = length ctx /\
  take (length ctx) (path tr) = map (fun F => Some (fx F)) (rev ctx) /\
  length (path tr) = HEIGHT_LIMIT.

(** The cursor stands on a node of [t]. *)
Definition cursor_at (t : tree) (tr : jsw_rbtrav) : Prop :=
  exists ctx tq, t = plug ctx tq /\ tq <> Leaf /\ cur ctx tq tr.

(** The cursor is past the end. *)
Definition cursor_done (tr : jsw_rbtrav) : Prop :=
  it tr = None /\ top tr = O /\ length (path tr) = HEIGHT_LIMIT.

Inductive cursor_op := op_first | op_last | op_next | op_prev.

Definition cursor_call (fuel : nat) (s : store) (op : cursor_op)
    : M jsw_rbtrav ptr :=
  match op with
  | op_first => jsw_rbtfirst fuel s
  | op_last => jsw_rbtlast fuel s
  | op_next => jsw_rbtnext fuel s
  | op_prev => jsw_rbtprev fuel s
  end.

(** A sequence of calls on one cursor; it yields the pointers returned. *)
Fixpoint cursor_calls (fuel : nat) (s : store) (ops : list cursor_op)
    : M jsw_rbtrav (list ptr) :=
  match ops with
  | [] => ret []
  | op :: ops =>
    let! p := cursor_call fuel s op in
    let! ps := cursor_calls fuel s ops in
    ret (p :: ps)
  end.

Definition is_seed (op : cursor_op) : bool :=
  match op with op_first | op_last => true | _ => false end.

(** ** Executable checks, for concrete stores *)

(** The tree read off the heap from the pointer [p], down to depth [fuel]. *)
Fixpoint tree_of (fuel : nat) (h : gmap loc jsw_rbnode) (p : ptr) : tree :=
  match fuel, p with
  | S fuel, Some x =>
    match h !! x with
    | Some n => T (red n) (tree_of fuel h (link0 n)) x (tree_of fuel h (link1 n))
    | None => Leaf
    end
  | _, _ => Leaf
  end.

Fixpoint reprb (h : gmap loc jsw_rbnode) (t : tree) : bool :=
  match t with
  | Leaf => true
  | T c l x r =>
    match h !! x with
    | Some n =>
      bool_decide (red n = c) && bool_decide (link0 n = rootp l) &&
      bool_decide (link1 n = rootp r) && reprb h l && reprb h r
    | None => false
    end
  end.

Definition holdsb (s : store) (t : tree) : bool :=
  bool_decide (root s = rootp t) && reprb (heap s) t &&
  bool_decide (NoDup (locs t)) && bool_decide (Head ∉ locs t).

Fixpoint balancedb (t : tree) : bool :=
  match t with
  | Leaf => true
  | T _ l _ r => bool_decide (bh l = bh r) && balancedb l && balancedb r
  end.

Fixpoint no_red_redb (t : tree) : bool :=
  match t with
  | Leaf => true
  | T c l _ r =>
    (negb c || (negb (is_red_t l) && negb (is_red_t r))) &&
    no_red_redb l && no_red_redb r
  end.

Definition rb_invb (t : tree) : bool :=
  negb (is_red_t t) && no_red_redb t && balancedb t.

(** The keys of the nodes of [t] in the store, in link[0]-to-link[1] order. *)
Definition keys_of (s : store) (t : tree) : list (option Z) :=
  map (fun x => key_at s (Some x)) (locs t).

(** ** Concrete stores *)

(** The tree built from the keys 10, 20, 5, 15, 3, and its shape. *)
Definition store_5 : store := built [10; 20; 5; 15; 3] 5.

Definition tree_5 : tree := tree_of 8 (heap store_5) (root store_5).

(** The tree built from the first four of these keys; the fifth record is
    still the caller's. *)
Definition store_4 : store := built [10; 20; 5; 15; 3] 4.

Definition tree_4 : tree := tree_of 8 (heap store_4) (root store_4).

(** A tree with the keys 2, 1 and 3, next to a record that carries the key 1
    once more. *)
Definition store_dup : store := built [2; 1; 3; 1] 3.

Definition tree_dup : tree := tree_of 8 (heap store_dup) (root store_dup).

(** A tree with the keys 2, 1, 3 and 4, next to a record with the key 0. *)
Definition store_abs : store := built [2; 1; 3; 4; 0] 4.

Definition tree_abs : tree := tree_of 8 (heap store_abs) (root store_abs).

(** A tree of eight keys, some of them more than [INT_MAX] apart. *)
Definition store_wrap : store :=
  built [0; 1400000000; -1490000000; 1500000000; 1600000000; 1700000000;
         1800000000; 1900000000] 8.

Definition tree_wrap : tree := tree_of 8 (heap store_wrap) (root store_wrap).

(** A cursor block as [malloc] may return it. *)
Definition trav_0 : jsw_rbtrav :=
  jsw_rbtnew {| trav_tree := None; it := Some (Nd 9); path := []; top := 7 |}.

(** ** Vocabulary of the insertion and erasure proofs *)

Definition blacken (t : tree) : tree :=
  match t with Leaf => Leaf | T _ l x r => T false l x r end.

Definition redden (t : tree) : tree :=
  match t with Leaf => Leaf | T _ l x r => T true l x r end.

(** The colour flip of [jsw_rbinsert]. *)
Definition flip (t : tree) : tree :=
  match t with Leaf => Leaf | T _ l x r => T true (blacken l) x (blacken r) end.

(** A black node whose children are not both red: no flip happens there. *)
Definition calm (t : tree) : Prop :=
  match t with
  | T false l _ r => is_red_t l && is_red_t r = false
  | _ => False
  end.

(** The heaps agree outside the addresses in [D]. *)
Definition same_outside (D : gset loc) (h h' : gmap loc jsw_rbnode) : Prop :=
  forall x, x ∉ D -> h' !! x = h !! x.

(** The heaps hold the same nodes with the same data. *)
Definition same_data (h h' : gmap loc jsw_rbnode) : Prop :=
  forall x, data <$> h' !! x = data <$> h !! x.

(** What [node_cmp ( x, node )] yields when [node] carries the key [k]. *)
Definition cmp_at (h : gmap loc jsw_rbnode) (k : Z) (x : loc) : Z :=
  match h !! x with
  | Some n => wrap (k - key (data n))
  | None => 0
  end.

(** The descent for the key [k] from the root of [t] meets an equal key. *)
Fixpoint reaches (h : gmap loc jsw_rbnode) (k : Z) (t : tree) : Prop :=
  match t with
  | Leaf => False
  | T _ l x r =>
    cmp_at h k x = 0 \/
    cmp_at h k x <> 0 /\ reaches h k (if cmp_at h k x <? 0 then r else l)
  end.

(** The direction the descent for [k] takes at [x]; none on an equal key. *)
Definition cmp_dir (h : gmap loc jsw_rbnode) (k : Z) (x : loc) : option bool :=
  if cmp_at h k x =? 0 then None else Some (cmp_at h k x <? 0).

(** ** Keys *)

(** The key stored at the address [x]. *)
Definition key_of (h : gmap loc jsw_rbnode) (x : loc) : Z :=
  match h !! x with
  | Some n => key (data n)
  | None => 0
  end.

(** The difference of the keys [a] and [b] is an [int]: [node_cmp] yields
    it as it is. *)
Definition no_wrap (a b : Z) : Prop := INT_MIN <= a - b <= INT_MAX.

(** Nodes that come later hold smaller keys. *)
Fixpoint descending (h : gmap loc jsw_rbnode) (l : list loc) : Prop :=
  match l with
  | [] => True
  | x :: l => Forall (fun y => key_of h y < key_of h x) l /\ descending h l
  end.

(** The nodes of [l] are stored in descending key order, and comparing the
    key [k] with any of theirs does not wrap around. *)
Definition keys_ok (h : gmap loc jsw_rbnode) (k : Z) (l : list loc) : Prop :=
  descending h l /\ Forall (fun x => no_wrap k (key_of h x)) l.

(** The keys of the tree [t], in link[0]-to-link[1] order. *)
Definition key_list (h : gmap loc jsw_rbnode) (t : tree) : list Z :=
  map (key_of h) (locs t).

(** [keys_ok], as a check on concrete stores. *)
Fixpoint descendingb (h : gmap loc jsw_rbnode) (l : list loc) : bool :=
  match l with
  | [] => true
  | x :: l => forallb (fun y => key_of h y <? key_of h x) l && descendingb h l
  end.

Definition keys_okb (h : gmap loc jsw_rbnode) (k : Z) (l : list loc) : bool :=
  descendingb h l &&
  forallb (fun x => (INT_MIN <=? k - key_of h x) && (k - key_of h x <=? INT_MAX)) l.

(** ** Traversal order *)

(** The addresses of [t] in the order in which a walk towards [link[d]]
    meets them: link[0] first when [d] is 1, link[1] first when it is 0. *)
Definition walk (d : bool) (t : tree) : list loc :=
  if d then locs t else rev (locs t).

(** What such a walk has still to meet once it has left the subtree below
    the frames [ctx]: every node that was left through the link away from
    [d], and the subtree at its [link[d]]. *)
Fixpoint ahead (d : bool) (ctx : list frame) : list loc :=
  match ctx with
  | [] => []
  | F :: ctx =>
    (if bool_decide (fd F = d) then [] else fx F :: walk d (fsib F))
      ++ ahead d ctx
  end.

(** [l1] and [l2] are the nodes before and after the place where the descent
    for [k] runs into an absent child. *)
Definition hole_split (h : gmap loc jsw_rbnode) (k : Z) (l1 l2 : list loc)
    : Prop :=
  exists ctx, Forall (fun F => cmp_dir h k (fx F) = Some (fd F)) ctx /\
              l1 = rev (ahead false ctx) /\ l2 = ahead true ctx.

(** ** The invariant of the insertion loop *)

(** How much of the window [t], [g], [p] of [jsw_rbinsert] is current:
    everything ([MN]); [g] and [p], on a node where no flip can happen
    ([MC]); [p] alone, just after a double rotation ([MD]). *)
Inductive ins_mode := MN | MC | MD.

Definition ins_measure (h : gmap loc jsw_rbnode) (k : Z) (m : ins_mode)
    (tq : tree) : nat :=
  match m with
  | MN => 2 * height tq + 1
  | MC => 2 * height tq
  | MD =>
    match tq with
    | T _ _ x _ => 2 * height (child tq (cmp_at h k x <? 0)) + 1
    | Leaf => 0
    end
  end.

(** The part of the invariant about the layout: the store lays out [tq]
    plugged into [ctx] below the sentinel, nothing but links and colours
    changed since [h0], the nodes come in the order [lx], and [ctx] is the
    path of the descent for [k]. *)
Record ins_shape (h0 : gmap loc jsw_rbnode) (k : Z) (lx : list loc)
    (ctx : list frame) (tq : tree) (s : store) : Prop := {
  is_repr : repr (heap s) (plug (ctx ++ [head_frame]) tq);
  is_wf : wf (plug (ctx ++ [head_frame]) tq);
  is_data : same_data h0 (heap s);
  is_locs : locs (plug ctx tq) = lx;
  is_path : Forall (fun F => cmp_dir h0 k (fx F) = Some (fd F)) ctx
}.

(** The layout together with the balance invariants, but for the colour of
    the root. *)
Record ins_core (h0 : gmap loc jsw_rbnode) (k : Z) (lx : list loc)
    (ctx : list frame) (tq : tree) (s : store) : Prop := {
  ic_shape : ins_shape h0 k lx ctx tq s;
  ic_nrr : no_red_red (plug ctx tq);
  ic_bal : balanced (plug ctx tq)
}.

Definition ins_mode_inv (h0 : gmap loc jsw_rbnode) (k : Z) (m : ins_mode)
    (ctx : list frame) (tq : tree) (t : loc) (g : ptr) (last : bool) : Prop :=
  match m with
  | MN =>
    g = frame_loc ctx 1 /\ t = default Head (frame_loc ctx 2) /\
    (forall F, ctx !! 1%nat = Some F -> last = fd F) /\
    (forall F, ctx !! 0%nat = Some F ->
               is_red_t tq && is_red_t (fsib F) = false) /\
    (forall F, ctx !! 0%nat = Some F -> fc F = true ->
               exists F2, ctx !! 1%nat = Some F2 /\ is_red_t (fsib F2) = false)
  | MC =>
    g = frame_loc ctx 1 /\ (t = Head \/ (2 <= length ctx)%nat) /\ calm tq
  | MD =>
    (exists F, ctx !! 0%nat = Some F /\ fc F = false) /\
    exists l x r e, tq = T true l x r /\ cmp_dir h0 k x = Some e /\
                    calm (child tq e)
  end.

Record ins_inv (h0 : gmap loc jsw_rbnode) (l0 : list loc) (dup : Prop)
    (node : loc) (k : Z) (m : ins_mode) (ctx : list frame) (tq : tree)
    (t : loc) (g p q : ptr) (dir last : bool) (s : store) : Prop := {
  ii_core : ins_core h0 k l0 ctx tq s;
  ii_node : node ∉ slocs (plug (ctx ++ [head_frame]) tq);
  ii_node_same : heap s !! node = h0 !! node;
  ii_key : (fun n => key (data n)) <$> h0 !! node = Some k;
  ii_q : q = rootp tq;
  ii_p : p = frame_loc ctx 0;
  ii_dir : forall F, ctx !! 0%nat = Some F -> dir = fd F;
  ii_root : ctx = [] -> tq <> Leaf /\ is_red_t tq = false;
  ii_dup : dup -> reaches h0 k tq;
  ii_mode : ins_mode_inv h0 k m ctx tq t g last;
  ii_found : reaches h0 k tq -> dup
}.

(** What holds when the loop is left: the sentinel leads to a non-empty tree
    [t'] that satisfies the balance invariants but for the colour of its
    root; either the nodes and their order are as before and [node] was not
    written, or no equal key was on the path and [node] was linked in. *)
Definition ins_post (h0 : gmap loc jsw_rbnode) (l0 : list loc) (dup : Prop)
    (node : loc) (k : Z) (rt : ptr) (s' : store) : Prop :=
  exists t',
    root s' = rt /\
    repr (heap s') (plug [head_frame] t') /\ wf (plug [head_frame] t') /\
    t' <> Leaf /\ no_red_red t' /\ balanced t' /\ same_data h0 (heap s') /\
    ((locs t' = l0 /\ heap s' !! node = h0 !! node /\ node ∉ slocs t' /\ dup) \/
     (~ dup /\ exists l1 l2, l0 = l1 ++ l2 /\ locs t' = l1 ++ node :: l2 /\
                        hole_split h0 k l1 l2)).

(** What the insertion loop does with [fuel] iterations from a state that
    satisfies the invariant. *)
Definition loop_ok (h0 : gmap loc jsw_rbnode) (l0 : list loc) (dup : Prop)
    (node : loc) (k : Z) (rt : ptr) (fuel : nat) : Prop :=
  forall m ctx tq t g p q dir last s,
    root s = rt ->
    ins_inv h0 l0 dup node k m ctx tq t g p q dir last s ->
    runs (insert_loop fuel node t g p q dir last s) (ins_measure h0 k m tq) fuel
      (fun o s' => o = None /\ ins_post h0 l0 dup node k rt s').

(** What a completed call of [jsw_rbinsert] leaves behind: the store holds a
    red-black tree [t']; outside the sentinel slot no data changed; either
    the descent met an equal key, the nodes come in the old order and the
    passed node was not written, or the descent met no equal key and the node
    was linked in. *)
Definition insert_result (s : store) (t : tree) (node : loc) (k : Z)
    (z : Z) (s' : store) : Prop :=
  z = 1 /\
  exists t', holds s' t' /\ rb_inv t' /\
    (forall x, x <> Head -> data <$> heap s' !! x = data <$> heap s !! x) /\
    ((reaches (heap s) k t /\
      locs t' = locs t /\ heap s' !! node = heap s !! node) \/
     (~ reaches (heap s) k t /\
      exists l1 l2, locs t = l1 ++ l2 /\ locs t' = l1 ++ node :: l2 /\
                    hole_split (heap s) k l1 l2)).

(** ** The invariant of the erasure loop *)

(** What the push-down block leaves behind: the node [q] above the hole, or
    the tree [tq] at the hole, is red; or [q] is the root and the node at its
    other link is black; or [q] is still the sentinel. *)
Definition era_pushed (ctx : list frame) (tq : tree) : Prop :=
  match ctx with
  | [] => True
  | F :: rest =>
    fc F = true \/ is_red_t tq = true \/
    (rest = [] /\ is_red_t (fsib F) = false)
  end.

(** The store lays out [t] plugged into [cf]; only links and colours changed
    since [h0]. *)
Record era_shape (h0 : gmap loc jsw_rbnode) (cf : list frame) (t : tree)
    (s : store) : Prop := {
  es_repr : repr (heap s) (plug cf t);
  es_wf : wf (plug cf t);
  es_data : same_data h0 (heap s)
}.

(** Where the descent of [jsw_rberase] stands among the keys, in a tree in
    key order: the nodes before the subtree below [ctx] hold larger keys than
    [k], the nodes after it hold keys up to [k], and [f] is the first of
    these when that one holds [k], and NULL otherwise. *)
Definition era_keys (h0 : gmap loc jsw_rbnode) (k : Z) (ctx : list frame)
    (f : ptr) : Prop :=
  Forall (fun y => k < key_of h0 y) (ahead false ctx) /\
  Forall (fun y => key_of h0 y <= k) (ahead true ctx) /\
  forall fl, f = Some fl <->
             head (ahead true ctx) = Some fl /\ key_of h0 fl = k.

(** The state of [jsw_rberase] when the loop condition is tested: [q] is the
    node of the first frame, left through [link[dir]], where [tq] hangs; [p]
    is the node of the second frame; [f] is only set to a node of the tree,
    and only if the descent met the key. *)
Record era_inv (h0 : gmap loc jsw_rbnode) (k : Z) (l0 : list loc)
    (dup : Prop) (ctx : list frame) (tq : tree) (v : erase_vars)
    (s : store) : Prop := {
  ei_shape : era_shape h0 (ctx ++ [head_frame]) tq s;
  ei_locs : locs (plug ctx tq) = l0;
  ei_nrr : no_red_red (plug ctx tq);
  ei_bal : balanced (plug ctx tq);
  ei_q : Some (ev_q v) = frame_loc (ctx ++ [head_frame]) 0;
  ei_p : ev_p v = frame_loc (ctx ++ [head_frame]) 1;
  ei_dir : forall F, (ctx ++ [head_frame]) !! 0%nat = Some F -> ev_dir v = fd F;
  ei_pushed : era_pushed ctx tq;
  ei_start : ctx = [] -> tq <> Leaf;
  ei_f : forall fl, ev_f v = Some fl -> dup /\ fl ∈ slocs (plug ctx tq);
  ei_found : reaches h0 k tq -> dup;
  ei_dup : dup -> ev_f v <> None \/ reaches h0 k tq;
  ei_keys : keys_ok h0 k l0 -> era_keys h0 k ctx (ev_f v)
}.

(** The variables after the iteration that moves [q] down to [x]. *)
Definition next_vars (h0 : gmap loc jsw_rbnode) (k : Z) (v : erase_vars)
    (x : loc) (p' : ptr) : erase_vars :=
  {| ev_q := x; ev_p := p'; ev_g := ev_p v;
     ev_f := if cmp_at h0 k x =? 0 then Some x else ev_f v;
     ev_dir := cmp_at h0 k x <? 0 |}.

(** What the erasure loop does with [fuel] iterations from a state that
    satisfies the invariant. *)
Definition era_loop_ok (h0 : gmap loc jsw_rbnode) (k : Z) (l0 : list loc)
    (dup : Prop) (node : loc) (fuel : nat) : Prop :=
  forall ctx tq v s,
    era_inv h0 k l0 dup ctx tq v s ->
    runs (erase_loop fuel node v s) (height tq) fuel
      (fun v' s' => exists ctx', era_inv h0 k l0 dup ctx' Leaf v' s').

(** What a completed call of [jsw_rberase] leaves behind: the store holds a
    red-black tree [t'], and records outside the old tree keep their data;
    either the descent met no equal key, the nodes come in the old order and
    no data changed outside the sentinel slot, or it met one and one node
    was taken out.  When the tree was in key order, it still is, it has lost
    the key [k] and no other, and the node taken out holds [k]. *)
Definition erase_result (s : store) (t : tree) (k : Z) (z : Z) (s' : store)
    : Prop :=
  z = 1 /\
  exists t', holds s' t' /\ rb_inv t' /\
    (forall y, y ∉ slocs t -> y <> Head ->
               data <$> heap s' !! y = data <$> heap s !! y) /\
    ((~ reaches (heap s) k t /\ locs t' = locs t /\
      forall x, x <> Head -> data <$> heap s' !! x = data <$> heap s !! x) \/
     (reaches (heap s) k t /\
      exists l1 x l2, locs t = l1 ++ x :: l2 /\ locs t' = l1 ++ l2 /\
        (keys_ok (heap s) k (locs t) -> key_of (heap s') x = k))) /\
    (keys_ok (heap s) k (locs t) ->
     descending (heap s') (locs t') /\
     forall z, z ∈ key_list (heap s') t' <->
               z <> k /\ z ∈ key_list (heap s) t).

(** ** Vocabulary of the search *)

(** The node on which the descent for the key [k] ends: the first one on its
    way whose key compares equal, if there is one. *)
Fixpoint descent (h : gmap loc jsw_rbnode) (k : Z) (t : tree) : ptr :=
  match t with
  | Leaf => None
  | T _ l x r =>
    if cmp_at h k x =? 0 then Some x
    else descent h k (if cmp_at h k x <? 0 then r else l)
  end.

(** All keys of the tree are [int] values other than [k]. *)
Definition key_absent (s : store) (k : Z) (t : tree) : Prop :=
  Forall (fun x => exists kx, key_at s (Some x) = Some kx /\ in_int kx /\
                              kx <> k) (locs t).

(** The same, as a check on concrete stores. *)
Definition key_absentb (s : store) (k : Z) (t : tree) : bool :=
  forallb (fun x =>
             match key_at s (Some x) with
             | Some kx =>
               (INT_MIN <=? kx) && (kx <=? INT_MAX) && negb (kx =? k)
             | None => false
             end) (locs t).

(** ** Vocabulary of the traversal *)

(** The cursor stands on the node [x] of [t]. *)
Definition cursor_on (t : tree) (x : loc) (tr : jsw_rbtrav) : Prop :=
  cursor_at t tr /\ it tr = Some x.

(** ** Sequences of operations *)










(** ** Trees that are too high for the cursor *)

(** The number of nodes on the way from the root along [link[d]]. *)
Fixpoint spine (d : bool) (t : tree) : nat :=
  match t with
  | Leaf => O
  | T _ l _ r => S (spine d (if d then r else l))
  end.

(** A chain of [n] black nodes linked through [link[0]], at the addresses
    [a], [a+1], ... *)
Fixpoint chain_heap (a : N) (n : nat) : gmap loc jsw_rbnode :=
  match n with
  | O => ∅
  | S n' =>
    <[Nd a := {| red := false;
                 link0 := match n' with O => None | S _ => Some (Nd (N.succ a)) end;
                 link1 := None; data := {| key := 0 |} |}]>
      (chain_heap (N.succ a) n')
  end.

Fixpoint chain_tree (a : N) (n : nat) : tree :=
  match n with
  | O => Leaf
  | S n' => T false (chain_tree (N.succ a) n') (Nd a) Leaf
  end.

Definition chain_store (n : nat) : store :=
  {| root := match n with O => None | S _ => Some (Nd 1) end;
     heap := chain_heap 1 n |}.

(** * Properties *)

(** ** Comparison *)

(** C7: there are keys [a < b] at the ends of the [int] range for which
    [node_cmp] reports the opposite order because the subtraction wraps, and
    the relation it induces is cyclic on three representable keys, so it is
    not a total order. *)
Theorem node_cmp_wraps :
  (exists a b s,
      in_int a /\ in_int b /\ a < b /\ s = fresh_store [a; b] /\
      node_cmp (Nd 1) (Nd 2) (fresh_store [0; 1]) = Ok 1 (fresh_store [0; 1]) /\
      node_cmp (Nd 1) (Nd 2) s = Ok (-1) s /\
      node_cmp (Nd 2) (Nd 1) s = Ok 1 s) /\
  (exists a b c s,
      in_int a /\ in_int b /\ in_int c /\ s = fresh_store [a; b; c] /\
      (exists x, node_cmp (Nd 1) (Nd 2) s = Ok x s /\ 0 < x) /\
      (exists y, node_cmp (Nd 2) (Nd 3) s = Ok y s /\ 0 < y) /\
      (exists z, node_cmp (Nd 1) (Nd 3) s = Ok z s /\ z < 0)).
Proof.
  split.
  - exists INT_MIN, INT_MAX, (fresh_store [INT_MIN; INT_MAX]).
    unfold in_int, INT_MIN, INT_MAX. repeat split; try lia; reflexivity.
  - exists 0, 1400000000, (-1490000000),
      (fresh_store [0; 1400000000; -1490000000]).
    unfold in_int, INT_MIN, INT_MAX. repeat split; try lia.
    + eexists. split; [vm_compute; reflexivity | lia].
    + eexists. split; [vm_compute; reflexivity | lia].
    + eexists. split; [vm_compute; reflexivity | lia].
Qed.

(** ** Erasure on the empty tree *)

(** C10: on the empty tree [jsw_rberase] returns 1 and leaves the store as it
    is, whatever the store holds, whatever pointer is passed and whatever the
    loop budget: no node is read or written. *)
Theorem jsw_rberase_empty (fuel : nat) (node : loc) (h : gmap loc jsw_rbnode) :
  jsw_rberase fuel node {| root := None; heap := h |}
  = Ok 1 {| root := None; heap := h |}.
Proof. reflexivity. Qed.

(** * Lemmas *)

(** * Lemmas *)

(** ** Running computations *)

Lemma bind_ok {S A B} (c : M S A) (k : A -> M S B) s a s' :
  c s = Ok a s' -> bind c k s = k a s'.
Proof. unfold bind. by intros ->. Qed.

Lemma bind_err {S A B} (c : M S A) (k : A -> M S B) s e :
  c s = Err e -> bind c k s = Err e.
Proof. unfold bind. by intros ->. Qed.

Lemma bind_inv {S A B} (c : M S A) (k : A -> M S B) s b s' :
  bind c k s = Ok b s' -> exists a s1, c s = Ok a s1 /\ k a s1 = Ok b s'.
Proof. unfold bind. destruct (c s); [eauto | done]. Qed.

Lemma load_ok s l n : heap s !! l = Some n -> load l s = Ok n s.
Proof. unfold load. by intros ->. Qed.

Lemma get_link_ok s l n d :
  heap s !! l = Some n -> get_link l d s = Ok (link n d) s.
Proof. intros H. unfold get_link. by rewrite (bind_ok _ _ _ _ _ (load_ok _ _ _ H)). Qed.

Lemma get_red_ok s l n : heap s !! l = Some n -> get_red l s = Ok (red n) s.
Proof. intros H. unfold get_red. by rewrite (bind_ok _ _ _ _ _ (load_ok _ _ _ H)). Qed.

Lemma get_data_ok s l n : heap s !! l = Some n -> get_data l s = Ok (data n) s.
Proof. intros H. unfold get_data. by rewrite (bind_ok _ _ _ _ _ (load_ok _ _ _ H)). Qed.

Lemma modify_ok s l n f :
  heap s !! l = Some n ->
  modify l f s = Ok tt {| root := root s; heap := <[l := f n]> (heap s) |}.
Proof. unfold modify. by intros ->. Qed.

Lemma node_cmp_ok s a b na nb :
  heap s !! a = Some na -> heap s !! b = Some nb ->
  node_cmp a b s = Ok (wrap (key (data nb) - key (data na))) s.
Proof.
  intros Ha Hb. unfold node_cmp.
  rewrite (bind_ok _ _ _ _ _ (get_data_ok _ _ _ Hb)).
  by rewrite (bind_ok _ _ _ _ _ (get_data_ok _ _ _ Ha)).
Qed.

(** ** Node fields *)

Lemma link_with_link d v n : link (with_link d v n) d = v.
Proof. by destruct d. Qed.

Lemma link_with_link_negb d v n : link (with_link (negb d) v n) d = link n d.
Proof. by destruct d. Qed.

Lemma link_negb_with_link d v n : link (with_link d v n) (negb d) = link n (negb d).
Proof. by destruct d. Qed.

Lemma link_with_link_ne d d' v n : d <> d' -> link (with_link d v n) d' = link n d'.
Proof. by destruct d, d'. Qed.

Lemma link_with_red b n d : link (with_red b n) d = link n d.
Proof. by destruct d. Qed.

Lemma link_with_data x n d : link (with_data x n) d = link n d.
Proof. by destruct d. Qed.

Lemma red_with_link d v n : red (with_link d v n) = red n.
Proof. by destruct d. Qed.

Lemma data_with_link d v n : data (with_link d v n) = data n.
Proof. by destruct d. Qed.

Lemma red_with_red b n : red (with_red b n) = b.
Proof. done. Qed.

Lemma data_with_red b n : data (with_red b n) = data n.
Proof. done. Qed.

Lemma link_false n : link n false = link0 n.
Proof. done. Qed.

Lemma link_true n : link n true = link1 n.
Proof. done. Qed.

Lemma links_eq n d a b :
  link n d = a -> link n (negb d) = b ->
  link0 n = (if d then b else a) /\ link1 n = (if d then a else b).
Proof. by destruct d. Qed.

(** ** Trees *)

Lemma rootp_mk d c x a b : rootp (mk d c x a b) = Some x.
Proof. by destruct d. Qed.

Lemma is_red_mk d c x a b : is_red_t (mk d c x a b) = c.
Proof. by destruct d, c. Qed.

Lemma child_mk d c x a b : child (mk d c x a b) d = a.
Proof. by destruct d. Qed.

Lemma child_mk_negb d c x a b : child (mk d c x a b) (negb d) = b.
Proof. by destruct d. Qed.

Lemma mk_child d c l x r : T c l x r = mk d c x (child (T c l x r) d) (child (T c l x r) (negb d)).
Proof. by destruct d. Qed.

Lemma mk_negb d c x a b : mk (negb d) c x a b = mk d c x b a.
Proof. by destruct d. Qed.

Lemma slocs_mk d c x a b : slocs (mk d c x a b) = {[x]} ∪ slocs a ∪ slocs b.
Proof. destruct d; simpl; set_solver. Qed.

Lemma wf_mk d c x a b :
  wf (mk d c x a b) <->
  (x ∉ slocs a) /\ (x ∉ slocs b) /\ (slocs a ## slocs b) /\ wf a /\ wf b.
Proof. destruct d; simpl; naive_solver. Qed.

Lemma repr_mk h d c x a b :
  repr h (mk d c x a b) <->
  (exists n, h !! x = Some n /\ red n = c /\
             link n d = rootp a /\ link n (negb d) = rootp b) /\
  repr h a /\ repr h b.
Proof. destruct d; simpl; naive_solver. Qed.

Lemma balanced_mk d c x a b :
  balanced (mk d c x a b) <-> bh a = bh b /\ balanced a /\ balanced b.
Proof. destruct d; simpl; naive_solver. Qed.

Lemma bh_mk d c x a b :
  bh a = bh b -> bh (mk d c x a b) = ((if c then 0 else 1) + bh a)%nat.
Proof. destruct d; simpl; lia. Qed.

Lemma no_red_red_mk d c x a b :
  no_red_red (mk d c x a b) <->
  (c = true -> is_red_t a = false /\ is_red_t b = false) /\
  no_red_red a /\ no_red_red b.
Proof. destruct d; simpl; naive_solver. Qed.

Lemma height_mk d c x a b :
  height (mk d c x a b) = S (Nat.max (height a) (height b)).
Proof. destruct d; simpl; lia. Qed.

Lemma elem_of_locs x t : x ∈ locs t <-> x ∈ slocs t.
Proof.
  induction t as [|c l IHl y r IHr]; simpl; [set_solver|].
  rewrite elem_of_app, elem_of_cons, IHl, IHr. set_solver.
Qed.

Lemma NoDup_locs t : NoDup (locs t) <-> wf t.
Proof.
  induction t as [|c l IHl y r IHr]; simpl.
  - split; [done | intros; constructor].
  - rewrite NoDup_app, NoDup_cons, IHl, IHr.
    setoid_rewrite elem_of_cons. setoid_rewrite elem_of_locs.
    split.
    + intros (Hl & Hd & Hy & Hr). repeat split; try done.
      * intros Hin. apply (Hd y Hin). by left.
      * intros z Hz1 Hz2. apply (Hd z Hz1). by right.
    + intros (Hy1 & Hy2 & Hd & Hl & Hr). repeat split; try done.
      intros z Hz [-> | Hz2]; [done | by apply (Hd z)].
Qed.

Lemma repr_rootp_lookup h t x :
  repr h t -> rootp t = Some x -> is_Some (h !! x).
Proof. destruct t; simpl; [done|]. intros ((n & Hn & _) & _) [= <-]. eauto. Qed.

Lemma repr_lookup h t x : repr h t -> x ∈ slocs t -> is_Some (h !! x).
Proof.
  induction t as [|c l IHl y r IHr]; simpl; [set_solver|].
  intros ((n & Hn & _) & Hl & Hr) Hx.
  apply elem_of_union in Hx as [Hx | Hx]; [|by auto].
  apply elem_of_union in Hx as [Hx | Hx]; [|by auto].
  apply elem_of_singleton in Hx as ->. eauto.
Qed.

(** A heap that agrees with [h] on the nodes of [t] lays [t] out as well. *)
Lemma repr_agree h h' t :
  (forall x, x ∈ slocs t -> h' !! x = h !! x) -> repr h t -> repr h' t.
Proof.
  induction t as [|c l IHl y r IHr]; simpl; [done|].
  intros Hag ((n & Hn & Hrest) & Hl & Hr). split_and!.
  - exists n. rewrite Hag by set_solver. done.
  - apply IHl; [|done]. intros; apply Hag; set_solver.
  - apply IHr; [|done]. intros; apply Hag; set_solver.
Qed.

Lemma repr_insert_notin h t x n :
  x ∉ slocs t -> repr h t -> repr (<[x := n]> h) t.
Proof.
  intros Hx. apply repr_agree. intros y Hy.
  apply lookup_insert_ne. set_solver.
Qed.

Lemma repr_delete_notin h t x :
  x ∉ slocs t -> repr h t -> repr (delete x h) t.
Proof.
  intros Hx. apply repr_agree. intros y Hy.
  apply lookup_delete_ne. set_solver.
Qed.

(** Two trees laid out from the same pointer in the same heap are equal. *)
Lemma repr_unique h t1 : forall t2,
  repr h t1 -> repr h t2 -> rootp t1 = rootp t2 -> t1 = t2.
Proof.
  induction t1 as [|c l IHl x r IHr]; intros [|c' l' x' r']; simpl; try done.
  intros ((n & Hn & Hc & H0 & H1) & Hl & Hr)
         ((n' & Hn' & Hc' & H0' & H1') & Hl' & Hr') [= <-].
  rewrite Hn in Hn'. injection Hn' as <-.
  f_equal; [congruence | apply IHl | apply IHr]; congruence.
Qed.

(** ** Plugging a tree into a path *)

Lemma plug_app ctx1 ctx2 t : plug (ctx1 ++ ctx2) t = plug ctx2 (plug ctx1 t).
Proof. revert t. induction ctx1 as [|F ctx1 IH]; intros t; simpl; [done | apply IH]. Qed.

Lemma slocs_plug1 F t : slocs (plug1 F t) = {[fx F]} ∪ slocs t ∪ slocs (fsib F).
Proof. apply slocs_mk. Qed.

Lemma slocs_plug_sub ctx t : slocs t ⊆ slocs (plug ctx t).
Proof.
  revert t. induction ctx as [|F ctx IH]; intros t; simpl; [done|].
  etrans; [|apply IH]. rewrite slocs_plug1. set_solver.
Qed.

Lemma repr_plug_sub h ctx t : repr h (plug ctx t) -> repr h t.
Proof.
  revert t. induction ctx as [|F ctx IH]; intros t; simpl; [done|].
  intros H. apply IH in H. apply repr_mk in H. tauto.
Qed.

Lemma wf_plug_sub ctx t : wf (plug ctx t) -> wf t.
Proof.
  revert t. induction ctx as [|F ctx IH]; intros t; simpl; [done|].
  intros H. apply IH in H. apply wf_mk in H. tauto.
Qed.

Lemma no_red_red_plug_sub ctx t : no_red_red (plug ctx t) -> no_red_red t.
Proof.
  revert t. induction ctx as [|F ctx IH]; intros t; simpl; [done|].
  intros H. apply IH in H. apply no_red_red_mk in H. tauto.
Qed.

Lemma balanced_plug_sub ctx t : balanced (plug ctx t) -> balanced t.
Proof.
  revert t. induction ctx as [|F ctx IH]; intros t; simpl; [done|].
  intros H. apply IH in H. apply balanced_mk in H. tauto.
Qed.

(** Replacing the plugged tree by one on (at most) the same addresses. *)
Lemma slocs_plug_mono ctx t t' :
  slocs t' ⊆ slocs t -> slocs (plug ctx t') ⊆ slocs (plug ctx t).
Proof.
  revert t t'. induction ctx as [|F ctx IH]; intros t t' Hsub; simpl; [done|].
  apply IH. rewrite !slocs_plug1. set_solver.
Qed.

Lemma wf_slocs_plug_gen ctx : forall t t',
  wf (plug ctx t) -> wf t' ->
  (forall x, x ∈ slocs t' -> x ∈ slocs t \/ x ∉ slocs (plug ctx t)) ->
  wf (plug ctx t') /\
  (forall x, x ∈ slocs (plug ctx t') -> x ∈ slocs (plug ctx t) \/ x ∈ slocs t').
Proof.
  induction ctx as [|F ctx IH]; intros t t' Hwf Hwf' Hsub; simpl in *.
  { split; [done | auto]. }
  pose proof (wf_plug_sub _ _ Hwf) as Hwf1.
  apply wf_mk in Hwf1 as (Hx1 & Hx2 & Hd & Hwt & Hws).
  pose proof (slocs_plug_sub ctx (plug1 F t)) as Hsubs.
  rewrite slocs_plug1 in Hsubs.
  destruct (IH (plug1 F t) (plug1 F t')) as [IH1 IH2]; [done | | |].
  - apply wf_mk. split_and!; try done.
    + intros Hin. destruct (Hsub _ Hin) as [?|Hn]; [done|]. apply Hn. set_solver.
    + intros z Hz1 Hz2. destruct (Hsub _ Hz1) as [?|Hn]; [by apply (Hd z)|].
      apply Hn. set_solver.
  - intros x. rewrite !slocs_plug1. intros Hx.
    destruct (decide (x ∈ slocs t')) as [Hin|Hnin].
    + destruct (Hsub _ Hin) as [?|Hn]; [left; set_solver|].
      right. intros Hp. apply Hn. done.
    + left. set_solver.
  - split; [done|]. intros x Hx. destruct (IH2 x Hx) as [?|Hx']; [by left|].
    rewrite slocs_plug1 in Hx'.
    destruct (decide (x ∈ slocs t')); [by right|]. left. apply Hsubs. set_solver.
Qed.

Lemma wf_plug_replace ctx t t' :
  wf (plug ctx t) -> wf t' -> slocs t' ⊆ slocs t -> wf (plug ctx t').
Proof.
  intros Hwf Hwf' Hsub. eapply wf_slocs_plug_gen; eauto.
Qed.

Lemma repr_plug_replace h h' ctx : forall t t',
  repr h (plug ctx t) -> wf (plug ctx t) ->
  repr h' t' -> rootp t' = rootp t ->
  (forall x, x ∈ slocs (plug ctx t) -> x ∉ slocs t -> h' !! x = h !! x) ->
  repr h' (plug ctx t').
Proof.
  induction ctx as [|F ctx IH]; intros t t' Hr Hwf Hr' Hroot Hag; simpl in *; [done|].
  pose proof (wf_plug_sub _ _ Hwf) as Hwf1.
  apply wf_mk in Hwf1 as (Hx1 & Hx2 & Hd & Hwt & Hws).
  pose proof (repr_plug_sub _ _ _ Hr) as Hr1.
  apply repr_mk in Hr1 as ((n & Hn & Hc & Hl1 & Hl2) & Hrt & Hrs).
  pose proof (slocs_plug_sub ctx (plug1 F t)) as Hsub.
  rewrite slocs_plug1 in Hsub.
  apply (IH (plug1 F t)); try done.
  - apply repr_mk. split_and!; try done.
    + exists n. rewrite Hag; [|set_solver|done]. rewrite Hroot. done.
    + eapply repr_agree; [|done]. intros x Hx. apply Hag; set_solver.
  - unfold plug1. by rewrite !rootp_mk.
  - intros x Hx1' Hx. apply Hag; [done|]. rewrite slocs_plug1 in Hx. set_solver.
Qed.

Lemma bh_plug1_congr F t t' :
  bh t' = bh t -> bh (plug1 F t') = bh (plug1 F t).
Proof. unfold plug1, mk. destruct (fd F); simpl; lia. Qed.

(** Replacing a subtree by one with the same black height that is no redder
    at its root keeps the balance invariants of the whole. *)
Lemma rb_plug_replace ctx : forall t t',
  no_red_red (plug ctx t) -> balanced (plug ctx t) ->
  no_red_red t' -> balanced t' -> bh t' = bh t ->
  (is_red_t t' = true -> is_red_t t = true) ->
  no_red_red (plug ctx t') /\ balanced (plug ctx t') /\
  bh (plug ctx t') = bh (plug ctx t) /\
  is_red_t (plug ctx t') = is_red_t (plug ctx t) \/ ctx = [] /\ no_red_red t' /\ balanced t'.
Proof.
  induction ctx as [|F ctx IH]; intros t t' Hn Hb Hn' Hb' Hbh Hred; simpl in *.
  { right. done. }
  left.
  pose proof (no_red_red_plug_sub _ _ Hn) as Hn1.
  pose proof (balanced_plug_sub _ _ Hb) as Hb1.
  unfold plug1 in *.
  apply no_red_red_mk in Hn1 as (Hc & Hnt & Hns).
  apply balanced_mk in Hb1 as (Hbh1 & Hbt & Hbs).
  assert (no_red_red (mk (fd F) (fc F) (fx F) t' (fsib F))) as Hn2.
  { apply no_red_red_mk. split_and!; try done.
    intros Hcc. destruct (Hc Hcc) as [H1 H2]. split; [|done].
    destruct (is_red_t t') eqn:E; [|done]. rewrite Hred in H1; done. }
  assert (balanced (mk (fd F) (fc F) (fx F) t' (fsib F))) as Hb2.
  { apply balanced_mk. split_and!; try done. congruence. }
  assert (bh (mk (fd F) (fc F) (fx F) t' (fsib F)) = bh (mk (fd F) (fc F) (fx F) t (fsib F))) as Hbh2.
  { rewrite !bh_mk by congruence. lia. }
  destruct (IH _ _ Hn Hb Hn2 Hb2 Hbh2) as [H|H].
  - rewrite !is_red_mk. done.
  - done.
  - destruct H as (-> & _ & _). simpl. rewrite !is_red_mk. done.
Qed.

Lemma rb_plug_replace' ctx t t' :
  no_red_red (plug ctx t) -> balanced (plug ctx t) ->
  no_red_red t' -> balanced t' -> bh t' = bh t ->
  (is_red_t t' = true -> is_red_t t = true) ->
  no_red_red (plug ctx t') /\ balanced (plug ctx t').
Proof.
  intros Hn Hb Hn' Hb' Hbh Hred.
  destruct (rb_plug_replace ctx t t') as [H|H]; try done.
  - tauto.
  - destruct H as (-> & ? & ?). done.
Qed.

Lemma slocs_plug_congr ctx : forall t t',
  slocs t' = slocs t -> slocs (plug ctx t') = slocs (plug ctx t).
Proof.
  induction ctx as [|F ctx IH]; intros t t' Heq; simpl; [done|].
  apply IH. by rewrite !slocs_plug1, Heq.
Qed.

Lemma plug_not_leaf ctx t : t <> Leaf -> plug ctx t <> Leaf.
Proof.
  revert t. induction ctx as [|F ctx IH]; intros t Hne; simpl; [done|].
  apply IH. unfold plug1, mk. by destruct (fd F).
Qed.

Lemma locs_plug_congr ctx : forall t t',
  locs t' = locs t -> locs (plug ctx t') = locs (plug ctx t).
Proof.
  induction ctx as [|F ctx IH]; intros t t' Heq; simpl; [done|].
  apply IH. unfold plug1, mk. destruct (fd F); simpl; by rewrite Heq.
Qed.

Lemma height_plug ctx t : (height t + length ctx <= height (plug ctx t))%nat.
Proof.
  revert t. induction ctx as [|F ctx IH]; intros t; simpl; [lia|].
  specialize (IH (plug1 F t)). unfold plug1 in IH at 1. rewrite height_mk in IH. lia.
Qed.

(** ** Traversal order and paths *)

Lemma cmp_dir_Some h k x d :
  cmp_dir h k x = Some d <-> cmp_at h k x <> 0 /\ d = (cmp_at h k x <? 0).
Proof.
  unfold cmp_dir. destruct (Z.eqb_spec (cmp_at h k x) 0) as [->|Hne].
  - split; [done | by intros [? _]].
  - split; [by intros [= <-] | by intros [_ ->]].
Qed.

Lemma walk_rev d t : rev (walk (negb d) t) = walk d t.
Proof. destruct d; simpl; [apply rev_involutive | done]. Qed.

Lemma walk_mk d c x a b : walk d (mk d c x a b) = walk d b ++ x :: walk d a.
Proof.
  destruct d; simpl; [done|].
  rewrite rev_app_distr. simpl. by rewrite <- app_assoc.
Qed.

Lemma walk_mk_negb d c x a b :
  walk (negb d) (mk d c x a b) = walk (negb d) a ++ x :: walk (negb d) b.
Proof.
  replace (mk d c x a b) with (mk (negb d) c x b a) by (by destruct d).
  apply walk_mk.
Qed.

Lemma walk_plug d : forall ctx tq,
  walk d (plug ctx tq) = rev (ahead (negb d) ctx) ++ walk d tq ++ ahead d ctx.
Proof.
  induction ctx as [|F ctx IH]; intros tq; simpl.
  { by rewrite app_nil_r. }
  rewrite IH. unfold plug1. rewrite rev_app_distr, <- !app_assoc. f_equal.
  destruct (bool_decide_reflect (fd F = d)) as [<-|Hne].
  - rewrite bool_decide_eq_false_2 by (by destruct (fd F)).
    rewrite walk_mk. simpl. rewrite walk_rev, <- !app_assoc. done.
  - assert (fd F = negb d) as Hfd by (destruct (fd F), d; done).
    rewrite bool_decide_eq_true_2 by done.
    rewrite Hfd. rewrite <- (negb_involutive d) at 1 3.
    rewrite walk_mk_negb, !negb_involutive. simpl. by rewrite <- app_assoc.
Qed.


Lemma ahead_same d fs : Forall (fun F => fd F = d) fs -> ahead d fs = [].
Proof.
  induction 1 as [|F fs HF _ IH]; simpl; [done|].
  by rewrite bool_decide_eq_true_2, IH.
Qed.


Lemma split_unique {A} (x : A) l1 l2 l1' l2' :
  NoDup (l1 ++ x :: l2) -> l1 ++ x :: l2 = l1' ++ x :: l2' ->
  l1 = l1' /\ l2 = l2'.
Proof.
  revert l1'. induction l1 as [|a l1 IH]; intros l1' Hnd Heq.
  - destruct l1' as [|a' l1']; simpl in *; [by injection Heq|].
    injection Heq as <- ->. apply NoDup_cons in Hnd as [Hx _].
    exfalso. apply Hx. set_solver.
  - destruct l1' as [|a' l1']; simpl in *.
    + injection Heq as -> <-. apply NoDup_cons in Hnd as [Hx _].
      exfalso. apply Hx. set_solver.
    + injection Heq as <- Heq. apply NoDup_cons in Hnd as [_ Hnd].
      destruct (IH l1' Hnd Heq) as [-> ->]. done.
Qed.

Lemma elem_of_rev {A} (x : A) l : x ∈ rev l <-> x ∈ l.
Proof. rewrite !list_elem_of_In. symmetry. apply in_rev. Qed.

Lemma frame_in_ahead F ctx :
  F ∈ ctx -> fx F ∈ rev (ahead false ctx) ++ ahead true ctx.
Proof.
  induction ctx as [|G ctx IH]; [by intros ?%elem_of_nil|].
  rewrite elem_of_app, elem_of_rev in IH.
  rewrite elem_of_app, elem_of_rev. simpl. rewrite !elem_of_app.
  intros [->|Hin]%elem_of_cons.
  - destruct (fd G); simpl; set_solver.
  - destruct (IH Hin); [left; by right | right; by right].
Qed.

Lemma hole_split_agree h h' k l1 l2 :
  (forall x, x ∈ l1 ++ l2 -> h' !! x = h !! x) ->
  hole_split h k l1 l2 -> hole_split h' k l1 l2.
Proof.
  intros Hag (ctx & Hp & -> & ->). exists ctx. split; [|done].
  apply Forall_forall. intros F HF.
  rewrite Forall_forall in Hp. specialize (Hp F HF).
  unfold cmp_dir, cmp_at in *.
  by rewrite (Hag (fx F) (frame_in_ahead F ctx HF)).
Qed.

Lemma rev_inj {A} (l1 l2 : list A) : rev l1 = rev l2 -> l1 = l2.
Proof. intros H. by rewrite <- (rev_involutive l1), H, rev_involutive. Qed.

(** The nodes ahead of a subtree depend only on where it lies in the order,
    not on how the nodes above it are linked. *)
Lemma ahead_step ctx c l x r FQ ctx' (d : bool) :
  let tq := T c l x r in
  wf (plug ctx tq) ->
  locs (plug (FQ :: ctx') (child tq d)) = locs (plug ctx tq) ->
  fx FQ = x -> fd FQ = d ->
  forall d', ahead d' (FQ :: ctx')
             = ahead d' ({| fc := c; fx := x; fd := d;
                            fsib := child tq (negb d) |} :: ctx).
Proof.
  intros tq Hwf Hl Hx Hd.
  set (F0 := {| fc := c; fx := x; fd := d; fsib := child tq (negb d) |}).
  assert (plug (F0 :: ctx) (child tq d) = plug ctx tq) as HF0.
  { cbn [plug]. unfold plug1, F0. cbn [fd fc fx fsib]. subst tq.
    by rewrite <- (mk_child d). }
  pose proof (proj2 (NoDup_locs _) Hwf) as Hnd.
  rewrite <- HF0 in Hl, Hnd.
  pose proof (walk_plug true (FQ :: ctx') (child tq d)) as H1.
  pose proof (walk_plug true (F0 :: ctx) (child tq d)) as H2.
  cbn [walk negb] in H1, H2. rewrite Hl in H1. rewrite H2 in Hnd, H1.
  clear H2 Hl HF0. cbn [ahead] in *. rewrite Hx, Hd in *. cbn [fd fx F0] in *.
  rewrite !rev_app_distr in *.
  assert (bool_decide (true = true) = true) as Ett by done.
  assert (bool_decide (false = false) = true) as Eff by done.
  assert (bool_decide (true = false) = false) as Etf by done.
  assert (bool_decide (false = true) = false) as Eft by done.
  destruct d; rewrite ?Ett, ?Eff, ?Etf, ?Eft in H1, Hnd;
    cbn [app rev walk] in H1, Hnd.
  - repeat rewrite <- app_assoc in H1. repeat rewrite <- app_assoc in Hnd.
    cbn [app] in H1, Hnd.
    rewrite (app_assoc (rev (ahead false ctx'))) in H1.
    rewrite (app_assoc (rev (ahead false ctx))) in H1, Hnd.
    destruct (split_unique _ _ _ _ _ Hnd H1) as [Ha Hb].
    apply app_inv_head in Hb.
    intros [|]; rewrite ?Ett, ?Eff, ?Etf, ?Eft; cbn [app walk].
    + by symmetry.
    + f_equal. apply rev_inj. rewrite !rev_app_distr. by symmetry.
  - repeat rewrite app_nil_r in H1. repeat rewrite app_nil_r in Hnd.
    rewrite (app_assoc (rev (ahead false ctx'))) in H1.
    rewrite (app_assoc (rev (ahead false ctx))) in H1, Hnd.
    destruct (split_unique _ _ _ _ _ Hnd H1) as [Ha Hb].
    apply app_inv_tail in Ha.
    intros [|]; rewrite ?Ett, ?Eff, ?Etf, ?Eft; cbn [app walk].
    + f_equal. by symmetry.
    + apply rev_inj. by symmetry.
Qed.

(** ** Keys and their order *)

Lemma wrap_zero a b : in_int a -> in_int b -> wrap (a - b) = 0 -> a = b.
Proof.
  unfold in_int, INT_MIN, INT_MAX, wrap. intros Ha Hb H.
  pose proof (Z.div_mod (a - b + 2 ^ 31) (2 ^ 32) ltac:(lia)) as Hd.
  pose proof (Z.mod_pos_bound (a - b + 2 ^ 31) (2 ^ 32) ltac:(lia)). lia.
Qed.

Lemma wrap_small z : - 2 ^ 31 <= z < 2 ^ 31 -> wrap z = z.
Proof.
  unfold wrap. intros Hz. rewrite Z.mod_small by lia. lia.
Qed.

Lemma cmp_exact h k x :
  is_Some (h !! x) -> no_wrap k (key_of h x) -> cmp_at h k x = k - key_of h x.
Proof.
  unfold cmp_at, key_of, no_wrap, INT_MIN, INT_MAX. intros [n ->] Hn.
  apply wrap_small. lia.
Qed.

Lemma descending_app h l1 l2 :
  descending h (l1 ++ l2) <->
  descending h l1 /\ descending h l2 /\
  forall x y, x ∈ l1 -> y ∈ l2 -> key_of h y < key_of h x.
Proof.
  induction l1 as [|a l1 IH]; simpl.
  - split; [intros ?; split_and!; [done..|] | tauto].
    by intros x y ?%elem_of_nil.
  - rewrite IH, Forall_app, !Forall_forall. split.
    + intros ((H1 & H2) & H3 & H4 & H5). split_and!; try done.
      intros x y [->|?]%elem_of_cons ?; auto.
    + intros ((H1 & H2) & H3 & H4). split_and!; try done.
      * intros y ?. apply H4; [left | done].
      * intros x y ? ?. apply H4; [by right | done].
Qed.

Lemma descending_agree h h' l :
  (forall x, x ∈ l -> key_of h' x = key_of h x) ->
  descending h l -> descending h' l.
Proof.
  induction l as [|a l IH]; simpl; [done|]. intros Hag [H1 H2]. split.
  - rewrite Forall_forall in *. intros y Hy.
    rewrite !Hag by (by constructor). by apply H1.
  - apply IH; [|done]. intros x ?. apply Hag. by right.
Qed.

Lemma descending_NoDup h l : descending h l -> NoDup l.
Proof.
  induction l as [|a l IH]; simpl; [constructor|]. intros [H1 H2].
  constructor; [|by apply IH]. intros Hin.
  rewrite Forall_forall in H1. specialize (H1 a Hin). lia.
Qed.

Lemma keys_ok_app h k l1 l2 :
  keys_ok h k (l1 ++ l2) -> keys_ok h k l1 /\ keys_ok h k l2.
Proof.
  unfold keys_ok. rewrite descending_app, Forall_app. tauto.
Qed.

Lemma keys_ok_cons h k x l :
  keys_ok h k (x :: l) -> no_wrap k (key_of h x) /\ keys_ok h k l.
Proof.
  unfold keys_ok. simpl. rewrite Forall_cons. tauto.
Qed.

(** In a tree in descending key order the descent ends on the node that
    holds the key, if there is one. *)
Lemma descent_sorted h k t :
  repr h t -> keys_ok h k (locs t) ->
  match descent h k t with
  | Some y => y ∈ locs t /\ key_of h y = k
  | None => Forall (fun y => key_of h y <> k) (locs t)
  end.
Proof.
  induction t as [|c l IHl x r IHr]; simpl; [done|].
  intros ((n & Hn & _) & Hrl & Hrr) Hok.
  pose proof Hok as [Hdesc _].
  apply keys_ok_app in Hok as [Hokl Hokr].
  apply keys_ok_cons in Hokr as [Hnw Hokr].
  apply descending_app in Hdesc as (_ & Hdr & Hlr). simpl in Hdr.
  destruct Hdr as [Hxr _]. rewrite Forall_forall in Hxr.
  rewrite (cmp_exact h k x) by (by rewrite ?Hn).
  destruct (Z.eqb_spec (k - key_of h x) 0) as [Hc|Hc].
  { split; [set_solver | lia]. }
  destruct (Z.ltb_spec (k - key_of h x) 0) as [Hlt|Hge].
  - specialize (IHr Hrr Hokr). destruct (descent h k r) as [y|].
    + destruct IHr. split; [set_solver | done].
    + rewrite Forall_app, Forall_cons. split_and!; [|lia|done].
      apply Forall_forall. intros y Hy.
      specialize (Hlr y x Hy ltac:(set_solver)). lia.
  - specialize (IHl Hrl Hokl). destruct (descent h k l) as [y|].
    + destruct IHl. split; [set_solver | done].
    + rewrite Forall_app, Forall_cons. split_and!; [done|lia|].
      apply Forall_forall. intros y Hy. specialize (Hxr y Hy). lia.
Qed.

(** The descent for [k] runs into an absent child between the nodes with
    larger keys and those with smaller ones. *)
Lemma hole_keys h k : forall ctx,
  Forall (fun F => cmp_dir h k (fx F) = Some (fd F)) ctx ->
  Forall (fun F => is_Some (h !! fx F)) ctx ->
  keys_ok h k (rev (ahead false ctx) ++ ahead true ctx) ->
  Forall (fun y => k < key_of h y) (ahead false ctx) /\
  Forall (fun y => key_of h y < k) (ahead true ctx).
Proof.
  induction ctx as [|F ctx IH]; simpl; [done|].
  intros [HF Hp]%Forall_cons [HsF Hs]%Forall_cons Hok.
  apply cmp_dir_Some in HF as [Hne Hd].
  rewrite rev_app_distr, <- app_assoc in Hok.
  pose proof Hok as [Hdesc Hnw].
  assert (keys_ok h k (rev (ahead false ctx) ++ ahead true ctx)) as Hok'.
  { apply keys_ok_app in Hok as [H1 H2]. apply keys_ok_app in H2 as [_ H2].
    apply keys_ok_app in H2 as [_ H2].
    destruct H1 as [H1 H1'], H2 as [H2 H2']. split.
    - apply descending_app. split_and!; [done..|].
      intros x y Hx Hy. apply descending_app in Hdesc as (_ & _ & Hd').
      apply Hd'; [done|]. set_solver.
    - by apply Forall_app. }
  destruct (IH Hp Hs Hok') as [IH1 IH2].
  apply descending_app in Hdesc as (_ & Hdesc & _).
  apply descending_app in Hdesc as (Hd1 & Hdesc & H12).
  apply descending_app in Hdesc as (Hd2 & _ & H23).
  rewrite !Forall_app in Hnw. destruct Hnw as (_ & Hnw1 & Hnw2 & _).
  destruct (fd F) eqn:Efd; simpl in *.
  - (* the path went to link[1]: the frame and its link[0] side come before *)
    rewrite Forall_app, Forall_singleton in Hnw1. destruct Hnw1 as [_ Hw].
    assert (k < key_of h (fx F)) as Hk.
    { rewrite (cmp_exact h k (fx F)) in Hd, Hne by done.
      symmetry in Hd. apply Z.ltb_lt in Hd. lia. }
    split; [|done]. rewrite Forall_cons, Forall_app. split_and!; [done| |done].
    apply Forall_forall. intros y Hy.
    apply descending_app in Hd1 as (_ & _ & Hd1).
    specialize (Hd1 y (fx F)). rewrite elem_of_rev in Hd1.
    specialize (Hd1 Hy ltac:(set_solver)). lia.
  - rewrite Forall_cons in Hnw2. destruct Hnw2 as [Hw _].
    assert (key_of h (fx F) < k) as Hk.
    { rewrite (cmp_exact h k (fx F)) in Hd, Hne by done.
      symmetry in Hd. apply Z.ltb_ge in Hd. lia. }
    split; [done|]. rewrite Forall_cons, Forall_app. split_and!; [done| |done].
    apply Forall_forall. intros y Hy. destruct Hd2 as [Hd2 _].
    rewrite Forall_forall in Hd2. specialize (Hd2 y Hy). lia.
Qed.

Lemma descending_insert h h' k node l1 l2 :
  descending h (l1 ++ l2) ->
  Forall (fun y => k < key_of h y) l1 -> Forall (fun y => key_of h y < k) l2 ->
  key_of h' node = k ->
  (forall x, x ∈ l1 ++ l2 -> key_of h' x = key_of h x) ->
  descending h' (l1 ++ node :: l2).
Proof.
  intros Hd H1 H2 Hk Hag.
  apply descending_app in Hd as (Hd1 & Hd2 & H12).
  rewrite Forall_forall in H1, H2.
  apply descending_app. split_and!.
  - apply (descending_agree h); [|done]. intros; apply Hag; set_solver.
  - simpl. split.
    + apply Forall_forall. intros y Hy. rewrite Hk, Hag by set_solver. auto.
    + apply (descending_agree h); [|done]. intros; apply Hag; set_solver.
  - intros x y Hx [->|Hy]%elem_of_cons.
    + rewrite Hk, Hag by set_solver. auto.
    + rewrite !Hag by set_solver. auto.
Qed.

Lemma descendingb_sound h l : descendingb h l = true -> descending h l.
Proof.
  induction l as [|x l IH]; simpl; [done|].
  intros [H1 H2]%andb_true_iff. split; [|by apply IH].
  rewrite forallb_forall in H1. apply Forall_forall. intros y Hy.
  apply Z.ltb_lt, H1. by apply list_elem_of_In.
Qed.

Lemma keys_okb_sound h k l : keys_okb h k l = true -> keys_ok h k l.
Proof.
  intros [H1 H2]%andb_true_iff. split; [by apply descendingb_sound|].
  rewrite forallb_forall in H2. apply Forall_forall. intros x Hx.
  specialize (H2 x (proj1 (list_elem_of_In _ _) Hx)).
  apply andb_true_iff in H2 as [?%Z.leb_le ?%Z.leb_le]. done.
Qed.

Lemma key_of_data h h' x :
  data <$> h' !! x = data <$> h !! x -> key_of h' x = key_of h x.
Proof.
  unfold key_of. destruct (h' !! x), (h !! x); simpl; congruence.
Qed.

Lemma elem_of_map {A B} (f : A -> B) (l : list A) (z : B) :
  z ∈ map f l <-> exists y, z = f y /\ y ∈ l.
Proof.
  rewrite list_elem_of_In, in_map_iff. split.
  - intros (y & <- & Hy). exists y. by rewrite list_elem_of_In.
  - intros (y & -> & Hy). exists y. by rewrite <- list_elem_of_In.
Qed.

(** ** The keys around the descent of [jsw_rberase] *)

Lemma era_keys_step h0 k ctx c l x r FQ ctx' f :
  let tq := T c l x r in
  let d := cmp_at h0 k x <? 0 in
  wf (plug ctx tq) -> is_Some (h0 !! x) ->
  keys_ok h0 k (locs (plug ctx tq)) ->
  locs (plug (FQ :: ctx') (child tq d)) = locs (plug ctx tq) ->
  fx FQ = x -> fd FQ = d ->
  era_keys h0 k ctx f ->
  era_keys h0 k (FQ :: ctx') (if cmp_at h0 k x =? 0 then Some x else f).
Proof.
  intros tq d Hwf Hsome Hok Hl Hx Hd (H1 & H2 & H3).
  pose proof (ahead_step ctx c l x r FQ ctx' d Hwf Hl Hx Hd) as Hstep.
  unfold era_keys. rewrite !Hstep.
  pose proof (walk_plug true ctx tq) as Hw. cbn [walk negb] in Hw.
  rewrite Hw in Hok. subst tq. cbn [locs] in Hok.
  destruct Hok as [Hdesc Hnw].
  rewrite !Forall_app, Forall_cons in Hnw.
  destruct Hnw as (_ & (_ & Hnx & _) & _).
  apply descending_app in Hdesc as (_ & Hdesc & _).
  apply descending_app in Hdesc as (Hdq & Hd2 & Hq2).
  apply descending_app in Hdq as (_ & Hdxr & Hlx).
  cbn [descending] in Hdxr. destruct Hdxr as [Hxr _].
  rewrite Forall_forall in Hxr.
  pose proof (cmp_exact h0 k x Hsome Hnx) as Hcmp.
  assert (bool_decide (true = true) = true) as Ett by done.
  assert (bool_decide (false = false) = true) as Eff by done.
  assert (bool_decide (true = false) = false) as Etf by done.
  assert (bool_decide (false = true) = false) as Eft by done.
  cbn [ahead fd fx fsib child negb]. fold d.
  destruct (Z.ltb_spec (cmp_at h0 k x) 0) as [Hlt|Hge]; subst d;
    cbn [negb]; rewrite ?Ett, ?Eff, ?Etf, ?Eft; cbn [app walk].
  - (* towards link[1]: [x] and its link[0] side hold larger keys *)
    split_and!; [|done|].
    + rewrite Forall_cons, Forall_app. split_and!; [lia| |done].
      apply Forall_forall. intros y Hy. rewrite elem_of_rev in Hy.
      specialize (Hlx y x Hy ltac:(set_solver)). lia.
    + destruct (Z.eqb_spec (cmp_at h0 k x) 0); [lia | done].
  - (* towards link[0]: [x] and its link[1] side hold keys up to [k] *)
    split_and!; [done| |].
    + rewrite Forall_cons, Forall_app. split_and!; [lia| |done].
      apply Forall_forall. intros y Hy. specialize (Hxr y Hy). lia.
    + intros fl. cbn [head]. destruct (Z.eqb_spec (cmp_at h0 k x) 0) as [Hc|Hc].
      * split; [intros [= <-]; split; [done | lia] | by intros [[= <-] _]].
      * split; [|intros [[= <-] ?]; lia].
        intros Hf. apply H3 in Hf as [Hhd Hk].
        assert (fl ∈ ahead true ctx) as Hin.
        { destruct (ahead true ctx); [done|]. injection Hhd as ->. by left. }
        specialize (Hq2 x fl ltac:(set_solver) Hin). lia.
Qed.

Lemma keys_ok_agree h h' k l :
  (forall x, x ∈ l -> key_of h' x = key_of h x) ->
  keys_ok h k l -> keys_ok h' k l.
Proof.
  intros Hag [Hd Hnw]. split; [by apply (descending_agree h)|].
  rewrite Forall_forall in *. intros x Hx. rewrite Hag by done. by apply Hnw.
Qed.

(** The descent ended without [f]: no node holds [k]. *)
Lemma era_keys_none h0 k ctx :
  keys_ok h0 k (rev (ahead false ctx) ++ ahead true ctx) ->
  era_keys h0 k ctx None ->
  Forall (fun y => key_of h0 y <> k) (rev (ahead false ctx) ++ ahead true ctx).
Proof.
  intros [Hdesc _] (H1 & H2 & H3).
  apply descending_app in Hdesc as (_ & Hd2 & _).
  apply Forall_app. split.
  - apply Forall_forall. intros y Hy. rewrite elem_of_rev in Hy.
    rewrite Forall_forall in H1. specialize (H1 y Hy). lia.
  - destruct (ahead true ctx) as [|b B]; [done|].
    apply Forall_cons in H2 as [Hb _]. simpl in Hd2. destruct Hd2 as [HB _].
    assert (key_of h0 b <> k) as Hne.
    { intros Hk. pose proof (proj2 (H3 b) (conj eq_refl Hk)). discriminate. }
    apply Forall_cons. split; [done|].
    rewrite Forall_forall in HB. apply Forall_forall. intros y Hy.
    specialize (HB y Hy). lia.
Qed.

(** The descent ended with [f]: once [f] has taken over the key of the last
    node [q] of the path and [q] is out, the keys are in order and [k] is
    gone. *)
Lemma era_keys_found h0 h' k F rest fl :
  fsib F = Leaf ->
  keys_ok h0 k (locs (plug (F :: rest) Leaf)) ->
  era_keys h0 k (F :: rest) (Some fl) ->
  key_of h' fl = key_of h0 (fx F) ->
  (forall x, x ∈ locs (plug rest Leaf) -> x <> fl ->
             key_of h' x = key_of h0 x) ->
  descending h' (locs (plug rest Leaf)) /\
  forall z, z ∈ map (key_of h') (locs (plug rest Leaf)) <->
            z <> k /\ z ∈ map (key_of h0) (locs (plug (F :: rest) Leaf)).
Proof.
  intros HS [Hdesc _] (_ & _ & H3) Hfl Hsame.
  destruct (proj1 (H3 fl) eq_refl) as [Hhd Hk]. clear H3.
  pose proof (walk_plug true (F :: rest) Leaf) as Hw1.
  pose proof (walk_plug true rest Leaf) as Hw2.
  cbn [walk negb locs app] in Hw1, Hw2. rewrite Hw1 in *. rewrite Hw2 in *.
  clear Hw1 Hw2. cbn [ahead] in *. rewrite HS in *. cbn [walk locs rev] in *.
  assert (bool_decide (true = true) = true) as Ett by done.
  assert (bool_decide (false = false) = true) as Eff by done.
  assert (bool_decide (true = false) = false) as Etf by done.
  assert (bool_decide (false = true) = false) as Eft by done.
  set (A := rev (ahead false rest)) in *. set (B := ahead true rest) in *.
  destruct (fd F); rewrite ?Ett, ?Eff, ?Etf, ?Eft in *; cbn [app] in *.
  - (* [q] comes right before [f] *)
    cbn [rev] in Hdesc |- *. fold A in Hdesc |- *.
    destruct B as [|b B']; [done|]. injection Hhd as ->.
    rewrite <- app_assoc in Hdesc |- *. cbn [app] in Hdesc |- *.
    pose proof (descending_NoDup _ _ Hdesc) as Hnd.
    apply descending_app in Hdesc as (HdA & HdB & HAB).
    cbn [descending] in HdB. destruct HdB as (Hq & Hf & HdB').
    apply Forall_cons in Hq as [Hqf Hq]. rewrite Forall_forall in Hq, Hf.
    apply NoDup_app in Hnd as (_ & HndA & Hnd).
    apply NoDup_cons in Hnd as [_ Hnd]. apply NoDup_cons in Hnd as [HflB _].
    assert (forall x, x ∈ A -> key_of h' x = key_of h0 x) as HsA.
    { intros x Hx. apply Hsame; [set_solver|]. intros ->.
      apply (HndA fl Hx). set_solver. }
    assert (forall x, x ∈ B' -> key_of h' x = key_of h0 x) as HsB.
    { intros x Hx. apply Hsame; [set_solver|]. by intros ->. }
    split.
    + apply descending_app. split_and!.
      * by apply (descending_agree h0).
      * cbn [descending]. split; [|by apply (descending_agree h0)].
        apply Forall_forall. intros y Hy. rewrite Hfl, (HsB y Hy). auto.
      * intros x y Hx [->|Hy]%elem_of_cons.
        -- rewrite Hfl, (HsA x Hx). apply HAB; [done | by left].
        -- rewrite (HsA x Hx), (HsB y Hy). apply HAB; [done | set_solver].
    + intros z. rewrite !map_app. cbn [map]. rewrite Hfl.
      rewrite !elem_of_app, !elem_of_cons, !elem_of_map.
      split.
      * intros [(y & -> & Hy)|[->|(y & -> & Hy)]].
        -- rewrite (HsA y Hy). specialize (HAB y fl Hy ltac:(set_solver)).
           split; [lia|]. left. eauto.
        -- split; [lia|]. right. by left.
        -- rewrite (HsB y Hy). specialize (Hf y Hy).
           split; [lia|]. do 3 right. eauto.
      * intros [Hz [(y & -> & Hy)|[->|[->|(y & -> & Hy)]]]].
        -- left. exists y. by rewrite (HsA y Hy).
        -- right. by left.
        -- done.
        -- do 2 right. exists y. by rewrite (HsB y Hy).
  - (* [q] is [f] itself *)
    cbn [head] in Hhd. injection Hhd as <-. fold A B in Hdesc |- *.
    pose proof (descending_NoDup _ _ Hdesc) as Hnd.
    apply descending_app in Hdesc as (HdA & HdB & HAB).
    cbn [descending] in HdB. destruct HdB as (Hq & HdB').
    rewrite Forall_forall in Hq.
    apply NoDup_app in Hnd as (_ & HndA & Hnd).
    apply NoDup_cons in Hnd as [HqB _].
    assert (forall x, x ∈ A -> key_of h' x = key_of h0 x) as HsA.
    { intros x Hx. apply Hsame; [set_solver|]. intros ->.
      apply (HndA (fx F) Hx). set_solver. }
    assert (forall x, x ∈ B -> key_of h' x = key_of h0 x) as HsB.
    { intros x Hx. apply Hsame; [set_solver|]. by intros ->. }
    split.
    + apply descending_app. split_and!.
      * by apply (descending_agree h0).
      * by apply (descending_agree h0).
      * intros x y Hx Hy. rewrite (HsA x Hx), (HsB y Hy).
        apply HAB; [done | set_solver].
    + intros z. rewrite !map_app. cbn [map].
      rewrite !elem_of_app, !elem_of_cons, !elem_of_map.
      split.
      * intros [(y & -> & Hy)|(y & -> & Hy)].
        -- rewrite (HsA y Hy). specialize (HAB y (fx F) Hy ltac:(set_solver)).
           split; [lia|]. left. eauto.
        -- rewrite (HsB y Hy). specialize (Hq y Hy).
           split; [lia|]. do 2 right. eauto.
      * intros [Hz [(y & -> & Hy)|[->|(y & -> & Hy)]]].
        -- left. exists y. by rewrite (HsA y Hy).
        -- done.
        -- right. exists y. by rewrite (HsB y Hy).
Qed.

(** ** Soundness of the executable checks *)

Lemma reprb_sound h t : reprb h t = true -> repr h t.
Proof.
  induction t as [|c l IHl x r IHr]; simpl; [done|].
  destruct (h !! x) as [n|]; [|done].
  rewrite !andb_true_iff, !bool_decide_eq_true.
  intros ((((? & ?) & ?) & ?) & ?). split_and!; eauto.
Qed.

Lemma holdsb_sound s t : holdsb s t = true -> holds s t.
Proof.
  unfold holdsb, holds.
  rewrite !andb_true_iff, !bool_decide_eq_true.
  intros (((? & ?) & ?) & Hh). split_and!; try done.
  - by apply reprb_sound.
  - by apply NoDup_locs.
  - by rewrite <- elem_of_locs.
Qed.

Lemma balancedb_sound t : balancedb t = true -> balanced t.
Proof.
  induction t as [|c l IHl x r IHr]; simpl; [done|].
  rewrite !andb_true_iff, !bool_decide_eq_true. naive_solver.
Qed.

Lemma no_red_redb_sound t : no_red_redb t = true -> no_red_red t.
Proof.
  induction t as [|c l IHl x r IHr]; simpl; [done|].
  rewrite !andb_true_iff, orb_true_iff, andb_true_iff, !negb_true_iff.
  intros (([?|[? ?]] & ?) & ?); split_and!; auto; intros ->; done.
Qed.

Lemma rb_invb_sound t : rb_invb t = true -> rb_inv t.
Proof.
  unfold rb_invb, rb_inv. rewrite !andb_true_iff, negb_true_iff.
  intros ((? & ?) & ?). split_and!; [done | by apply no_red_redb_sound | by apply balancedb_sound].
Qed.

(** ** Fuelled runs *)

Lemma runs_bind {S A B} (c : M S A) (k : A -> M S B) s bound fuel
    (Q : A -> S -> Prop) (Q' : B -> S -> Prop) :
  runs (c s) bound fuel Q ->
  (forall a s', Q a s' -> runs (k a s') bound fuel Q') ->
  runs (bind c k s) bound fuel Q'.
Proof. unfold runs, bind. intros H1 H2. destruct (c s); [by apply H2 | exact H1]. Qed.

Lemma runs_weaken {S A} (r : res S A) bound bound' fuel fuel'
    (Q Q' : A -> S -> Prop) :
  runs r bound fuel Q -> ((fuel <= bound)%nat -> (fuel' <= bound')%nat) ->
  (forall a s, Q a s -> Q' a s) -> runs r bound' fuel' Q'.
Proof. unfold runs. destruct r; [auto|]. intros [-> ?] ? _. split; [done | auto]. Qed.

Lemma runs_ok {S A} (r : res S A) bound fuel (Q : A -> S -> Prop) :
  runs r bound fuel Q -> (bound < fuel)%nat -> exists a s, r = Ok a s /\ Q a s.
Proof. unfold runs. destruct r; [eauto|]. intros [_ ?] ?. lia. Qed.

(** ** The cursor *)

Section cursor.
Context (s : store).

Lemma node_link_ok (tr : jsw_rbtrav) l n d :
  heap s !! l = Some n -> node_link s l d tr = Ok (link n d) tr.
Proof. unfold node_link. by intros ->. Qed.

Lemma push_it_cur ctx tq tr c x d sib :
  cur ctx tq tr -> (length ctx < HEIGHT_LIMIT)%nat -> rootp tq = Some x ->
  exists tr', push_it tr = Ok tt tr' /\
    it tr' = it tr /\
    forall tq', cur ({| fc := c; fx := x; fd := d; fsib := sib |} :: ctx) tq'
                    {| trav_tree := trav_tree tr'; it := rootp tq';
                       path := path tr'; top := top tr' |}.
Proof.
  intros (Hit & Htop & Hpath & Hlen) Hlt Hx.
  unfold push_it, bind, get_top, get_it, set_top, set_path. simpl.
  destruct (Nat.ltb_spec (top tr) HEIGHT_LIMIT) as [_|?]; [|lia].
  eexists. split; [done|]. simpl. split; [done|].
  intros tq'. unfold cur. simpl. split_and!; [done | lia | | by rewrite length_insert].
  rewrite map_app. simpl. rewrite Htop.
  rewrite (take_S_r _ _ (Some x)).
  - rewrite take_insert_ge by lia. by rewrite Hpath.
  - rewrite Hit, Hx. apply list_lookup_insert_eq. lia.
Qed.

Lemma descend_spec d : forall fuel ctx tq tr,
  repr (heap s) tq -> tq <> Leaf -> cur ctx tq tr ->
  (length ctx + height tq <= S HEIGHT_LIMIT)%nat ->
  runs (descend fuel s d tr) (height tq) fuel (fun _ tr' =>
    exists ctx' tq', cur ctx' tq' tr' /\ plug ctx' tq' = plug ctx tq /\
                     tq' <> Leaf /\ child tq' d = Leaf).
Proof.
  induction fuel as [|fuel IH]; intros ctx tq tr Hr Hne Hcur Hh.
  { simpl. split; [done | lia]. }
  destruct tq as [|c l x r]; [done|]. clear Hne.
  rewrite (mk_child d) in Hr. apply repr_mk in Hr as ((n & Hn & Hc & Hl1 & Hl2) & Hr1 & Hr2).
  pose proof Hcur as (Hit & Htop & Hpath & Hlen).
  destruct (child (T c l x r) d) as [|c' l' x' r'] eqn:Hch.
  - cbn [descend]. unfold bind, get_it, deref, ret, node_link.
    rewrite Hit. cbn. rewrite Hn, Hl1. cbn.
    exists ctx, (T c l x r). by rewrite Hch.
  - assert (height (T c' l' x' r') < height (T c l x r))%nat as Hlt'.
    { rewrite <- Hch. destruct d; simpl; lia. }
    assert (length ctx < HEIGHT_LIMIT)%nat as Hlt by (simpl in *; lia).
    destruct (push_it_cur ctx (T c l x r) tr c x d (child (T c l x r) (negb d)) Hcur Hlt eq_refl)
      as (tr' & Hpush & Hit' & Hcur').
    specialize (Hcur' (T c' l' x' r')).
    match type of Hcur' with cur _ _ ?t => set (tr1 := t) in * end.
    assert (descend (S fuel) s d tr = descend fuel s d tr1) as ->.
    { cbn [descend]. unfold bind at 1 2 3. unfold get_it at 1, deref at 1, ret at 1, node_link at 1.
      rewrite Hit. cbn [rootp]. rewrite Hn, Hl1. cbn [rootp].
      unfold bind at 1. rewrite Hpush.
      unfold bind, get_it, deref, ret, node_link, set_it.
      rewrite Hit', Hit. cbn [rootp]. rewrite Hn, Hl1. done. }
    eapply runs_weaken; [apply (IH _ _ _ Hr1 ltac:(done) Hcur')| |].
    + simpl length. lia.
    + lia.
    + intros _ tr2 (ctx2 & tq2 & Hc2 & Hp2 & Hne2 & Hch2).
      exists ctx2, tq2. split_and!; try done.
      rewrite Hp2. simpl. unfold plug1. simpl. rewrite <- Hch. by rewrite <- mk_child.
Qed.

Lemma cur_done_or ctx tq tr :
  cur ctx tq tr -> length (path tr) = HEIGHT_LIMIT.
Proof. by intros (_ & _ & _ & ?). Qed.

Lemma ascend_spec d : forall fuel ctx tq tr,
  repr (heap s) (plug ctx tq) -> wf (plug ctx tq) -> tq <> Leaf -> cur ctx tq tr ->
  (length ctx <= HEIGHT_LIMIT)%nat ->
  runs (ascend fuel s d tr) (length ctx) fuel (fun _ tr' =>
    cursor_done tr' \/
    exists ctx' tq', cur ctx' tq' tr' /\ plug ctx' tq' = plug ctx tq /\ tq' <> Leaf).
Proof.
  induction fuel as [|fuel IH]; intros ctx tq tr Hr Hwf Hne Hcur Hh.
  { simpl. split; [done | lia]. }
  pose proof Hcur as (Hit & Htop & Hpath & Hlen).
  destruct ctx as [|F ctx].
  { cbn [ascend]. unfold bind, get_top, set_it. rewrite Htop. cbn. left. split_and!; done. }
  simpl in Hh.
  assert (path tr !! length ctx = Some (Some (fx F))) as Hlk.
  { rewrite <- (lookup_take_lt (path tr) (length (F :: ctx)) (length ctx)) by (simpl; lia).
    rewrite Hpath. simpl. rewrite map_app. simpl.
    rewrite lookup_app_r by (rewrite length_map, length_rev; lia).
    rewrite length_map, length_rev, Nat.sub_diag. done. }
  simpl in Hr, Hwf.
  pose proof (repr_plug_sub _ _ _ Hr) as Hr1.
  pose proof (wf_plug_sub _ _ Hwf) as Hwf1.
  unfold plug1 in Hr1, Hwf1.
  apply repr_mk in Hr1 as ((n & Hn & Hc & Hl1 & Hl2) & Hrq & Hrs).
  apply wf_mk in Hwf1 as (Hx1 & Hx2 & Hd & Hwq & Hws).
  set (tr1 := {| trav_tree := trav_tree tr; it := Some (fx F); path := path tr;
                 top := length ctx |}).
  assert (cur ctx (plug1 F tq) tr1) as Hcur1.
  { unfold cur, tr1. simpl. unfold plug1. rewrite rootp_mk. split_and!; try done.
    simpl in Hpath. rewrite map_app in Hpath. simpl in Hpath.
    replace (take (length ctx) (path tr))
      with (take (length ctx) (take (S (length ctx)) (path tr)))
      by (rewrite take_take; f_equal; lia).
    rewrite Hpath. rewrite take_app_length'; [done|]. by rewrite length_map, length_rev. }
  assert (plug1 F tq <> Leaf) as Hne1 by (unfold plug1, mk; by destruct (fd F)).
  assert (ascend (S fuel) s d tr =
          if bool_decide (it tr = link n d) then ascend fuel s d tr1 else Ok tt tr1) as ->.
  { cbn [ascend]. unfold bind, get_top, get_it, set_top, get_path, set_it, deref, ret, node_link.
    rewrite Htop. cbn [top path it trav_tree length].
    rewrite (proj2 (Nat.ltb_lt _ _)) by lia.
    rewrite Hlk. cbn [top path it trav_tree]. rewrite Hn. by case_bool_decide. }
  case_bool_decide as Heq.
  - eapply runs_weaken; [apply (IH ctx (plug1 F tq) tr1); try done; lia | simpl; lia |].
    intros _ tr2 [Hd2 | (ctx2 & tq2 & ?)]; [by left|]. right. eauto.
  - simpl. right. exists ctx, (plug1 F tq). done.
Qed.

Lemma cur_top ctx tq tr t :
  cur ctx tq tr -> t = plug ctx tq -> tq <> Leaf -> (top tr < height t)%nat.
Proof.
  intros (_ & -> & _) -> Hne. pose proof (height_plug ctx tq).
  destruct tq; [done|]. simpl in *. lia.
Qed.

Lemma start_spec d fuel t tr :
  holds s t -> (height t <= S HEIGHT_LIMIT)%nat -> length (path tr) = HEIGHT_LIMIT ->
  runs (start fuel s d tr) (height t) fuel (fun p tr' =>
    it tr' = p /\ (cursor_done tr' \/ cursor_at t tr')).
Proof.
  intros (Hroot & Hr & Hwf & Hh) Hht Hlen.
  set (tr1 := {| trav_tree := root s; it := root s; path := path tr; top := O |}).
  assert (start fuel s d tr =
    bind (match root s with Some _ => descend fuel s d | None => ret tt end)
         (fun _ => bind get_it (fun i => ret (match i with None => None | Some l => Some l end)))
         tr1) as ->.
  { unfold start, bind, set_tree, set_it, set_top, get_it. done. }
  destruct t as [|c l x r].
  - simpl in Hroot. subst tr1. rewrite Hroot. cbn. split; [done|]. left. done.
  - simpl in Hroot. subst tr1. rewrite Hroot.
    eapply runs_bind.
    + by apply (descend_spec d fuel [] (T c l x r)).
    + intros _ tr' (ctx' & tq' & Hc & Hp & Hne & _). unfold bind, get_it, ret. simpl.
      split; [by destruct (it tr')|]. right. exists ctx', tq'. done.
Qed.

Lemma move_spec d fuel t tr :
  holds s t -> (height t <= S HEIGHT_LIMIT)%nat -> cursor_at t tr ->
  runs (move fuel s d tr) (height t) fuel (fun p tr' =>
    it tr' = p /\ (cursor_done tr' \/ cursor_at t tr')).
Proof.
  intros (Hroot & Hr & Hwf & Hh) Hht (ctx & tq & -> & Hne & Hcur).
  pose proof Hcur as (Hit & Htop & Hpath & Hlen).
  pose proof (height_plug ctx tq) as Hhp.
  destruct tq as [|c l x r]; [done|].
  pose proof (repr_plug_sub _ _ _ Hr) as Hrq.
  rewrite (mk_child d) in Hrq.
  apply repr_mk in Hrq as ((n & Hn & Hc & Hl1 & Hl2) & Hr1 & Hr2).
  assert (forall (k : M jsw_rbtrav unit) tr0,
    runs (k tr0) (height (plug ctx (T c l x r))) fuel (fun _ tr' =>
      cursor_done tr' \/ cursor_at (plug ctx (T c l x r)) tr') ->
    runs (bind k (fun _ => bind get_it
           (fun i => ret (match i with None => None | Some l => Some l end))) tr0)
      (height (plug ctx (T c l x r))) fuel (fun p tr' =>
        it tr' = p /\ (cursor_done tr' \/ cursor_at (plug ctx (T c l x r)) tr'))) as Hfin.
  { intros k tr0 Hk. eapply runs_bind; [apply Hk|].
    intros [] tr' H'. unfold bind, get_it, ret. simpl. split; [by destruct (it tr')|done]. }
  destruct (child (T c l x r) d) as [|c' l' x' r'] eqn:Hch.
  - assert (move fuel s d tr =
      bind (ascend fuel s d) (fun _ => bind get_it
           (fun i => ret (match i with None => None | Some l => Some l end))) tr) as ->.
    { unfold move. unfold bind at 1 2 3. unfold get_it at 1, deref at 1, ret at 1, node_link at 1.
      rewrite Hit. cbn [rootp]. rewrite Hn, Hl1. done. }
    apply Hfin.
    eapply runs_weaken; [apply (ascend_spec d fuel ctx (T c l x r) tr); try done| |].
    + simpl in *. lia.
    + simpl in *. lia.
    + intros _ tr' [?|(ctx' & tq' & ? & ? & ?)]; [by left|]. right.
      exists ctx', tq'. done.
  - assert (height (T c' l' x' r') < height (T c l x r))%nat as Hlt'.
    { rewrite <- Hch. destruct d; simpl; lia. }
    assert (length ctx < HEIGHT_LIMIT)%nat as Hlt by (simpl in *; lia).
    destruct (push_it_cur ctx (T c l x r) tr c x d (child (T c l x r) (negb d)) Hcur Hlt eq_refl)
      as (tr' & Hpush & Hit' & Hcur').
    specialize (Hcur' (T c' l' x' r')).
    match type of Hcur' with cur _ _ ?t => set (tr1 := t) in * end.
    assert (move fuel s d tr =
      bind (descend fuel s (negb d)) (fun _ => bind get_it
           (fun i => ret (match i with None => None | Some l => Some l end))) tr1) as ->.
    { unfold move. unfold bind at 1 2 3. unfold get_it at 1, deref at 1, ret at 1, node_link at 1.
      rewrite Hit. cbn [rootp]. rewrite Hn, Hl1. cbn [rootp].
      unfold bind at 1. unfold bind at 1. rewrite Hpush.
      unfold bind, get_it, deref, ret, node_link, set_it.
      rewrite Hit', Hit. cbn [rootp]. rewrite Hn, Hl1. done. }
    apply Hfin.
    eapply runs_weaken; [apply (descend_spec (negb d) fuel _ _ _ Hr1 ltac:(done) Hcur')| |].
    + simpl length. simpl in *. lia.
    + simpl in *. lia.
    + intros _ tr2 (ctx2 & tq2 & Hc2 & Hp2 & Hne2 & Hch2). right.
      exists ctx2, tq2. split_and!; try done.
      rewrite Hp2. simpl. unfold plug1. simpl. rewrite <- Hch. by rewrite <- mk_child.
Qed.

Lemma move_null d fuel tr : it tr = None -> move fuel s d tr = Err NullDeref.
Proof. intros H. unfold move, bind, get_it, deref. by rewrite H. Qed.

End cursor.

(** ** Height of red-black trees *)

Lemma rb_height t :
  no_red_red t -> balanced t ->
  (height t <= 2 * bh t + (if is_red_t t then 1 else 0))%nat.
Proof.
  induction t as [|c l IHl x r IHr]; simpl; [lia|].
  intros (Hc & Hnl & Hnr) (Hbh & Hbl & Hbr).
  specialize (IHl Hnl Hbl). specialize (IHr Hnr Hbr).
  destruct c.
  - destruct (Hc eq_refl) as [H1 H2]. rewrite H1 in IHl. rewrite H2 in IHr. lia.
  - destruct (is_red_t l), (is_red_t r); lia.
Qed.

Lemma rb_size t : balanced t -> (2 ^ bh t <= size t + 1)%nat.
Proof.
  induction t as [|c l IHl x r IHr]; simpl; [lia|].
  intros (Hbh & Hbl & Hbr). specialize (IHl Hbl). specialize (IHr Hbr).
  rewrite <- Hbh in IHr. destruct c; simpl; lia.
Qed.

(** A red-black tree with fewer than [2^32 - 1] nodes is at most 62 high. *)
Lemma rb_height_limit t :
  rb_inv t -> (size t + 1 < 2 ^ 32)%nat -> (height t <= HEIGHT_LIMIT)%nat.
Proof.
  intros (Hb & Hn & Hbal) Hsz.
  pose proof (rb_height t Hn Hbal) as Hh. rewrite Hb in Hh.
  pose proof (rb_size t Hbal) as Hs.
  assert (bh t < 32)%nat as Hlt.
  { destruct (Nat.lt_ge_cases (bh t) 32) as [?|Hge]; [done|].
    pose proof (Nat.pow_le_mono_r 2 32 (bh t) ltac:(lia) Hge). lia. }
  unfold HEIGHT_LIMIT. lia.
Qed.

(** ** The order of the traversal *)

Section order.
Context (s : store).

Lemma descend_to d : forall fuel ctx tq tr,
  repr (heap s) tq -> tq <> Leaf -> cur ctx tq tr ->
  (length ctx + height tq <= S HEIGHT_LIMIT)%nat ->
  runs (descend fuel s d tr) (height tq) fuel (fun _ tr' =>
    exists fs tq', cur (fs ++ ctx) tq' tr' /\ plug fs tq' = tq /\
                   tq' <> Leaf /\ child tq' d = Leaf /\
                   Forall (fun F => fd F = d) fs).
Proof.
  induction fuel as [|fuel IH]; intros ctx tq tr Hr Hne Hcur Hh.
  { simpl. split; [done | lia]. }
  destruct tq as [|c l x r]; [done|]. clear Hne.
  rewrite (mk_child d) in Hr. apply repr_mk in Hr as ((n & Hn & Hc & Hl1 & Hl2) & Hr1 & Hr2).
  pose proof Hcur as (Hit & Htop & Hpath & Hlen).
  destruct (child (T c l x r) d) as [|c' l' x' r'] eqn:Hch.
  - cbn [descend]. unfold bind, get_it, deref, ret, node_link.
    rewrite Hit. cbn. rewrite Hn, Hl1. cbn.
    exists [], (T c l x r). by rewrite Hch.
  - assert (height (T c' l' x' r') < height (T c l x r))%nat as Hlt'.
    { rewrite <- Hch. destruct d; simpl; lia. }
    assert (length ctx < HEIGHT_LIMIT)%nat as Hlt by (simpl in *; lia).
    destruct (push_it_cur ctx (T c l x r) tr c x d (child (T c l x r) (negb d)) Hcur Hlt eq_refl)
      as (tr' & Hpush & Hit' & Hcur').
    specialize (Hcur' (T c' l' x' r')).
    match type of Hcur' with cur _ _ ?t => set (tr1 := t) in * end.
    assert (descend (S fuel) s d tr = descend fuel s d tr1) as ->.
    { cbn [descend]. unfold bind at 1 2 3. unfold get_it at 1, deref at 1, ret at 1, node_link at 1.
      rewrite Hit. cbn [rootp]. rewrite Hn, Hl1. cbn [rootp].
      unfold bind at 1. rewrite Hpush.
      unfold bind, get_it, deref, ret, node_link, set_it.
      rewrite Hit', Hit. cbn [rootp]. rewrite Hn, Hl1. done. }
    eapply runs_weaken; [apply (IH _ _ _ Hr1 ltac:(done) Hcur')| |].
    + simpl length. lia.
    + lia.
    + intros _ tr2 (fs & tq2 & Hc2 & Hp2 & Hne2 & Hch2 & Hfs).
      exists (fs ++ [{| fc := c; fx := x; fd := d;
                        fsib := child (T c l x r) (negb d) |}]), tq2.
      split_and!; try done.
      * by rewrite <- app_assoc.
      * rewrite plug_app, Hp2. simpl. unfold plug1. simpl.
        rewrite <- Hch. by rewrite <- mk_child.
      * apply Forall_app. split; [done|]. by constructor.
Qed.


Lemma walk_edge d tq :
  tq <> Leaf -> child tq d = Leaf ->
  head (walk (negb d) tq) = rootp tq.
Proof.
  destruct tq as [|c l x r]; [done|]. intros _ Hch.
  rewrite (mk_child d), walk_mk_negb, Hch. by destruct d.
Qed.

Lemma walk_edge_plug d fs tq :
  tq <> Leaf -> child tq d = Leaf -> Forall (fun F => fd F = d) fs ->
  head (walk (negb d) (plug fs tq)) = rootp tq.
Proof.
  intros Hne Hch Hfs. rewrite walk_plug, negb_involutive, (ahead_same d fs Hfs).
  simpl. pose proof (walk_edge d tq Hne Hch) as H.
  destruct tq as [|c l x r]; [done|].
  destruct (walk (negb d) (T c l x r)); [done|]. done.
Qed.

Lemma start_to d fuel t tr :
  holds s t -> (height t <= S HEIGHT_LIMIT)%nat -> length (path tr) = HEIGHT_LIMIT ->
  runs (start fuel s d tr) (height t) fuel (fun p tr' =>
    p = head (walk (negb d) t) /\ it tr' = p /\
    (cursor_done tr' \/ cursor_at t tr')).
Proof.
  intros (Hroot & Hr & Hwf & Hh) Hht Hlen.
  set (tr1 := {| trav_tree := root s; it := root s; path := path tr; top := O |}).
  assert (start fuel s d tr =
    bind (match root s with Some _ => descend fuel s d | None => ret tt end)
         (fun _ => bind get_it (fun i => ret (match i with None => None | Some l => Some l end)))
         tr1) as ->.
  { unfold start, bind, set_tree, set_it, set_top, get_it. done. }
  destruct t as [|c l x r].
  - simpl in Hroot. subst tr1. rewrite Hroot. cbn. split_and!; [by destruct d | done |].
    left. done.
  - simpl in Hroot. subst tr1. rewrite Hroot.
    eapply runs_bind.
    + by apply (descend_to d fuel [] (T c l x r)).
    + intros _ tr' (fs & tq' & Hc & Hp & Hne & Hch & Hfs).
      unfold bind, get_it, ret. simpl.
      rewrite app_nil_r in Hc. pose proof Hc as (Hit & _).
      rewrite <- Hp, (walk_edge_plug d fs tq' Hne Hch Hfs), Hit.
      split_and!; [by destruct (rootp tq') | by destruct (rootp tq') |].
      right. exists fs, tq'. done.
Qed.


End order.

(** ** Heaps that differ on a few nodes *)

Lemma same_outside_refl D h : same_outside D h h.
Proof. by intros x _. Qed.

Lemma same_outside_trans D h1 h2 h3 :
  same_outside D h1 h2 -> same_outside D h2 h3 -> same_outside D h1 h3.
Proof. intros H1 H2 x Hx. rewrite H2, H1; done. Qed.

Lemma same_outside_mono D D' h h' :
  D ⊆ D' -> same_outside D h h' -> same_outside D' h h'.
Proof. intros Hsub H x Hx. apply H. set_solver. Qed.

Lemma same_outside_insert D h h' x n :
  x ∈ D -> same_outside D h h' -> same_outside D h (<[x := n]> h').
Proof.
  intros Hx H y Hy. rewrite lookup_insert_ne by (intros ->; done). by apply H.
Qed.

Lemma same_data_refl h : same_data h h.
Proof. by intros x. Qed.

Lemma same_data_trans h1 h2 h3 :
  same_data h1 h2 -> same_data h2 h3 -> same_data h1 h3.
Proof. intros H1 H2 x. rewrite H2, H1; done. Qed.

Lemma same_data_insert h h' x n n' :
  h' !! x = Some n -> data n' = data n -> same_data h h' ->
  same_data h (<[x := n']> h').
Proof.
  intros Hx Hd H y. destruct (decide (x = y)) as [<-|Hne].
  - rewrite lookup_insert_eq. rewrite <- H, Hx. simpl. by rewrite Hd.
  - rewrite lookup_insert_ne by done. apply H.
Qed.

Lemma same_data_lookup h h' x n :
  same_data h h' -> h !! x = Some n -> exists n', h' !! x = Some n' /\ data n' = data n.
Proof.
  intros H Hx. specialize (H x). rewrite Hx in H.
  destruct (h' !! x) as [n'|]; simplify_eq/=. eauto.
Qed.

Lemma cmp_at_same_data h h' k x : same_data h h' -> cmp_at h' k x = cmp_at h k x.
Proof.
  intros H. unfold cmp_at. specialize (H x).
  destruct (h !! x), (h' !! x); simplify_eq/=; congruence.
Qed.

Lemma repr_same_outside D h h' t :
  same_outside D h h' -> slocs t ## D -> repr h t -> repr h' t.
Proof. intros H Hd. apply repr_agree. intros x Hx. apply H. set_solver. Qed.

(** ** Symbolic runs of store computations *)

Ltac munfold :=
  unfold jsw_double, jsw_single, new_node, node_cmp, is_red, get_red,
    get_link, get_data, set_red, set_link, set_data, load, modify, get_root,
    set_root, deref, bind, ret, fail.

Ltac mcbn :=
  cbn [heap root red link0 link1 data link with_red with_link with_data
       negb andb orb rootp].

Lemma rootp_notin t x : x ∉ slocs t -> rootp t <> Some x.
Proof. destruct t; simpl; [done|]. intros H [= ->]. set_solver. Qed.

Lemma rootp_notin' t x : x ∉ slocs t -> Some x <> rootp t.
Proof. intros H E. by apply (rootp_notin t x). Qed.

Ltac neq_tac := first [ done | congruence ].

Ltac mlookup :=
  repeat first
    [ rewrite lookup_insert_eq
    | rewrite lookup_insert_ne by neq_tac
    | match goal with
      | H : ?h !! ?x = Some _ |- context [ ?h !! ?x ] => rewrite H
      end ].

Ltac mbool :=
  repeat match goal with
  | |- context [bool_decide (?a = ?a)] =>
    rewrite (bool_decide_true (a = a)) by reflexivity
  | |- context [bool_decide (Some ?a = Some ?b)] =>
    rewrite (bool_decide_false (Some a = Some b)) by congruence
  | |- context [bool_decide (None = Some ?b)] =>
    rewrite (bool_decide_false (None = Some b)) by done
  | |- context [bool_decide (Some ?b = None)] =>
    rewrite (bool_decide_false (Some b = None)) by done
  | |- context [bool_decide (rootp ?t = Some ?b)] =>
    rewrite (bool_decide_false (rootp t = Some b))
      by (apply rootp_notin; assumption)
  | |- context [bool_decide (Some ?b = rootp ?t)] =>
    rewrite (bool_decide_false (Some b = rootp t))
      by (apply rootp_notin'; assumption)
  end.

Ltac mrun := repeat (progress (mcbn; mlookup; mbool)).

Lemma is_red_repr s t : repr (heap s) t -> is_red (rootp t) s = Ok (is_red_t t) s.
Proof.
  destruct t as [|c l x r]; simpl; [done|].
  intros ((n & Hn & <- & _) & _). rewrite (get_red_ok _ _ _ Hn). by destruct (red n).
Qed.

(** ** The head of the loop body *)

Lemma insert_visit_keep s node p dir t :
  repr (heap s) t -> t <> Leaf ->
  is_red_t (child t false) && is_red_t (child t true) = false ->
  insert_visit node p (rootp t) dir s = Ok (rootp t) s.
Proof.
  destruct t as [|c l x r]; [done|]. intros ((n & Hn & Hc & H0 & H1) & Hl & Hr) _ Hnf.
  simpl in Hnf. simpl rootp. unfold insert_visit.
  rewrite (bind_ok _ _ _ _ _ (get_link_ok _ _ _ false Hn)). simpl link. rewrite H0.
  rewrite (bind_ok _ _ _ _ _ (is_red_repr _ _ Hl)).
  destruct (is_red_t l); simpl in Hnf.
  - rewrite (bind_ok _ _ s (is_red_t r) s).
    + by rewrite Hnf.
    + rewrite (bind_ok _ _ _ _ _ (get_link_ok _ _ _ true Hn)). simpl link. rewrite H1.
      by apply is_red_repr.
  - done.
Qed.

Lemma insert_visit_flip s node p dir t :
  repr (heap s) t -> wf t ->
  is_red_t (child t false) && is_red_t (child t true) = true ->
  exists s',
    insert_visit node p (rootp t) dir s = Ok (rootp t) s' /\
    root s' = root s /\
    repr (heap s') (flip t) /\
    same_outside (slocs t) (heap s) (heap s') /\
    same_data (heap s) (heap s').
Proof.
  destruct t as [|c l x r]; [done|].
  destruct l as [|[] ll xl rl]; try done. destruct r as [|[] lr xr rr]; try done.
  intros Hr Hwf _. simpl in Hr, Hwf.
  destruct Hr as ((n & Hn & Hc & H0 & H1) &
                  ((nl & Hnl & Hcl & Hl0 & Hl1) & Hll & Hrl) &
                  ((nr & Hnr & Hcr & Hr0 & Hr1) & Hlr & Hrr)).
  destruct n as [?c ?l0 ?l1 dn], nl as [?c ?l0 ?l1 dl], nr as [?c ?l0 ?l1 dr]. simpl in *. subst.
  assert (x <> xl /\ x <> xr /\ xl <> xr) as (? & ? & ?) by set_solver.
  destruct s as [rt h]. simpl in *.
  eexists. refine (conj _ (conj _ (conj _ (conj _ _)))).
  - unfold insert_visit. munfold. mrun. reflexivity.
  - done.
  - cbn [flip blacken repr heap]. split_and!;
      first [ eexists; mlookup; done
            | repeat apply repr_insert_notin; try done; set_solver ].
  - cbn [heap]. repeat (apply same_outside_insert; [set_solver|]). apply same_outside_refl.
  - cbn [heap].
    eapply same_data_insert; [mlookup; done | done |].
    eapply same_data_insert; [mlookup; done | done |].
    eapply same_data_insert; [mlookup; done | done |].
    apply same_data_refl.
Qed.

Lemma insert_visit_new s node pl np nn dir :
  heap s !! pl = Some np -> heap s !! node = Some nn -> node <> pl ->
  insert_visit node (Some pl) None dir s =
  Ok (Some node)
     {| root := root s;
        heap := <[pl := with_link dir (Some node) np]>
                  (<[node := {| red := true; link0 := None; link1 := None;
                                data := data nn |}]> (heap s)) |}.
Proof.
  intros Hp Hn Hne. destruct s as [rt h]. simpl in *.
  unfold insert_visit. munfold. mrun. f_equal. f_equal.
  destruct nn; simpl.
  rewrite !insert_insert_eq. done.
Qed.

(** ** The rotations of the loop body *)

Lemma insert_fix_none s t g p last tq :
  repr (heap s) tq ->
  (is_red_t tq = false \/ p = None \/
   exists pl np, p = Some pl /\ heap s !! pl = Some np /\ red np = false) ->
  insert_fix t g p (rootp tq) last s = Ok tt s.
Proof.
  intros Hr Hc. unfold insert_fix.
  rewrite (bind_ok _ _ _ _ _ (is_red_repr _ _ Hr)).
  destruct (is_red_t tq); [|done].
  destruct Hc as [? | [-> | (pl & np & -> & Hp & Hred)]]; [done | done |].
  unfold is_red. rewrite (bind_ok _ _ _ _ _ (get_red_ok _ _ _ Hp)). by rewrite Hred.
Qed.

Ltac destruct_all :=
  repeat match goal with
  | H : _ /\ _ |- _ => destruct H
  | H : exists _, _ |- _ => destruct H
  end.

Ltac norm_wf :=
  repeat match goal with
  | H : _ ∉ _ ∪ _ |- _ => apply not_elem_of_union in H; destruct H
  | H : _ ∉ {[ _ ]} |- _ => apply not_elem_of_singleton in H
  | H : _ ∪ _ ## _ |- _ => apply disjoint_union_l in H; destruct H
  | H : _ ## _ ∪ _ |- _ => apply disjoint_union_r in H; destruct H
  | H : {[ _ ]} ## _ |- _ => apply disjoint_singleton_l in H
  | H : _ ## {[ _ ]} |- _ => apply disjoint_singleton_r in H
  end.

Ltac in_union :=
  repeat first [ apply elem_of_singleton_2; reflexivity
               | apply elem_of_union_l; solve [in_union]
               | apply elem_of_union_r; solve [in_union] ].

Ltac frame_tac :=
  repeat (apply repr_insert_notin; [assumption|]); assumption.

Ltac open_nodes :=
  repeat match goal with
  | n : jsw_rbnode |- _ => destruct n as [?c ?l0 ?l1 ?dt]
  end;
  cbn [red link0 link1 data rootp] in *; subst.

Lemma insert_fix_single s t g p d d3 c3 tq A U S3 :
  let X := mk d3 c3 t (mk d false g (mk d true p tq A) U) S3 in
  let X' := mk d3 c3 t (mk d false p tq (mk d true g A U)) S3 in
  repr (heap s) X -> wf X -> is_red_t tq = true ->
  exists s',
    insert_fix t (Some g) (Some p) (rootp tq) d s = Ok tt s' /\
    root s' = root s /\
    repr (heap s') X' /\
    same_outside (slocs X) (heap s) (heap s') /\
    same_data (heap s) (heap s').
Proof.
  intros X X' Hr Hwf Hred. subst X X'.
  destruct tq as [|[] lq q rq]; try done. clear Hred.
  destruct s as [rt h].
  destruct d, d3; unfold mk in *; cbn [repr wf slocs heap] in *.
  all: destruct_all; open_nodes; norm_wf.
  all: eexists; split; [unfold insert_fix; munfold; mrun; reflexivity|].
  all: refine (conj _ (conj _ (conj _ _))); [done | | |].
  all: try (cbn [repr heap]; split_and!;
      first [ eexists; mlookup; done | frame_tac ]).
  all: try (cbn [heap slocs]; repeat (apply same_outside_insert; [in_union|]);
            apply same_outside_refl).
  all: cbn [heap];
       repeat (eapply same_data_insert; [mlookup; done | done |]);
       apply same_data_refl.
Qed.

Lemma insert_fix_double s t g p q d d3 c3 Cd Cnd A U S3 :
  let X := mk d3 c3 t (mk d false g (mk (negb d) true p (mk d true q Cd Cnd) A) U) S3 in
  let X' := mk d3 c3 t (mk d false q (mk d true p A Cd) (mk d true g Cnd U)) S3 in
  repr (heap s) X -> wf X ->
  exists s',
    insert_fix t (Some g) (Some p) (Some q) d s = Ok tt s' /\
    root s' = root s /\
    repr (heap s') X' /\
    same_outside (slocs X) (heap s) (heap s') /\
    same_data (heap s) (heap s').
Proof.
  intros X X' Hr Hwf. subst X X'.
  destruct s as [rt h].
  destruct d, d3; unfold mk in *; cbn [repr wf slocs heap negb] in *.
  all: destruct_all; open_nodes; norm_wf.
  all: eexists; split; [unfold insert_fix; munfold; mrun; reflexivity|].
  all: refine (conj _ (conj _ (conj _ _))); [done | | |].
  all: try (cbn [repr heap]; split_and!;
      first [ eexists; mlookup; done | frame_tac ]).
  all: try (cbn [heap slocs]; repeat (apply same_outside_insert; [in_union|]);
            apply same_outside_refl).
  all: cbn [heap];
       repeat (eapply same_data_insert; [mlookup; done | done |]);
       apply same_data_refl.
Qed.

(** ** Colours and heights under the rotations of insertion *)

Lemma bh_blacken_red t : is_red_t t = true -> bh (blacken t) = S (bh t).
Proof. by destruct t as [|[] ? ? ?]. Qed.

Lemma no_red_red_blacken t : no_red_red t -> no_red_red (blacken t).
Proof. destruct t as [|c l x r]; simpl; [done|]. intros (_ & ? & ?). done. Qed.

Lemma balanced_blacken t : balanced t -> balanced (blacken t).
Proof. by destruct t. Qed.

Lemma locs_blacken t : locs (blacken t) = locs t.
Proof. by destruct t. Qed.

Lemma slocs_blacken t : slocs (blacken t) = slocs t.
Proof. by destruct t. Qed.

Lemma wf_blacken t : wf t -> wf (blacken t).
Proof. by destruct t. Qed.

Lemma rootp_blacken t : rootp (blacken t) = rootp t.
Proof. by destruct t. Qed.

Lemma is_red_blacken t : is_red_t (blacken t) = false.
Proof. by destruct t. Qed.

Lemma height_blacken t : height (blacken t) = height t.
Proof. by destruct t. Qed.

Lemma flip_facts l x r :
  let t := T false l x r in
  is_red_t l = true -> is_red_t r = true ->
  no_red_red t -> balanced t ->
  no_red_red (flip t) /\ balanced (flip t) /\ bh (flip t) = bh t /\
  is_red_t (flip t) = true /\ locs (flip t) = locs t /\
  slocs (flip t) = slocs t /\ rootp (flip t) = rootp t /\
  calm (child (flip t) false) /\ calm (child (flip t) true).
Proof.
  intros t Hl Hr. subst t.
  destruct l as [|[] ll xl rl]; try done. destruct r as [|[] lr xr rr]; try done.
  simpl. intros (_ & (Hcl & ? & ?) & (Hcr & ? & ?)) (Hbh & (? & ? & ?) & (? & ? & ?)).
  destruct (Hcl eq_refl) as [-> ->]. destruct (Hcr eq_refl) as [-> ->].
  split_and!; try done; try lia.
Qed.

Lemma calm_not_flip t : calm t -> is_red_t (child t false) && is_red_t (child t true) = false.
Proof. by destruct t as [|[] l x r]. Qed.

Lemma calm_black t : calm t -> is_red_t t = false.
Proof. by destruct t as [|[] l x r]. Qed.

Lemma calm_not_leaf t : calm t -> t <> Leaf.
Proof. by destruct t. Qed.

Lemma height_child t d : t <> Leaf -> (height (child t d) < height t)%nat.
Proof. destruct t; [done|]. intros _. destruct d; simpl; lia. Qed.

Section rb_fix.
Context (F1 F2 : frame) (rest : list frame) (tq : tree).
Context (Hn : no_red_red (plug (F1 :: F2 :: rest) tq)).
Context (Hb : balanced (plug (F1 :: F2 :: rest) tq)).
Context (Hc1 : fc F1 = true).
Context (Hu : is_red_t (fsib F2) = false).

Lemma rb_fix_facts :
  fc F2 = false /\ is_red_t (fsib F1) = false /\
  no_red_red (fsib F1) /\ no_red_red (fsib F2) /\
  balanced (fsib F1) /\ balanced (fsib F2) /\
  bh (fsib F1) = bh tq /\ bh (fsib F2) = bh tq /\
  bh (plug1 F2 (plug1 F1 tq)) = S (bh tq) /\ is_red_t tq = false.
Proof using All.
  simpl in Hn, Hb.
  apply no_red_red_plug_sub in Hn. apply balanced_plug_sub in Hb.
  unfold plug1 in *.
  apply no_red_red_mk in Hn as (Hc2 & Hn1 & Hn2).
  apply no_red_red_mk in Hn1 as (Hc1' & Hn3 & Hn4).
  apply balanced_mk in Hb as (Hbh2 & Hb1 & Hb2).
  apply balanced_mk in Hb1 as (Hbh1 & Hb3 & Hb4).
  rewrite is_red_mk in Hc2. rewrite (bh_mk _ _ _ _ _ Hbh1), Hc1 in Hbh2. simpl in Hbh2.
  destruct (Hc1' Hc1) as [H1 H2].
  assert (fc F2 = false) as Hc2'.
  { destruct (fc F2); [|done]. destruct (Hc2 eq_refl) as [H _]. congruence. }
  split_and!; try done; try congruence.
  rewrite bh_mk; rewrite (bh_mk _ _ _ _ _ Hbh1), Hc1; [|done]. by rewrite Hc2'.
Qed.

Lemma rb_fix_single tq1 :
  no_red_red tq1 -> balanced tq1 -> bh tq1 = bh tq ->
  let F1' := {| fc := false; fx := fx F1; fd := fd F1;
                fsib := mk (fd F1) true (fx F2) (fsib F1) (fsib F2) |} in
  no_red_red (plug (F1' :: rest) tq1) /\ balanced (plug (F1' :: rest) tq1).
Proof using All.
  intros Hn1 Hb1 Hbh F1'.
  destruct rb_fix_facts as (Hc2 & HA & HnA & HnU & HbA & HbU & HbhA & HbhU & HbhG & _).
  simpl in *.
  apply (rb_plug_replace' rest (plug1 F2 (plug1 F1 tq))); try done.
  - unfold plug1, F1'. simpl. apply no_red_red_mk. split_and!; try done.
    apply no_red_red_mk. done.
  - unfold plug1, F1'. simpl. apply balanced_mk. split_and!; try done.
    + rewrite bh_mk by congruence. simpl. congruence.
    + apply balanced_mk. split_and!; try done. congruence.
  - rewrite HbhG. unfold plug1, F1'. simpl. rewrite bh_mk.
    + simpl. congruence.
    + rewrite bh_mk by congruence. simpl. congruence.
  - unfold plug1, F1'. simpl. by rewrite is_red_mk.
Qed.

Lemma rb_fix_double q Cd Cnd :
  let tq1 := mk (fd F2) true q Cd Cnd in
  no_red_red tq1 -> balanced tq1 -> bh tq1 = bh tq ->
  let Q' := mk (fd F2) false q
              (mk (fd F2) true (fx F1) (fsib F1) Cd)
              (mk (fd F2) true (fx F2) Cnd (fsib F2)) in
  no_red_red (plug rest Q') /\ balanced (plug rest Q').
Proof using All.
  intros tq1 Hn1 Hb1 Hbh Q'.
  destruct rb_fix_facts as (Hc2 & HA & HnA & HnU & HbA & HbU & HbhA & HbhU & HbhG & _).
  subst tq1. apply no_red_red_mk in Hn1 as (Hcc & HnCd & HnCnd).
  destruct (Hcc eq_refl) as [HrCd HrCnd].
  apply balanced_mk in Hb1 as (HbhC & HbCd & HbCnd).
  rewrite (bh_mk _ _ _ _ _ HbhC) in Hbh. simpl in Hbh.
  simpl in *.
  apply (rb_plug_replace' rest (plug1 F2 (plug1 F1 tq))); try done.
  - unfold Q'. apply no_red_red_mk. split_and!; try done; apply no_red_red_mk; done.
  - unfold Q'. apply balanced_mk. split_and!.
    + rewrite !bh_mk by congruence. simpl. congruence.
    + apply balanced_mk. split_and!; try done. congruence.
    + apply balanced_mk. split_and!; try done. congruence.
  - rewrite HbhG. unfold Q'. rewrite bh_mk.
    + rewrite bh_mk by congruence. simpl. congruence.
    + rewrite !bh_mk by congruence. simpl. congruence.
  - unfold Q'. by rewrite is_red_mk.
Qed.

End rb_fix.

(** Replacing the plugged tree below a black frame, or at the root. *)
Lemma rb_plug_replace_black ctx t t' :
  no_red_red (plug ctx t) -> balanced (plug ctx t) ->
  no_red_red t' -> balanced t' -> bh t' = bh t ->
  (forall F, ctx !! 0%nat = Some F -> fc F = false) ->
  no_red_red (plug ctx t') /\ balanced (plug ctx t').
Proof.
  intros Hn Hb Hn' Hb' Hbh Hblack.
  destruct ctx as [|F ctx]; [done|]. simpl in *.
  specialize (Hblack F eq_refl).
  pose proof (no_red_red_plug_sub _ _ Hn) as Hn1.
  pose proof (balanced_plug_sub _ _ Hb) as Hb1.
  unfold plug1 in *.
  apply no_red_red_mk in Hn1 as (_ & _ & ?).
  apply balanced_mk in Hb1 as (Hbh1 & _ & ?).
  apply (rb_plug_replace' ctx (mk (fd F) (fc F) (fx F) t (fsib F))); try done.
  - apply no_red_red_mk. rewrite Hblack. done.
  - apply balanced_mk. split_and!; try done. congruence.
  - rewrite !bh_mk by congruence. congruence.
  - by rewrite !is_red_mk.
Qed.

(** ** Order of the nodes under the rotations *)

Ltac list_assoc :=
  cbn [locs]; repeat (rewrite <- app_assoc || rewrite <- app_comm_cons); try done.

Lemma locs_single d c1 c2 c3 c4 p g tq A U :
  locs (mk d c1 p tq (mk d c2 g A U)) = locs (mk d c3 g (mk d c4 p tq A) U).
Proof. destruct d; unfold mk; cbn [negb]; list_assoc. Qed.

Lemma locs_double d c1 c2 c3 c4 c5 c6 p g q Cd Cnd A U :
  locs (mk d c1 q (mk d c2 p A Cd) (mk d c3 g Cnd U))
  = locs (mk d c4 g (mk (negb d) c5 p (mk d c6 q Cd Cnd) A) U).
Proof. destruct d; unfold mk; cbn [negb]; list_assoc. Qed.

Lemma locs_plug_leaf c x ctx :
  exists l1 l2, locs (plug ctx Leaf) = l1 ++ l2 /\
                locs (plug ctx (T c Leaf x Leaf)) = l1 ++ x :: l2.
Proof.
  assert (forall t t' l1 l2, locs t = l1 ++ l2 -> locs t' = l1 ++ x :: l2 ->
            exists l1 l2, locs (plug ctx t) = l1 ++ l2 /\
                          locs (plug ctx t') = l1 ++ x :: l2) as H.
  { induction ctx as [|F ctx IH]; intros t t' l1 l2 H1 H2; simpl; [eauto|].
    unfold plug1, mk. destruct (fd F); simpl.
    - apply (IH _ _ (locs (fsib F) ++ fx F :: l1) l2); cbn [locs];
        rewrite ?H1, ?H2; list_assoc.
    - apply (IH _ _ l1 (l2 ++ fx F :: locs (fsib F))); cbn [locs];
        rewrite ?H1, ?H2; list_assoc. }
  apply (H Leaf (T c Leaf x Leaf) [] []); done.
Qed.

(** ** Layout under the steps of the insertion loop *)

Lemma wf_single d c1 c2 c3 c4 p g tq A U :
  wf (mk d c1 g (mk d c2 p tq A) U) ->
  wf (mk d c3 p tq (mk d c4 g A U)) /\
  slocs (mk d c3 p tq (mk d c4 g A U)) = slocs (mk d c1 g (mk d c2 p tq A) U).
Proof.
  rewrite !wf_mk, !slocs_mk. intros (? & ? & ? & (? & ? & ? & ? & ?) & ?).
  split; [|set_solver]. split_and!; try done; set_solver.
Qed.

Lemma wf_double d c1 c2 c3 c4 c5 c6 p g q Cd Cnd A U :
  wf (mk d c4 g (mk (negb d) c5 p (mk d c6 q Cd Cnd) A) U) ->
  wf (mk d c1 q (mk d c2 p A Cd) (mk d c3 g Cnd U)) /\
  slocs (mk d c1 q (mk d c2 p A Cd) (mk d c3 g Cnd U))
  = slocs (mk d c4 g (mk (negb d) c5 p (mk d c6 q Cd Cnd) A) U).
Proof.
  rewrite !wf_mk, !slocs_mk.
  intros (? & ? & ? & (? & ? & ? & (? & ? & ? & ? & ?) & ?) & ?).
  split; [|set_solver]. split_and!; try done; set_solver.
Qed.

Lemma wf_top d c t G G' S :
  wf (mk d c t G S) -> wf G' -> slocs G' = slocs G -> wf (mk d c t G' S).
Proof. rewrite !wf_mk. intros (? & ? & ? & ? & ?) ? ->. done. Qed.

Lemma slocs_top d c t G G' S :
  slocs G' = slocs G -> slocs (mk d c t G' S) = slocs (mk d c t G S).
Proof. rewrite !slocs_mk. by intros ->. Qed.

Lemma head_tail (rest : list frame) :
  exists F3 rest3, rest ++ [head_frame] = F3 :: rest3 /\
                   fx F3 = default Head (fx <$> rest !! 0%nat).
Proof. destruct rest as [|F rest]; simpl; eauto. Qed.

Lemma plug_head_sub ctx t :
  slocs (plug ctx t) ⊆ slocs (plug (ctx ++ [head_frame]) t).
Proof.
  rewrite plug_app. simpl. set_solver.
Qed.

Lemma plug1_child c l x r d :
  plug1 {| fc := c; fx := x; fd := d; fsib := child (T c l x r) (negb d) |}
        (child (T c l x r) d) = T c l x r.
Proof. by destruct d. Qed.

Lemma shape_shift h0 k lx ctx c l x r d s :
  ins_shape h0 k lx ctx (T c l x r) s -> cmp_dir h0 k x = Some d ->
  ins_shape h0 k lx
    ({| fc := c; fx := x; fd := d; fsib := child (T c l x r) (negb d) |} :: ctx)
    (child (T c l x r) d) s.
Proof.
  intros [Hr Hwf Hd Hl Hp] Hcmp.
  split; cbn [plug app]; rewrite ?plug1_child; try done.
  constructor; done.
Qed.

Lemma core_shift h0 k lx ctx c l x r d s :
  ins_core h0 k lx ctx (T c l x r) s -> cmp_dir h0 k x = Some d ->
  ins_core h0 k lx
    ({| fc := c; fx := x; fd := d; fsib := child (T c l x r) (negb d) |} :: ctx)
    (child (T c l x r) d) s.
Proof.
  intros [Hs Hn Hb] Hcmp. split.
  - by apply shape_shift.
  - cbn [plug]. by rewrite plug1_child.
  - cbn [plug]. by rewrite plug1_child.
Qed.

Lemma shape_flip h0 k lx ctx tq s node p dir :
  ins_shape h0 k lx ctx tq s ->
  is_red_t (child tq false) && is_red_t (child tq true) = true ->
  exists s1,
    insert_visit node p (rootp tq) dir s = Ok (rootp tq) s1 /\
    root s1 = root s /\
    ins_shape h0 k lx ctx (flip tq) s1 /\
    same_outside (slocs (plug (ctx ++ [head_frame]) tq)) (heap s) (heap s1) /\
    slocs (plug (ctx ++ [head_frame]) (flip tq))
    = slocs (plug (ctx ++ [head_frame]) tq).
Proof.
  intros [Hr Hwf Hd Hl Hp] Hf.
  destruct (insert_visit_flip s node p dir tq) as (s1 & Hrun & Hroot & Hr1 & Hso & Hsd);
    [by eapply repr_plug_sub | by eapply wf_plug_sub | done |].
  assert (tq <> Leaf) as Hne by (by destruct tq).
  destruct tq as [|c l x r]; [done|].
  exists s1. split_and!; try done.
  - split.
    + eapply repr_plug_replace; try done. intros y _ Hy. by apply Hso.
    + eapply wf_plug_replace; try done.
      * simpl. pose proof (wf_plug_sub _ _ Hwf) as Hw. simpl in Hw.
        rewrite !slocs_blacken. destruct Hw as (? & ? & ? & ? & ?).
        split_and!; try done; by apply wf_blacken.
      * simpl. by rewrite !slocs_blacken.
    + by eapply same_data_trans.
    + rewrite <- Hl. apply locs_plug_congr. simpl. by rewrite !locs_blacken.
    + done.
  - eapply same_outside_mono; [|done]. apply slocs_plug_sub.
  - apply slocs_plug_congr. simpl. by rewrite !slocs_blacken.
Qed.

Lemma shape_new h0 k lx F1 rest s node nn :
  ins_shape h0 k lx (F1 :: rest) Leaf s ->
  node ∉ slocs (plug ((F1 :: rest) ++ [head_frame]) Leaf) ->
  heap s !! node = Some nn ->
  exists s1,
    insert_visit node (Some (fx F1)) None (fd F1) s = Ok (Some node) s1 /\
    root s1 = root s /\
    exists l1 l2, lx = l1 ++ l2 /\ hole_split h0 k l1 l2 /\
      ins_shape h0 k (l1 ++ node :: l2) (F1 :: rest) (T true Leaf node Leaf) s1.
Proof.
  intros [Hr Hwf Hd Hl Hp] Hnode Hnn. cbn [app plug] in *.
  pose proof (repr_plug_sub _ _ _ Hr) as Hr1.
  pose proof (wf_plug_sub _ _ Hwf) as Hwf1.
  pose proof (slocs_plug_sub (rest ++ [head_frame]) (plug1 F1 Leaf)) as Hsub.
  unfold plug1 in Hr1, Hwf1, Hsub.
  apply repr_mk in Hr1 as ((np & Hnp & Hc & Hl1 & Hl2) & _ & Hrs).
  apply wf_mk in Hwf1 as (_ & Hx2 & _ & _ & Hws).
  rewrite slocs_mk in Hsub.
  assert (node <> fx F1) as Hne by set_solver.
  assert (node ∉ slocs (fsib F1)) as Hns by set_solver.
  eexists. split; [by apply (insert_visit_new s node (fx F1) np nn)|].
  split; [done|].
  pose proof (walk_plug true (F1 :: rest) Leaf) as Hl1'.
  pose proof (walk_plug true (F1 :: rest) (T true Leaf node Leaf)) as Hl2'.
  cbn [walk negb locs app plug] in Hl1', Hl2'.
  set (l1 := rev (ahead false (F1 :: rest))) in *.
  set (l2 := ahead true (F1 :: rest)) in *.
  exists l1, l2. split; [congruence|].
  split; [by exists (F1 :: rest)|].
  split; cbn [app plug heap]; try done.
  - eapply repr_plug_replace; [exact Hr | exact Hwf | | |].
    + unfold plug1. apply repr_mk. split_and!.
      * eexists. rewrite lookup_insert_eq. split; [done|].
        rewrite red_with_link, link_with_link, link_negb_with_link. done.
      * simpl. split; [|done]. eexists.
        rewrite lookup_insert_ne, lookup_insert_eq by done. done.
      * by repeat apply repr_insert_notin.
    + unfold plug1. by rewrite !rootp_mk.
    + intros x Hx1 Hx2'. unfold plug1 in Hx2'. rewrite slocs_mk in Hx2'.
      rewrite !lookup_insert_ne; [done | | ]; intros <-; set_solver.
  - eapply wf_slocs_plug_gen; [exact Hwf | |].
    + unfold plug1. apply wf_mk. simpl. split_and!; try done; set_solver.
    + intros x. unfold plug1. rewrite !slocs_mk. simpl. intros Hx.
      destruct (decide (x = node)) as [->|?]; [by right|]. left. set_solver.
  - eapply same_data_insert; [by rewrite lookup_insert_ne, Hnp | by rewrite data_with_link |].
    eapply same_data_insert; [exact Hnn | done | done].
Qed.

Lemma shape_single h0 k lx F1 F2 rest tq1 s1 :
  ins_shape h0 k lx (F1 :: F2 :: rest) tq1 s1 ->
  fc F1 = true -> fc F2 = false -> fd F1 = fd F2 -> is_red_t tq1 = true ->
  let F1' := {| fc := false; fx := fx F1; fd := fd F1;
                fsib := mk (fd F1) true (fx F2) (fsib F1) (fsib F2) |} in
  exists s2,
    insert_fix (default Head (fx <$> rest !! 0%nat)) (Some (fx F2))
               (Some (fx F1)) (rootp tq1) (fd F2) s1 = Ok tt s2 /\
    root s2 = root s1 /\
    ins_shape h0 k lx (F1' :: rest) tq1 s2 /\
    same_outside (slocs (plug ((F1 :: F2 :: rest) ++ [head_frame]) tq1))
                 (heap s1) (heap s2) /\
    slocs (plug ((F1' :: rest) ++ [head_frame]) tq1)
    = slocs (plug ((F1 :: F2 :: rest) ++ [head_frame]) tq1).
Proof.
  intros [Hr Hwf Hd Hl Hp] Hc1 Hc2 Hd12 Hred F1'.
  destruct (head_tail rest) as (F3 & rest3 & Hrest & Ht). rewrite <- Ht.
  cbn [app plug] in *. rewrite Hrest in *. cbn [plug] in *.
  pose proof (repr_plug_sub _ _ _ Hr) as Hr1.
  pose proof (wf_plug_sub _ _ Hwf) as Hwf1.
  unfold plug1 in Hr1, Hwf1. rewrite Hc1, Hc2, Hd12 in Hr1, Hwf1.
  destruct (insert_fix_single s1 (fx F3) (fx F2) (fx F1) (fd F2) (fd F3) (fc F3)
              tq1 (fsib F1) (fsib F2) (fsib F3) Hr1 Hwf1 Hred)
    as (s2 & Hrun & Hroot & Hr2 & Hso & Hsd).
  assert (wf (mk (fd F3) (fc F3) (fx F3)
            (mk (fd F2) false (fx F1) tq1
               (mk (fd F2) true (fx F2) (fsib F1) (fsib F2))) (fsib F3)) /\
          slocs (mk (fd F3) (fc F3) (fx F3)
            (mk (fd F2) false (fx F1) tq1
               (mk (fd F2) true (fx F2) (fsib F1) (fsib F2))) (fsib F3))
          = slocs (mk (fd F3) (fc F3) (fx F3)
              (mk (fd F2) false (fx F2)
                 (mk (fd F2) true (fx F1) tq1 (fsib F1)) (fsib F2)) (fsib F3)))
    as [Hwf2 Hsl2].
  { pose proof Hwf1 as Hw. apply wf_mk in Hw as (_ & _ & _ & Hw & _).
    apply (wf_single _ _ _ false true) in Hw as [Hw1 Hw2].
    split; [eapply wf_top; [exact Hwf1 | exact Hw1 | exact Hw2]
           | apply slocs_top; exact Hw2]. }
  exists s2. split_and!; try done.
  - split; cbn [app plug]; rewrite ?Hrest; cbn [plug]; unfold plug1, F1'; cbn [fc fx fd fsib];
      rewrite ?Hd12.
    + eapply repr_plug_replace;
        [exact Hr | exact Hwf | exact Hr2 | unfold plug1; by rewrite !rootp_mk |].
      intros x _ Hx. apply Hso. unfold plug1 in Hx. by rewrite Hc1, Hc2, Hd12 in Hx.
    + eapply wf_plug_replace; [exact Hwf | exact Hwf2 |].
      unfold plug1. rewrite Hc1, Hc2, Hd12. by rewrite Hsl2.
    + by eapply same_data_trans.
    + rewrite <- Hl. apply locs_plug_congr. unfold plug1.
      rewrite Hc1, Hc2, Hd12. apply locs_single.
    + inversion Hp as [|? ? Hp1 Hp2]; subst. inversion Hp2; subst.
      constructor; [|done]. simpl. by rewrite <- Hd12.
  - eapply same_outside_mono; [|done]. etrans; [|apply slocs_plug_sub].
    unfold plug1. by rewrite Hc1, Hc2, Hd12.
  - apply slocs_plug_congr.
    unfold plug1, F1'. cbn [fc fx fd fsib]. by rewrite Hc1, Hc2, Hd12, Hsl2.
Qed.

Lemma shape_double h0 k lx F1 F2 rest q Cd Cnd s1 :
  let tq1 := mk (fd F2) true q Cd Cnd in
  ins_shape h0 k lx (F1 :: F2 :: rest) tq1 s1 ->
  fc F1 = true -> fc F2 = false -> fd F1 = negb (fd F2) ->
  let Q' := mk (fd F2) false q
              (mk (fd F2) true (fx F1) (fsib F1) Cd)
              (mk (fd F2) true (fx F2) Cnd (fsib F2)) in
  exists s2,
    insert_fix (default Head (fx <$> rest !! 0%nat)) (Some (fx F2))
               (Some (fx F1)) (Some q) (fd F2) s1 = Ok tt s2 /\
    root s2 = root s1 /\
    ins_shape h0 k lx rest Q' s2 /\
    same_outside (slocs (plug ((F1 :: F2 :: rest) ++ [head_frame]) tq1))
                 (heap s1) (heap s2) /\
    slocs (plug (rest ++ [head_frame]) Q')
    = slocs (plug ((F1 :: F2 :: rest) ++ [head_frame]) tq1).
Proof.
  intros tq1 [Hr Hwf Hd Hl Hp] Hc1 Hc2 Hd12 Q'.
  destruct (head_tail rest) as (F3 & rest3 & Hrest & Ht). rewrite <- Ht.
  cbn [app plug] in *. rewrite Hrest in *. cbn [plug] in *.
  pose proof (repr_plug_sub _ _ _ Hr) as Hr1.
  pose proof (wf_plug_sub _ _ Hwf) as Hwf1.
  unfold plug1, tq1 in Hr1, Hwf1. rewrite Hc1, Hc2, Hd12 in Hr1, Hwf1.
  destruct (insert_fix_double s1 (fx F3) (fx F2) (fx F1) q (fd F2) (fd F3) (fc F3)
              Cd Cnd (fsib F1) (fsib F2) (fsib F3) Hr1 Hwf1)
    as (s2 & Hrun & Hroot & Hr2 & Hso & Hsd).
  assert (wf (mk (fd F3) (fc F3) (fx F3) Q' (fsib F3)) /\
          slocs (mk (fd F3) (fc F3) (fx F3) Q' (fsib F3))
          = slocs (mk (fd F3) (fc F3) (fx F3)
              (mk (fd F2) false (fx F2)
                 (mk (negb (fd F2)) true (fx F1)
                    (mk (fd F2) true q Cd Cnd) (fsib F1)) (fsib F2)) (fsib F3)))
    as [Hwf2 Hsl2].
  { pose proof Hwf1 as Hw. apply wf_mk in Hw as (_ & _ & _ & Hw & _).
    apply (wf_double _ false true true) in Hw as [Hw1 Hw2].
    split; [eapply wf_top; [exact Hwf1 | exact Hw1 | exact Hw2]
           | apply slocs_top; exact Hw2]. }
  exists s2. split_and!; try done.
  - split; rewrite ?Hrest; cbn [plug]; unfold plug1.
    + eapply repr_plug_replace;
        [exact Hr | exact Hwf | exact Hr2 | unfold plug1; by rewrite !rootp_mk |].
      intros x _ Hx. apply Hso. unfold plug1, tq1 in Hx. by rewrite Hc1, Hc2, Hd12 in Hx.
    + eapply wf_plug_replace; [exact Hwf | exact Hwf2 |].
      unfold plug1, tq1. rewrite Hc1, Hc2, Hd12. by rewrite Hsl2.
    + by eapply same_data_trans.
    + rewrite <- Hl. apply locs_plug_congr. unfold plug1, tq1, Q'.
      rewrite Hc1, Hc2, Hd12. apply locs_double.
    + inversion Hp as [|? ? Hp1 Hp2]; subst. inversion Hp2; subst. done.
  - eapply same_outside_mono; [|done]. etrans; [|apply slocs_plug_sub].
    unfold plug1, tq1. by rewrite Hc1, Hc2, Hd12.
  - apply slocs_plug_congr.
    unfold plug1, tq1. by rewrite Hc1, Hc2, Hd12, Hsl2.
Qed.

(** ** The insertion loop *)

Lemma reaches_blacken h k t : reaches h k (blacken t) <-> reaches h k t.
Proof. by destruct t. Qed.

Lemma reaches_child h k c l x r d :
  reaches h k (T c l x r) -> cmp_dir h k x = Some d ->
  reaches h k (child (T c l x r) d).
Proof.
  intros Hr (Hne & ->)%cmp_dir_Some. simpl in *.
  destruct Hr as [?|[_ Hr]]; [done|]. by destruct (cmp_at h k x <? 0).
Qed.

Lemma reaches_child_inv h k c l x r d :
  cmp_dir h k x = Some d -> reaches h k (child (T c l x r) d) ->
  reaches h k (T c l x r).
Proof.
  intros (Hne & ->)%cmp_dir_Some Hr. simpl in *. right. split; [done|].
  by destruct (cmp_at h k x <? 0).
Qed.

Lemma shape_focus h0 k lx ctx c l x r s :
  ins_shape h0 k lx ctx (T c l x r) s ->
  exists nx, heap s !! x = Some nx /\ red nx = c /\
             forall d, link nx d = rootp (child (T c l x r) d).
Proof.
  intros [Hr _ _ _ _]. apply repr_plug_sub in Hr.
  destruct Hr as ((nx & Hnx & Hc & H0 & H1) & _ & _).
  exists nx. split_and!; try done. by intros [].
Qed.

Lemma shape_focus_repr h0 k lx ctx tq s :
  ins_shape h0 k lx ctx tq s -> repr (heap s) tq.
Proof. intros [Hr _ _ _ _]. by apply repr_plug_sub in Hr. Qed.

Lemma shape_parent h0 k lx F1 rest tq s :
  ins_shape h0 k lx (F1 :: rest) tq s ->
  exists np, heap s !! fx F1 = Some np /\ red np = fc F1.
Proof.
  intros [Hr _ _ _ _]. cbn [app plug] in Hr. apply repr_plug_sub in Hr.
  unfold plug1 in Hr. apply repr_mk in Hr as ((np & ? & ? & _) & _). eauto.
Qed.

Lemma node_cmp_at h0 k s x nx node nn :
  same_data h0 (heap s) -> heap s !! x = Some nx ->
  heap s !! node = Some nn -> key (data nn) = k ->
  node_cmp x node s = Ok (cmp_at h0 k x) s.
Proof.
  intros Hsd Hx Hn Hk. rewrite (node_cmp_ok _ _ _ _ _ Hx Hn).
  rewrite <- (cmp_at_same_data h0 (heap s)) by done.
  unfold cmp_at. by rewrite Hx, Hk.
Qed.

Lemma post_of_core h0 k l0 lx dup node rt ctx tq s :
  ins_core h0 k lx ctx tq s -> tq <> Leaf -> root s = rt ->
  (lx = l0 /\ heap s !! node = h0 !! node /\
     node ∉ slocs (plug (ctx ++ [head_frame]) tq) /\ dup \/
   ~ dup /\ exists l1 l2, l0 = l1 ++ l2 /\ lx = l1 ++ node :: l2 /\
                      hole_split h0 k l1 l2) ->
  ins_post h0 l0 dup node k rt s.
Proof.
  intros [[Hr Hwf Hd Hl Hp] Hn Hb] Hne Hroot Hord.
  exists (plug ctx tq). rewrite plug_app in Hr, Hwf.
  split_and!; try done; [by apply plug_not_leaf|].
  destruct Hord as [(-> & ? & Hnode & ?)|(? & l1 & l2 & ? & ? & ?)].
  - left. split_and!; try done. intros Hin. apply Hnode.
    by apply plug_head_sub.
  - right. split; [done|]. exists l1, l2. split_and!; [congruence.. | done].
Qed.

Lemma frame_loc_cons F ctx i : frame_loc (F :: ctx) (S i) = frame_loc ctx i.
Proof. done. Qed.

Section insert_loop.
Context (h0 : gmap loc jsw_rbnode) (l0 : list loc) (dup : Prop).
Context (node : loc) (k : Z) (rt : ptr).

(** The end of an iteration, from the comparison on. *)
Lemma insert_tail fuel t g p x dir s1 nx nn bound :
  loop_ok h0 l0 dup node k rt fuel ->
  heap s1 !! x = Some nx -> heap s1 !! node = Some nn -> key (data nn) = k ->
  same_data h0 (heap s1) -> root s1 = rt ->
  (cmp_at h0 k x = 0 -> ins_post h0 l0 dup node k rt s1) ->
  (forall d', cmp_dir h0 k x = Some d' ->
     exists m' ctx' tq',
       link nx d' = rootp tq' /\
       ins_inv h0 l0 dup node k m' ctx' tq'
         (match g with Some gl => gl | None => t end) p (Some x)
         (rootp tq') d' dir s1 /\
       (ins_measure h0 k m' tq' < bound)%nat) ->
  runs (bind (node_cmp x node) (fun cmp =>
          if cmp =? 0 then ret None
          else bind (node_cmp x node) (fun cmp =>
                 bind (get_link x (cmp <? 0)) (fun q =>
                   insert_loop fuel node
                     (match g with Some gl => gl | None => t end) p (Some x) q
                     (cmp <? 0) dir))) s1)
       bound (S fuel)
       (fun o s' => o = None /\ ins_post h0 l0 dup node k rt s').
Proof.
  intros IH Hx Hn Hk Hsd Hroot Hbreak Hnext.
  rewrite (bind_ok _ _ _ _ _ (node_cmp_at _ _ _ _ _ _ _ Hsd Hx Hn Hk)).
  destruct (Z.eqb_spec (cmp_at h0 k x) 0) as [Heq|Hne].
  - cbn. split; [done|]. by apply Hbreak.
  - rewrite (bind_ok _ _ _ _ _ (node_cmp_at _ _ _ _ _ _ _ Hsd Hx Hn Hk)).
    rewrite (bind_ok _ _ _ _ _ (get_link_ok _ _ _ _ Hx)).
    destruct (Hnext (cmp_at h0 k x <? 0)) as (m' & ctx' & tq' & Hlink & Hinv & Hlt).
    { by apply cmp_dir_Some. }
    rewrite Hlink.
    eapply runs_weaken; [by apply (IH m' ctx' tq') | lia | done].
Qed.

End insert_loop.

Section insert_steps.
Context (h0 : gmap loc jsw_rbnode) (l0 : list loc) (dup : Prop).
Context (node : loc) (k : Z) (rt : ptr).

Implicit Types (ctx : list frame) (tq : tree) (s : store).

Lemma insert_loop_S fuel t g p q dir last s :
  insert_loop (S fuel) node t g p q dir last s =
  bind (insert_visit node p q dir) (fun q =>
    match q with
    | None => ret (Some 0)
    | Some ql =>
      bind (insert_fix t g p q last) (fun _ =>
        bind (node_cmp ql node) (fun cmp =>
          if cmp =? 0 then ret None
          else bind (node_cmp ql node) (fun cmp =>
                 bind (get_link ql (cmp <? 0)) (fun q' =>
                   insert_loop fuel node
                     (match g with Some gl => gl | None => t end) p q q'
                     (cmp <? 0) dir))))
    end) s.
Proof.
  cbn [insert_loop]. fold (insert_visit node p q dir).
  set (K := fun q0 : ptr => match q0 with None => _ | Some ql => _ end).
  set (K' := fun q0 : ptr => match q0 with None => _ | Some ql => _ end).
  unfold bind at 1 2.
  destruct (insert_visit node p q dir s) as [[ql|] s1|]; try done.
  unfold K, K', insert_fix, bind.
  destruct (is_red (Some ql) s1) as [rq s2|]; [|done].
  by destruct ((if rq then is_red p else ret false) s2) as [rp s3|].
Qed.

Lemma inv_node_lookup m ctx tq t g p q dir last s :
  ins_inv h0 l0 dup node k m ctx tq t g p q dir last s ->
  exists nn, heap s !! node = Some nn /\ key (data nn) = k.
Proof.
  intros H. pose proof (ii_node_same _ _ _ _ _ _ _ _ _ _ _ _ _ _ _ H) as Hs.
  pose proof (ii_key _ _ _ _ _ _ _ _ _ _ _ _ _ _ _ H) as Hk.
  rewrite <- Hs in Hk. destruct (heap s !! node) as [nn|]; [|done].
  exists nn. split; [done|]. by injection Hk.
Qed.

(** Entering the next iteration below the node [x]. *)
Lemma inv_shift m' ctx c l x r s d' t' g' dir :
  let tq := T c l x r in
  let F := {| fc := c; fx := x; fd := d'; fsib := child tq (negb d') |} in
  ins_core h0 k l0 ctx tq s ->
  node ∉ slocs (plug (ctx ++ [head_frame]) tq) ->
  heap s !! node = h0 !! node ->
  (fun n => key (data n)) <$> h0 !! node = Some k ->
  cmp_dir h0 k x = Some d' ->
  (dup -> reaches h0 k tq) ->
  ins_mode_inv h0 k m' (F :: ctx) (child tq d') t' g' dir ->
  (reaches h0 k tq -> dup) ->
  ins_inv h0 l0 dup node k m' (F :: ctx) (child tq d') t' g' (Some x)
          (rootp (child tq d')) d' dir s.
Proof.
  intros tq F Hcore Hnode Hsame Hkey Hcmp Hdup Hmode Hfound. subst tq F.
  split; try done.
  - by apply core_shift.
  - cbn [app plug]. by rewrite plug1_child.
  - intros F' [= <-]. done.
  - intros Hd. by apply reaches_child; [apply Hdup|].
  - intros Hre. apply Hfound. by eapply reaches_child_inv.
Qed.

Lemma step_MC fuel ctx tq t g p q dir last s :
  loop_ok h0 l0 dup node k rt fuel -> root s = rt ->
  ins_inv h0 l0 dup node k MC ctx tq t g p q dir last s ->
  runs (insert_loop (S fuel) node t g p q dir last s) (2 * height tq) (S fuel)
    (fun o s' => o = None /\ ins_post h0 l0 dup node k rt s').
Proof.
  intros IH Hroot Hinv.
  destruct (inv_node_lookup _ _ _ _ _ _ _ _ _ _ Hinv) as (nn & Hnn & Hknn).
  destruct Hinv as [Hcore Hnode Hsame Hkey Hq Hp Hdir Hrt Hdup (Hg & Ht & Hcalm) Hfound].
  destruct tq as [|[] l x r]; try done. simpl in Hcalm.
  destruct (shape_focus _ _ _ _ _ _ _ _ _ (ic_shape _ _ _ _ _ _ Hcore)) as (nx & Hnx & Hcx & Hlx).
  pose proof (shape_focus_repr _ _ _ _ _ _ (ic_shape _ _ _ _ _ _ Hcore)) as Hrq.
  rewrite insert_loop_S, Hq.
  rewrite (bind_ok _ _ _ _ _ (insert_visit_keep s node p dir _ Hrq ltac:(done) Hcalm)).
  cbn [rootp].
  rewrite (bind_ok _ _ _ _ _ (insert_fix_none s t g p last (T false l x r) Hrq (or_introl eq_refl))).
  eapply (insert_tail h0 l0 dup node k rt fuel t g p x dir s nx nn); try done.
  - apply (is_data _ _ _ _ _ _ (ic_shape _ _ _ _ _ _ Hcore)).
  - intros Hc0. eapply post_of_core; try done. left.
    split_and!; try done. apply Hfound. by left.
  - intros d' Hd'. eexists MN, _, (child (T false l x r) d').
    split; [apply Hlx|]. split.
    + apply inv_shift; try done. simpl. split_and!.
      * by rewrite Hp.
      * rewrite frame_loc_cons. rewrite Hg.
        destruct (frame_loc ctx 1) eqn:E; [done|].
        destruct Ht as [->|Hlen]; [done|].
        unfold frame_loc in E. destruct ctx as [|? [|? ?]]; simpl in *; try done; lia.
      * intros F HF. by apply Hdir.
      * intros F [= <-]. simpl. destruct d'; simpl; [|done].
        by rewrite andb_comm.
      * intros F [= <-]. done.
    + pose proof (height_child (T false l x r) d' ltac:(done)). simpl in *. lia.
Qed.

Lemma core_focus_rb lx ctx tq s :
  ins_core h0 k lx ctx tq s -> no_red_red tq /\ balanced tq.
Proof.
  intros [_ Hn Hb]. split; [by eapply no_red_red_plug_sub | by eapply balanced_plug_sub].
Qed.

Lemma core_parent_red lx F1 rest tq s :
  ins_core h0 k lx (F1 :: rest) tq s -> fc F1 = true -> is_red_t tq = false.
Proof.
  intros [_ Hn _] Hc. simpl in Hn. apply no_red_red_plug_sub in Hn.
  unfold plug1 in Hn. apply no_red_red_mk in Hn as (Hn & _). by apply Hn.
Qed.

Lemma step_MD fuel ctx tq t g p q dir last s :
  loop_ok h0 l0 dup node k rt fuel -> root s = rt ->
  ins_inv h0 l0 dup node k MD ctx tq t g p q dir last s ->
  runs (insert_loop (S fuel) node t g p q dir last s)
    (ins_measure h0 k MD tq) (S fuel)
    (fun o s' => o = None /\ ins_post h0 l0 dup node k rt s').
Proof.
  intros IH Hroot Hinv.
  destruct (inv_node_lookup _ _ _ _ _ _ _ _ _ _ Hinv) as (nn & Hnn & Hknn).
  destruct Hinv as [Hcore Hnode Hsame Hkey Hq Hp Hdir Hrt Hdup
                      ((F1 & HF1 & Hc1) & l & x & r & e & -> & He & Hcalm) Hfound].
  destruct ctx as [|F1' rest]; [done|]. injection HF1 as ->.
  destruct (shape_focus _ _ _ _ _ _ _ _ _ (ic_shape _ _ _ _ _ _ Hcore)) as (nx & Hnx & Hcx & Hlx).
  pose proof (shape_focus_repr _ _ _ _ _ _ (ic_shape _ _ _ _ _ _ Hcore)) as Hrq.
  destruct (shape_parent _ _ _ _ _ _ _ (ic_shape _ _ _ _ _ _ Hcore)) as (np & Hnp & Hcp).
  destruct (core_focus_rb _ _ _ _ Hcore) as [(Hch & _ & _) _].
  destruct (Hch eq_refl) as [Hrl Hrr].
  rewrite insert_loop_S, Hq.
  rewrite (bind_ok _ _ _ _ _ (insert_visit_keep s node p dir _ Hrq ltac:(done)
             ltac:(simpl; by rewrite Hrl))).
  cbn [rootp].
  rewrite (bind_ok _ _ _ _ _ (insert_fix_none s t g p last (T true l x r) Hrq
             ltac:(right; right; exists (fx F1), np; rewrite Hp, Hcp; done))).
  apply cmp_dir_Some in He as He'. destruct He' as [Hne Hee].
  eapply (insert_tail h0 l0 dup node k rt fuel t g p x dir s nx nn); try done.
  - apply (is_data _ _ _ _ _ _ (ic_shape _ _ _ _ _ _ Hcore)).
  - intros d' Hd'. assert (d' = e) as -> by congruence.
    eexists MC, _, (child (T true l x r) e).
    split; [apply Hlx|]. split.
    + apply inv_shift; try done. simpl. split_and!; [by rewrite Hp | right; lia | done].
    + unfold ins_measure. rewrite <- Hee. lia.
Qed.

Lemma frame_loc_None ctx i : frame_loc ctx i = None -> frame_loc ctx (S i) = None.
Proof.
  unfold frame_loc. rewrite !fmap_None, !lookup_ge_None. lia.
Qed.

Lemma step_MN_keep fuel ctx c l x r t g p q dir last s :
  let tq := T c l x r in
  loop_ok h0 l0 dup node k rt fuel -> root s = rt ->
  ins_inv h0 l0 dup node k MN ctx tq t g p q dir last s ->
  is_red_t l && is_red_t r = false ->
  runs (insert_loop (S fuel) node t g p q dir last s)
    (ins_measure h0 k MN tq) (S fuel)
    (fun o s' => o = None /\ ins_post h0 l0 dup node k rt s').
Proof.
  intros tq IH Hroot Hinv Hnf. subst tq.
  destruct (inv_node_lookup _ _ _ _ _ _ _ _ _ _ Hinv) as (nn & Hnn & Hknn).
  destruct Hinv as [Hcore Hnode Hsame Hkey Hq Hp Hdir Hrt Hdup
                      (Hg & Ht & Hlast & HK & HI3) Hfound].
  destruct (shape_focus _ _ _ _ _ _ _ _ _ (ic_shape _ _ _ _ _ _ Hcore)) as (nx & Hnx & Hcx & Hlx).
  pose proof (shape_focus_repr _ _ _ _ _ _ (ic_shape _ _ _ _ _ _ Hcore)) as Hrq.
  assert (c = true -> exists F1 rest np, ctx = F1 :: rest /\ fc F1 = false /\
            heap s !! fx F1 = Some np /\ red np = false) as Hpar.
  { intros ->. destruct ctx as [|F1 rest]; [by destruct Hrt|].
    destruct (shape_parent _ _ _ _ _ _ _ (ic_shape _ _ _ _ _ _ Hcore)) as (np & Hnp & Hcp).
    exists F1, rest, np. split; [done|].
    destruct (fc F1) eqn:E.
    - by pose proof (core_parent_red _ _ _ _ _ Hcore E).
    - done. }
  rewrite insert_loop_S, Hq.
  rewrite (bind_ok _ _ _ _ _ (insert_visit_keep s node p dir _ Hrq ltac:(done) Hnf)).
  cbn [rootp].
  rewrite (bind_ok _ _ _ _ _ (insert_fix_none s t g p last (T c l x r) Hrq
    ltac:(destruct c; [right; right; destruct (Hpar eq_refl) as (F1 & rest & np & -> & ? & ? & ?);
                       exists (fx F1), np; by rewrite Hp
                      | by left]))).
  eapply (insert_tail h0 l0 dup node k rt fuel t g p x dir s nx nn); try done.
  - apply (is_data _ _ _ _ _ _ (ic_shape _ _ _ _ _ _ Hcore)).
  - intros Hc0. eapply post_of_core; try done. left.
    split_and!; try done. apply Hfound. by left.
  - intros d' Hd'. eexists MN, _, (child (T c l x r) d').
    split; [apply Hlx|]. split.
    + apply inv_shift; try done. simpl. split_and!.
      * by rewrite Hp.
      * rewrite frame_loc_cons. rewrite Hg, Ht.
        destruct (frame_loc ctx 1) eqn:E; [done|].
        by rewrite (frame_loc_None _ _ E).
      * intros F HF. by apply Hdir.
      * intros F [= <-]. simpl. destruct d'; simpl; [|done].
        by rewrite andb_comm.
      * intros F [= <-] Hc. simpl in Hc.
        destruct (Hpar Hc) as (F1 & rest & np & -> & ? & ? & ?).
        exists F1. split; [done|].
        specialize (HK F1 eq_refl). rewrite Hc in HK. done.
    + pose proof (height_child (T c l x r) d' ltac:(done)). simpl in *. lia.
Qed.

Lemma cmp_at_node s nn :
  heap s !! node = Some nn -> key (data nn) = k -> same_data h0 (heap s) ->
  cmp_at h0 k node = 0.
Proof.
  intros Hn Hk Hsd. rewrite <- (cmp_at_same_data h0 (heap s)) by done.
  unfold cmp_at. rewrite Hn, Hk, Z.sub_diag. done.
Qed.

Lemma reaches_mk_double d x F1 F2 Cd Cnd c1 c2 c3 :
  cmp_dir h0 k (fx F1) = Some (negb d) -> cmp_dir h0 k (fx F2) = Some d ->
  (cmp_dir h0 k x = Some d -> reaches h0 k Cd) ->
  (cmp_dir h0 k x = Some (negb d) -> reaches h0 k Cnd) ->
  reaches h0 k (mk d c1 x (mk d c2 (fx F1) (fsib F1) Cd)
                          (mk d c3 (fx F2) Cnd (fsib F2))).
Proof.
  intros (Hn1 & Hd1)%cmp_dir_Some (Hn2 & Hd2)%cmp_dir_Some H1 H2.
  destruct (Z.eq_dec (cmp_at h0 k x) 0) as [Hx|Hx].
  { destruct d; simpl; by left. }
  assert (cmp_dir h0 k x = Some (cmp_at h0 k x <? 0)) as Hcx by (by apply cmp_dir_Some).
  destruct d, (cmp_at h0 k x <? 0) eqn:E; simpl in *; right; (split; [done|]);
    rewrite E; right; (split; [done|]);
    rewrite <- ?Hd1, <- ?Hd2; auto.
Qed.

Lemma reaches_mk_double_inv d x F1 F2 Cd Cnd c1 c2 c3 :
  cmp_dir h0 k (fx F1) = Some (negb d) -> cmp_dir h0 k (fx F2) = Some d ->
  reaches h0 k (mk d c1 x (mk d c2 (fx F1) (fsib F1) Cd)
                          (mk d c3 (fx F2) Cnd (fsib F2))) ->
  cmp_at h0 k x = 0 \/
  (cmp_dir h0 k x = Some d /\ reaches h0 k Cd) \/
  (cmp_dir h0 k x = Some (negb d) /\ reaches h0 k Cnd).
Proof.
  intros (Hn1 & Hd1)%cmp_dir_Some (Hn2 & Hd2)%cmp_dir_Some Hre.
  destruct (Z.eq_dec (cmp_at h0 k x) 0) as [Hx|Hx]; [by left|right].
  assert (cmp_dir h0 k x = Some (cmp_at h0 k x <? 0)) as Hcx by (by apply cmp_dir_Some).
  destruct d, (cmp_at h0 k x <? 0) eqn:E; simpl in *;
    (destruct Hre as [?|[_ Hre]]; [done|]); rewrite ?E in Hre;
    (destruct Hre as [?|[_ Hre]]; [done|]);
    rewrite <- ?Hd1, <- ?Hd2 in Hre; auto.
Qed.

Lemma node_lookup_data h :
  same_data h0 h -> (fun n => key (data n)) <$> h0 !! node = Some k ->
  exists nn, h !! node = Some nn /\ key (data nn) = k.
Proof.
  intros Hsd Hk. destruct (h0 !! node) as [n0|] eqn:E; [|done].
  destruct (same_data_lookup _ _ _ _ Hsd E) as (nn & Hnn & Hd).
  exists nn. split; [done|]. simpl in Hk. injection Hk as <-. by rewrite Hd.
Qed.

Lemma ins_measure_MD t e x :
  rootp t = Some x -> (cmp_at h0 k x <? 0) = e ->
  ins_measure h0 k MD t = (2 * height (child t e) + 1)%nat.
Proof. destruct t; simpl; [done|]. intros [= ->] <-. done. Qed.

(** The rest of an iteration after [insert_visit] left a red node in [q]:
    no rotation below a black parent, else a single or a double rotation,
    then the comparison. *)
Lemma step_after_visit fuel ctx tq l1 x r1 t g p dir last s1 lx1 bound :
  let tq1 := T true l1 x r1 in
  (forall d', cmp_dir h0 k x = Some d' -> (2 * height tq1 + 1 <= bound)%nat) ->
  loop_ok h0 l0 dup node k rt fuel -> root s1 = rt ->
  ins_shape h0 k lx1 ctx tq1 s1 ->
  no_red_red (plug ctx tq) -> balanced (plug ctx tq) ->
  no_red_red tq1 -> balanced tq1 -> bh tq1 = bh tq -> is_red_t tq = false ->
  (fun n => key (data n)) <$> h0 !! node = Some k ->
  (lx1 = l0 /\ heap s1 !! node = h0 !! node /\
     node ∉ slocs (plug (ctx ++ [head_frame]) tq1) /\
     (cmp_at h0 k x = 0 -> dup) \/
   x = node /\ ~ dup /\ exists l1 l2, l0 = l1 ++ l2 /\ lx1 = l1 ++ node :: l2 /\
                                  hole_split h0 k l1 l2) ->
  (forall d', cmp_dir h0 k x = Some d' ->
     calm (child tq1 d') /\ (dup <-> reaches h0 k (child tq1 d'))) ->
  p = frame_loc ctx 0 -> (forall F, ctx !! 0%nat = Some F -> dir = fd F) ->
  ins_mode_inv h0 k MN ctx tq t g last ->
  runs (bind (insert_fix t g p (Some x) last) (fun _ =>
          bind (node_cmp x node) (fun cmp =>
            if cmp =? 0 then ret None
            else bind (node_cmp x node) (fun cmp =>
                   bind (get_link x (cmp <? 0)) (fun q' =>
                     insert_loop fuel node
                       (match g with Some gl => gl | None => t end) p (Some x) q'
                       (cmp <? 0) dir)))) s1)
       bound (S fuel)
       (fun o s' => o = None /\ ins_post h0 l0 dup node k rt s').
Proof.
  intros tq1 Hbound IH Hroot Hsh Hn Hb Hn1 Hb1 Hbh Hblk Hkey Hord Hcalm Hp Hdir
         (Hg & Ht & Hlast & HK & HI3).
  assert (forall ctx2 tq2 s2,
    ins_core h0 k lx1 ctx2 tq2 s2 -> tq2 <> Leaf -> root s2 = rt ->
    (node ∉ slocs (plug (ctx ++ [head_frame]) tq1) ->
     heap s2 !! node = heap s1 !! node) ->
    slocs (plug (ctx2 ++ [head_frame]) tq2) = slocs (plug (ctx ++ [head_frame]) tq1) ->
    cmp_at h0 k x = 0 -> ins_post h0 l0 dup node k rt s2) as Hpost.
  { intros ctx2 tq2 s2 Hcore2 Hne2 Hroot2 Hnode2 Hsl2 Hc0.
    eapply post_of_core; try done.
    destruct Hord as [(-> & ? & ? & Hfd)|(_ & ? & ?)]; [left|right; done].
    split_and!; [done | by rewrite Hnode2 | by rewrite Hsl2 | by apply Hfd]. }
  assert (forall d', cmp_dir h0 k x = Some d' ->
    lx1 = l0 /\ heap s1 !! node = h0 !! node /\
    node ∉ slocs (plug (ctx ++ [head_frame]) tq1)) as Hord'.
  { intros d' (Hne & _)%cmp_dir_Some.
    destruct Hord as [(? & ? & ? & _)|(-> & _)]; [done|].
    destruct Hne.
    destruct (node_lookup_data _ (is_data _ _ _ _ _ _ Hsh) Hkey) as (nn & ? & ?).
    eapply cmp_at_node; try done. apply Hsh. }
  assert (forall d', cmp_dir h0 k x = Some d' -> dup -> reaches h0 k tq1) as Hreach.
  { intros d' Hd' Hdup. destruct (cmp_dir_Some h0 k x d') as [Hcd _].
    destruct (Hcd Hd') as [Hne ->]. simpl. right. split; [done|].
    destruct (Hcalm _ Hd') as [_ [Hre _]]. specialize (Hre Hdup).
    by destruct (cmp_at h0 k x <? 0). }
  assert (forall d', cmp_dir h0 k x = Some d' -> reaches h0 k tq1 -> dup) as Hfound.
  { intros d' Hd' Hre. apply (Hcalm _ Hd'). by apply reaches_child. }
  destruct ctx as [|F1 rest].
  { (* the root was flipped *)
    pose proof (shape_focus_repr _ _ _ _ _ _ Hsh) as Hrq.
    rewrite (bind_ok _ _ _ _ _ (insert_fix_none s1 t g p last tq1 Hrq
               ltac:(right; left; by rewrite Hp))).
    destruct (shape_focus _ _ _ _ _ _ _ _ _ Hsh) as (nx & Hnx & Hcx & Hlx).
    destruct (node_lookup_data _ (is_data _ _ _ _ _ _ Hsh) Hkey) as (nn & Hnn & Hknn).
    assert (ins_core h0 k lx1 [] tq1 s1) as Hcore1 by (by split).
    eapply (insert_tail h0 l0 dup node k rt fuel t g p x dir s1 nx nn); try done.
    - apply Hsh.
    - by apply (Hpost [] tq1 s1).
    - intros d' Hd'. destruct (Hord' d' Hd') as (-> & Hns & Hnin).
      destruct (Hcalm d' Hd') as [Hc Hre].
      eexists MC, _, (child tq1 d'). split; [apply Hlx|]. split.
      + apply inv_shift; try done; [by apply (Hreach d')| |by apply (Hfound d')].
        simpl. split_and!; [by rewrite Hp | | done].
        left. rewrite Hg, Ht. done.
      + pose proof (height_child tq1 d' ltac:(done)).
        specialize (Hbound d' Hd'). simpl in *. lia. }
  destruct (shape_parent _ _ _ _ _ _ _ Hsh) as (np & Hnp & Hcp).
  destruct (fc F1) eqn:Hc1.
  2: { (* black parent: no rotation *)
    pose proof (shape_focus_repr _ _ _ _ _ _ Hsh) as Hrq.
    rewrite (bind_ok _ _ _ _ _ (insert_fix_none s1 t g p last tq1 Hrq
               ltac:(right; right; exists (fx F1), np; by rewrite Hp))).
    destruct (shape_focus _ _ _ _ _ _ _ _ _ Hsh) as (nx & Hnx & Hcx & Hlx).
    destruct (node_lookup_data _ (is_data _ _ _ _ _ _ Hsh) Hkey) as (nn & Hnn & Hknn).
    assert (ins_core h0 k lx1 (F1 :: rest) tq1 s1) as Hcore1.
    { split; [done| |];
        apply (rb_plug_replace_black (F1 :: rest) tq tq1); try done;
        intros F [= <-]; done. }
    eapply (insert_tail h0 l0 dup node k rt fuel t g p x dir s1 nx nn); try done.
    - apply Hsh.
    - by apply (Hpost (F1 :: rest) tq1 s1).
    - intros d' Hd'. destruct (Hord' d' Hd') as (-> & Hns & Hnin).
      destruct (Hcalm d' Hd') as [Hc Hre].
      eexists MC, _, (child tq1 d'). split; [apply Hlx|]. split.
      + apply inv_shift; try done; [by apply (Hreach d')| |by apply (Hfound d')].
        simpl. split_and!; [by rewrite Hp | right; lia | done].
      + pose proof (height_child tq1 d' ltac:(done)).
        specialize (Hbound d' Hd'). simpl in *. lia. }
  (* red parent: a rotation *)
  destruct (HI3 F1 eq_refl Hc1) as (F2 & HF2 & Hu).
  destruct rest as [|F2' rest']; [done|]. injection HF2 as ->.
  destruct (rb_fix_facts F1 F2 rest' tq Hn Hb Hc1 Hu)
    as (Hc2 & HA & HnA & HnU & HbA & HbU & HbhA & HbhU & HbhG & _).
  specialize (Hlast F2 eq_refl). specialize (Hdir F1 eq_refl).
  assert (cmp_dir h0 k (fx F1) = Some (fd F1) /\ cmp_dir h0 k (fx F2) = Some (fd F2))
    as [Hcmp1 Hcmp2].
  { pose proof (is_path _ _ _ _ _ _ Hsh) as HP.
    inversion HP as [|? ? HP1 HP2]; subst. inversion HP2; subst. done. }
  cbn in Hg, Ht, Hp. subst g p t last.
  destruct (decide (fd F1 = fd F2)) as [Hd12|Hd12].
  - (* single rotation *)
    destruct (shape_single h0 k lx1 F1 F2 rest' tq1 s1 Hsh Hc1 Hc2 Hd12 eq_refl)
      as (s2 & Hrun & Hroot2 & Hsh2 & Hso & Hsl).
    rewrite (bind_ok _ _ _ _ _ Hrun).
    destruct (shape_focus _ _ _ _ _ _ _ _ _ Hsh2) as (nx & Hnx & Hcx & Hlx).
    destruct (node_lookup_data _ (is_data _ _ _ _ _ _ Hsh2) Hkey) as (nn & Hnn & Hknn).
    match type of Hsh2 with ins_shape _ _ _ (?F :: _) _ _ => set (F1' := F) in * end.
    assert (ins_core h0 k lx1 (F1' :: rest') tq1 s2) as Hcore2.
    { split; [done| |]; by apply (rb_fix_single F1 F2 rest' tq Hn Hb Hc1 Hu tq1). }
    eapply (insert_tail h0 l0 dup node k rt fuel Head (Some (fx F2)) (Some (fx F1))
              x dir s2 nx nn); try done.
    + apply Hsh2.
    + congruence.
    + apply (Hpost (F1' :: rest') tq1 s2); try done; [congruence|].
      intros Hnin. by apply Hso.
    + intros d' Hd'. destruct (Hord' d' Hd') as (-> & Hns & Hnin).
      destruct (Hcalm d' Hd') as [Hc Hre].
      eexists MC, _, (child tq1 d'). split; [apply Hlx|]. split.
      * apply inv_shift; try done.
        -- fold tq1. by rewrite Hsl.
        -- rewrite <- Hns. by apply Hso.
        -- by apply (Hreach d').
        -- simpl. split_and!; [done | right; lia | done].
        -- by apply (Hfound d').
      * pose proof (height_child tq1 d' ltac:(done)).
        specialize (Hbound d' Hd'). simpl in *. lia.
  - (* double rotation *)
    assert (fd F1 = negb (fd F2)) as Hd12' by (by destruct (fd F1), (fd F2)).
    set (d := fd F2) in *.
    assert (tq1 = mk d true x (child tq1 d) (child tq1 (negb d))) as Htq1.
    { unfold tq1. apply mk_child. }
    rewrite Htq1 in Hsh, Hn1, Hb1, Hbh.
    destruct (shape_double h0 k lx1 F1 F2 rest' x (child tq1 d) (child tq1 (negb d))
                s1 Hsh Hc1 Hc2 Hd12')
      as (s2 & Hrun & Hroot2 & Hsh2 & Hso & Hsl).
    rewrite (bind_ok _ _ _ _ _ Hrun).
    fold d in Hsh2, Hsl, Hso.
    destruct (rb_fix_double F1 F2 rest' tq Hn Hb Hc1 Hu x _ _ Hn1 Hb1 Hbh) as [Hn2 Hb2].
    fold d in Hn2, Hb2.
    match type of Hsh2 with ins_shape _ _ _ _ ?Q _ => set (Q' := Q) in * end.
    assert (ins_core h0 k lx1 rest' Q' s2) as Hcore2 by (by split).
    destruct (node_lookup_data _ (is_data _ _ _ _ _ _ Hsh2) Hkey) as (nn & Hnn & Hknn).
    assert (exists lq rq nx, Q' = T false lq x rq /\ heap s2 !! x = Some nx /\
              forall d', link nx d' = rootp (child Q' d')) as (lq & rq & nx & HQ & Hnx & Hlx).
    { assert (exists lq rq, Q' = T false lq x rq) as (lq & rq & HQ)
        by (unfold Q', mk; destruct d; eauto).
      rewrite HQ in Hsh2.
      destruct (shape_focus _ _ _ _ _ _ _ _ _ Hsh2) as (nx & Hnx & Hcx & Hlx).
      exists lq, rq, nx. rewrite HQ. done. }
    eapply (insert_tail h0 l0 dup node k rt fuel Head (Some (fx F2)) (Some (fx F1))
              x dir s2 nx nn); try done.
    + apply Hsh2.
    + congruence.
    + apply (Hpost rest' Q' s2); try done.
      * by rewrite HQ.
      * congruence.
      * intros Hnin. apply Hso. by rewrite <- Htq1.
      * rewrite Hsl. by rewrite <- Htq1.
    + intros d' Hd'. destruct (Hord' d' Hd') as (-> & Hns & Hnin).
      eexists MD, _, (child Q' d'). split; [apply Hlx|]. split.
      * rewrite HQ. apply inv_shift; rewrite <- ?HQ; try done.
        -- rewrite Hsl. by rewrite <- Htq1.
        -- rewrite <- Hns. apply Hso. by rewrite <- Htq1.
        -- intros Hdup. unfold Q'. apply reaches_mk_double.
           ++ fold d. by rewrite <- Hd12'.
           ++ done.
           ++ intros Hx. by apply (Hcalm d Hx).
           ++ intros Hx. by apply (Hcalm (negb d) Hx).
        -- simpl. split; [eauto|].
           destruct (decide (d' = d)) as [->|Hdd].
           ++ unfold Q'. rewrite child_mk.
              assert (exists l r, mk d true (fx F1) (fsib F1) (child tq1 d)
                                  = T true l (fx F1) r) as (l & r & E)
                by (unfold mk; destruct d; eauto).
              exists l, (fx F1), r, (negb d). rewrite <- E, <- Hd12'.
              split_and!; [done | done |].
              rewrite Hd12', child_mk_negb. by apply (Hcalm d).
           ++ assert (d' = negb d) as -> by (by destruct d', d).
              unfold Q'. rewrite child_mk_negb.
              assert (exists l r, mk d true (fx F2) (child tq1 (negb d)) (fsib F2)
                                  = T true l (fx F2) r) as (l & r & E)
                by (unfold mk; destruct d; eauto).
              exists l, (fx F2), r, d. rewrite <- E.
              split_and!; [done | done |].
              rewrite child_mk. by apply (Hcalm (negb d)).
        -- intros Hre. unfold Q' in Hre.
           apply reaches_mk_double_inv in Hre; [| by fold d; rewrite <- Hd12' | done].
           destruct Hre as [Hx|[[Hx Hre]|[Hx Hre]]].
           ++ destruct Hord as [(_ & _ & _ & Hfd)|(_ & Hnd & _)]; [by apply Hfd|].
              by apply cmp_dir_Some in Hd' as [? _].
           ++ by apply (Hcalm d Hx).
           ++ by apply (Hcalm (negb d) Hx).
      * apply cmp_dir_Some in Hcmp1 as [_ Hcmp1]. apply cmp_dir_Some in Hcmp2 as [_ Hcmp2].
        destruct (decide (d' = d)) as [->|Hdd].
        -- unfold Q'. rewrite child_mk.
           rewrite (ins_measure_MD _ (negb d) (fx F1));
             [|by rewrite rootp_mk|by rewrite <- Hcmp1].
           rewrite child_mk_negb.
           pose proof (height_child tq1 d ltac:(done)).
           specialize (Hbound d Hd'). simpl in *. lia.
        -- assert (d' = negb d) as -> by (by destruct d', d).
           unfold Q'. rewrite child_mk_negb.
           rewrite (ins_measure_MD _ d (fx F2));
             [|by rewrite rootp_mk|by rewrite <- Hcmp2].
           rewrite child_mk.
           pose proof (height_child tq1 (negb d) ltac:(done)).
           specialize (Hbound (negb d) Hd'). simpl in *. lia.
Qed.

Lemma cmp_at_node0 :
  (fun n => key (data n)) <$> h0 !! node = Some k -> cmp_at h0 k node = 0.
Proof.
  unfold cmp_at. destruct (h0 !! node) as [n0|]; [|done].
  intros [= ->]. by rewrite Z.sub_diag.
Qed.

Lemma step_MN_flip fuel ctx c l x r t g p q dir last s :
  let tq := T c l x r in
  loop_ok h0 l0 dup node k rt fuel -> root s = rt ->
  ins_inv h0 l0 dup node k MN ctx tq t g p q dir last s ->
  is_red_t l && is_red_t r = true ->
  runs (insert_loop (S fuel) node t g p q dir last s)
    (ins_measure h0 k MN tq) (S fuel)
    (fun o s' => o = None /\ ins_post h0 l0 dup node k rt s').
Proof.
  intros tq IH Hroot Hinv Hf. subst tq.
  destruct Hinv as [Hcore Hnode Hsame Hkey Hq Hp Hdir Hrt Hdup Hmode Hfound].
  destruct (core_focus_rb _ _ _ _ Hcore) as [Hnq Hbq].
  apply andb_true_iff in Hf as [Hrl Hrr].
  assert (c = false) as ->.
  { destruct c; [|done]. destruct Hnq as (Hc & _). destruct (Hc eq_refl). congruence. }
  destruct (flip_facts l x r Hrl Hrr Hnq Hbq)
    as (Hn1 & Hb1 & Hbh1 & _ & _ & _ & _ & Hcalm0 & Hcalm1).
  destruct (shape_flip h0 k l0 ctx (T false l x r) s node p dir
              (ic_shape _ _ _ _ _ _ Hcore) ltac:(simpl; by rewrite Hrl, Hrr))
    as (s1 & Hrun & Hroot1 & Hsh1 & Hso & Hsl).
  cbn [flip] in Hsh1, Hsl.
  rewrite insert_loop_S, Hq, (bind_ok _ _ _ _ _ Hrun). cbn [rootp].
  apply (step_after_visit fuel ctx (T false l x r) (blacken l) x (blacken r)
           t g p dir last s1 l0); try done.
  - intros _ _. simpl. rewrite !height_blacken. lia.
  - congruence.
  - apply Hcore.
  - apply Hcore.
  - left. split_and!; [done | | by rewrite Hsl | intros Hc0; apply Hfound; by left].
    rewrite <- Hsame. by apply Hso.
  - intros d' Hd'. split.
    + destruct d'; [apply Hcalm1 | apply Hcalm0].
    + split.
      * intros Hd. pose proof (reaches_child _ _ _ _ _ _ _ (Hdup Hd) Hd') as Hre.
        destruct d'; simpl in *; by apply reaches_blacken.
      * intros Hre. apply Hfound. apply (reaches_child_inv _ _ _ _ _ _ d'); [done|].
        destruct d'; simpl in *; exact (proj1 (reaches_blacken _ _ _) Hre).
Qed.

Lemma step_MN_new fuel ctx t g p q dir last s :
  loop_ok h0 l0 dup node k rt fuel -> root s = rt ->
  ins_inv h0 l0 dup node k MN ctx Leaf t g p q dir last s ->
  runs (insert_loop (S fuel) node t g p q dir last s)
    (ins_measure h0 k MN Leaf) (S fuel)
    (fun o s' => o = None /\ ins_post h0 l0 dup node k rt s').
Proof.
  intros IH Hroot Hinv.
  destruct (inv_node_lookup _ _ _ _ _ _ _ _ _ _ Hinv) as (nn & Hnn & Hknn).
  destruct Hinv as [Hcore Hnode Hsame Hkey Hq Hp Hdir Hrt Hdup Hmode Hfound].
  destruct ctx as [|F1 rest]; [by destruct Hrt|].
  destruct (shape_new h0 k l0 F1 rest s node nn (ic_shape _ _ _ _ _ _ Hcore) Hnode Hnn)
    as (s1 & Hrun & Hroot1 & la & lb & Hl0 & Hhole & Hsh1).
  cbn in Hp. rewrite insert_loop_S, Hq, Hp, (Hdir F1 eq_refl), (bind_ok _ _ _ _ _ Hrun).
  pose proof (cmp_at_node0 Hkey) as Hcmp0.
  assert (forall d', cmp_dir h0 k node = Some d' -> False) as Hno.
  { intros d' (Hne & _)%cmp_dir_Some. done. }
  rewrite <- (Hdir F1 eq_refl).
  apply (step_after_visit fuel (F1 :: rest) Leaf Leaf node Leaf
           t g (Some (fx F1)) dir last s1 (la ++ node :: lb)); try done.
  - intros d' Hd'. by destruct (Hno d').
  - congruence.
  - apply Hcore.
  - apply Hcore.
  - right. split_and!; [done | | eauto]. intros Hd. by apply Hdup in Hd.
  - intros d' Hd'. by destruct (Hno d').
Qed.

(** Every state that satisfies the invariant runs one more iteration. *)
Lemma insert_loop_spec fuel : loop_ok h0 l0 dup node k rt fuel.
Proof.
  induction fuel as [|fuel IH]; intros m ctx tq t g p q dir last s Hroot Hinv.
  { simpl. split; [done | lia]. }
  destruct m.
  - destruct tq as [|c l x r].
    + by apply (step_MN_new fuel ctx).
    + destruct (is_red_t l && is_red_t r) eqn:E.
      * by apply (step_MN_flip fuel ctx).
      * by apply (step_MN_keep fuel ctx).
  - by apply (step_MC fuel ctx).
  - by apply (step_MD fuel ctx).
Qed.

End insert_steps.

(** ** [jsw_rbinsert] *)

Lemma wf_head t : wf t -> Head ∉ slocs t -> wf (plug [head_frame] t).
Proof. intros. simpl. split_and!; try done; set_solver. Qed.

Lemma holds_blacken_root rt h t x n :
  repr h (plug [head_frame] t) -> wf (plug [head_frame] t) ->
  rootp t = Some x -> h !! x = Some n -> rt = rootp t ->
  holds {| root := rt; heap := <[x := with_red false n]> (delete Head h) |}
        (blacken t).
Proof.
  intros Hr Hwf Hx Hn ->. destruct t as [|c l y r]; [done|].
  simpl in Hx. injection Hx as ->. simpl in Hr, Hwf.
  destruct Hr as (_ & _ & (n' & Hn' & Hc & H0 & H1) & Hl & Hr).
  destruct Hwf as (_ & Hh & _ & _ & Hxl & Hxr & Hd & Hwl & Hwr).
  rewrite Hn in Hn'. injection Hn' as <-.
  assert (Head <> x /\ Head ∉ slocs l /\ Head ∉ slocs r) as (? & ? & ?) by set_solver.
  split_and!; simpl; try done. split_and!.
  - eexists. split; [rewrite lookup_insert_eq; reflexivity|]. simpl. done.
  - apply repr_insert_notin; [done|]. by apply repr_delete_notin.
  - apply repr_insert_notin; [done|]. by apply repr_delete_notin.
Qed.

Lemma reaches_agree h h' k t :
  (forall x, x ∈ slocs t -> h' !! x = h !! x) -> reaches h k t -> reaches h' k t.
Proof.
  induction t as [|c l IHl x r IHr]; simpl; [done|]. intros Hag.
  assert (cmp_at h' k x = cmp_at h k x) as ->.
  { unfold cmp_at. rewrite Hag by set_solver. done. }
  intros [?|[? Hre]]; [by left|]. right. split; [done|].
  destruct (cmp_at h k x <? 0); [apply IHr | apply IHl]; try done;
    intros; apply Hag; set_solver.
Qed.

Lemma jsw_rbinsert_spec fuel s t node nn :
  holds s t -> rb_inv t ->
  heap s !! node = Some nn -> node ∉ slocs t -> node <> Head ->
  runs (jsw_rbinsert fuel node s) (2 * height t + 1) fuel
       (insert_result s t node (key (data nn))).
Proof.
  intros (Hroot & Hr & Hwf & Hh) (Hblk & Hn & Hb) Hnn Hnin Hnh.
  destruct s as [rt h]. simpl in *. subst rt.
  destruct t as [|c l x r].
  - (* empty tree *)
    unfold jsw_rbinsert. munfold. mrun. cbn. rewrite !insert_insert_eq.
    split; [done|]. exists (T false Leaf node Leaf).
    refine (conj _ (conj _ (conj _ _))); [|done| |].
    + refine (conj _ (conj _ (conj _ _))); simpl; [done| |done|set_solver].
      split_and!; try done. eexists. split; [by rewrite lookup_insert_eq|done].
    + intros y Hy. cbn [heap]. destruct (decide (y = node)) as [->|?].
      * by rewrite lookup_insert_eq, Hnn.
      * by rewrite lookup_insert_ne.
    + right. split; [by intros []|]. exists [], [].
      split_and!; [done.. |]. by exists [].
  - (* the loop *)
    cbn [rootp].
    set (h0 := <[Head := {| red := false; link0 := None; link1 := Some x;
                            data := {| key := 0 |} |}]> h).
    set (s0 := {| root := Some x; heap := h0 |}).
    assert (jsw_rbinsert fuel node {| root := Some x; heap := h |} =
      bind (insert_loop fuel node Head None None (Some x) false false) (fun out =>
        bind (match out with
              | Some z => bind leave_head (fun _ => ret (Some z))
              | None => bind (get_link Head true) (fun h1 =>
                          bind (set_root h1) (fun _ => bind leave_head (fun _ => ret None)))
              end) (fun early =>
          match early with
          | Some z => ret z
          | None => bind get_root (fun r => bind (deref r) (fun rl =>
                      bind (set_red rl false) (fun _ => ret 1)))
          end)) s0) as ->.
    { unfold jsw_rbinsert, enter_head. munfold. cbn.
      rewrite lookup_insert_eq. cbn. rewrite insert_insert_eq.
      unfold s0, h0. by destruct (insert_loop _ _ _ _ _ _ _ _ _). }
    assert (ins_inv h0 (locs (T c l x r)) (reaches h0 (key (data nn)) (T c l x r))
              node (key (data nn)) MN [] (T c l x r) Head None None (Some x)
              false false s0) as Hinv.
    { assert (node ∉ slocs (plug [head_frame] (T c l x r))) by (simpl; set_solver).
      split; try done.
      - split; [split| |]; try done.
        + destruct Hr as ((n & Hx & ?) & Hl & Hrr).
          simpl. split_and!; try done.
          * eexists. unfold h0. rewrite lookup_insert_eq. done.
          * exists n. unfold h0. rewrite lookup_insert_ne by set_solver. done.
          * apply repr_insert_notin; [set_solver | done].
          * apply repr_insert_notin; [set_solver | done].
      - simpl. unfold h0. rewrite lookup_insert_ne by done. by rewrite Hnn. }
    pose proof (insert_loop_spec h0 _ _ node _ (Some x) fuel
                  MN [] _ Head None None (Some x) false false s0 eq_refl Hinv) as Hloop.
    eapply runs_bind; [exact Hloop|].
    intros o s' (-> & t' & Hroot' & Hr' & Hwf' & Hne' & Hn' & Hb' & Hsd' & Hord).
    destruct s' as [rt' h']. cbn [root heap] in *. subst rt'.
    destruct t' as [|c' l' x' r']; [done|].
    pose proof Hr' as Hr''. pose proof Hwf' as Hwf''.
    simpl in Hr', Hwf'.
    destruct Hr' as ((nH & HnH & _ & _ & HH1) & _ & (nx' & Hnx' & Hrest) & Hl' & Hrr').
    destruct Hwf' as (_ & Hh' & _ & _ & Hwt').
    cbn [rootp slocs] in *.
    assert (x' <> Head) as Hxh by set_solver.
    assert (bind (bind (get_link Head true) (fun h1 =>
              bind (set_root h1) (fun _ => bind leave_head (fun _ => ret None))))
            (fun early : option Z =>
               match early with
               | Some z => ret z
               | None => bind get_root (fun r => bind (deref r) (fun rl =>
                           bind (set_red rl false) (fun _ => ret 1)))
               end) {| root := Some x; heap := h' |}
            = Ok 1 {| root := Some x';
                      heap := <[x' := with_red false nx']> (delete Head h') |}) as ->.
    { unfold leave_head. munfold. cbn [heap root]. rewrite HnH. cbn.
      rewrite HH1. cbn. rewrite lookup_delete_ne by done. rewrite Hnx'. done. }
    cbn [runs]. split; [done|].
    exists (blacken (T c' l' x' r')). refine (conj _ (conj _ (conj _ _))).
    + apply (holds_blacken_root _ h' (T c' l' x' r') x' nx'); done.
    + split_and!; [done | by apply no_red_red_blacken | by apply balanced_blacken].
    + intros y Hy. cbn [heap]. specialize (Hsd' y). unfold h0 in Hsd'.
      rewrite lookup_insert_ne in Hsd' by done. rewrite <- Hsd'.
      destruct (decide (y = x')) as [->|Hne].
      * rewrite lookup_insert_eq, Hnx'. done.
      * rewrite lookup_insert_ne, lookup_delete_ne by done. done.
    + destruct Hord as [(Hl0 & Hns & Hnin' & Hdup)|(Hnd & la & lb & Hl1 & Hl2 & Hhs)].
      * left. split.
        { eapply reaches_agree; [|exact Hdup].
          intros y Hy. unfold h0. symmetry. apply lookup_insert_ne. set_solver. }
        split; [done|]. cbn [heap].
        rewrite lookup_insert_ne by set_solver.
        rewrite lookup_delete_ne by done. rewrite Hns. unfold h0.
        by rewrite lookup_insert_ne.
      * right. split.
        -- intros Hre. apply Hnd. eapply reaches_agree; [|exact Hre].
          intros y Hy. unfold h0. apply lookup_insert_ne. set_solver.
        -- exists la, lb. split_and!; [done.. |].
           apply (hole_split_agree h0); [|done].
           intros y Hy. rewrite <- Hl1 in Hy. apply elem_of_locs in Hy.
           unfold h0. symmetry. apply lookup_insert_ne. set_solver.
Qed.

(** ** Trees under the steps of the erasure loop *)

Lemma locs_wf t t' : locs t' = locs t -> wf t -> wf t' /\ slocs t' = slocs t.
Proof.
  intros Hl Hwf. split.
  - apply NoDup_locs. rewrite Hl. by apply NoDup_locs.
  - apply set_eq. intros x. by rewrite <- !elem_of_locs, Hl.
Qed.

(** A part [W] of the tree is rebuilt as [W'] by writes inside it. *)
Lemma window_replace h0 h h' cf W W' :
  repr h (plug cf W) -> wf (plug cf W) -> same_data h0 h ->
  repr h' W' -> rootp W' = rootp W -> locs W' = locs W ->
  same_outside (slocs W) h h' -> same_data h h' ->
  repr h' (plug cf W') /\ wf (plug cf W') /\ same_data h0 h' /\
  slocs (plug cf W') = slocs (plug cf W).
Proof.
  intros Hr Hwf Hd0 Hr' Hroot Hl Hso Hsd.
  destruct (locs_wf W W' Hl (wf_plug_sub _ _ Hwf)) as [Hwf' Hsl].
  split_and!.
  - eapply repr_plug_replace; try done. intros x _ Hx. by apply Hso.
  - eapply wf_plug_replace; try done. by rewrite Hsl.
  - by eapply same_data_trans.
  - by apply slocs_plug_congr.
Qed.

Lemma rb_replace_top rest W W' :
  no_red_red (plug rest W) -> balanced (plug rest W) ->
  no_red_red W' -> balanced W' ->
  (rest = [] \/ bh W' = bh W /\ (is_red_t W' = true -> is_red_t W = true)) ->
  no_red_red (plug rest W') /\ balanced (plug rest W').
Proof.
  intros Hn Hb Hn' Hb' [->|[Hbh Hred]]; [done|].
  by apply (rb_plug_replace' rest W W').
Qed.

Ltac rb_local :=
  unfold mk in *; cbn [no_red_red balanced is_red_t bh locs] in *;
  destruct_all;
  repeat match goal with
  | H : true = true -> _ |- _ => specialize (H eq_refl)
  | H : false = true -> _ |- _ => clear H
  end;
  destruct_all.

Lemma rot_q_rb d q r Cd Rd Rn :
  let Q := mk d false q Cd (mk d true r Rd Rn) in
  let W' := mk d false r (mk d true q Cd Rd) Rn in
  no_red_red Q -> balanced Q -> is_red_t Cd = false ->
  no_red_red W' /\ balanced W' /\ bh W' = bh Q /\
  is_red_t W' = false /\ locs W' = locs Q.
Proof.
  intros Q W' Hn Hb Hc. subst Q W'.
  destruct d; rb_local; split_and!; try done; try lia; list_assoc.
Qed.

Lemma flip_rb last d cp P q x Cd Cnd Sl Sr :
  let TP := mk last cp P (mk d false q Cd Cnd) (T false Sl x Sr) in
  let TP' := mk last false P (mk d true q Cd Cnd) (T true Sl x Sr) in
  no_red_red TP -> balanced TP ->
  is_red_t Cd = false -> is_red_t Cnd = false ->
  is_red_t Sl = false -> is_red_t Sr = false ->
  no_red_red TP' /\ balanced TP' /\ (cp = true -> bh TP' = bh TP) /\
  is_red_t TP' = false /\ locs TP' = locs TP.
Proof.
  intros TP TP' Hn Hb Hc1 Hc2 Hc3 Hc4. subst TP TP'.
  destruct d, last; rb_local; split_and!; try done; try lia;
    try (intros ->; simpl; lia).
Qed.

Lemma single_rb last d cp P q x n Cd Cnd M Nl Nr :
  let TP := mk last cp P (mk d false q Cd Cnd)
              (mk last false x M (T true Nl n Nr)) in
  let TP' := mk last true x (mk last false P (mk d true q Cd Cnd) M)
               (T false Nl n Nr) in
  no_red_red TP -> balanced TP ->
  is_red_t Cd = false -> is_red_t Cnd = false -> is_red_t M = false ->
  no_red_red TP' /\ balanced TP' /\ (cp = true -> bh TP' = bh TP) /\
  locs TP' = locs TP.
Proof.
  intros TP TP' Hn Hb Hc1 Hc2 Hc3. subst TP TP'.
  destruct d, last; rb_local; split_and!; try done; try lia;
    try (intros ->; simpl; lia); list_assoc.
Qed.

Lemma double_rb last d cp P q x m Cd Cnd Ma Mb N :
  let TP := mk last cp P (mk d false q Cd Cnd)
              (mk last false x (mk last true m Ma Mb) N) in
  let TP' := mk last true m (mk last false P (mk d true q Cd Cnd) Ma)
               (mk last false x Mb N) in
  no_red_red TP -> balanced TP ->
  is_red_t Cd = false -> is_red_t Cnd = false ->
  no_red_red TP' /\ balanced TP' /\ (cp = true -> bh TP' = bh TP) /\
  locs TP' = locs TP.
Proof.
  intros TP TP' Hn Hb Hc1 Hc2. subst TP TP'.
  destruct d, last; rb_local; split_and!; try done; try lia;
    try (intros ->; simpl; lia); list_assoc.
Qed.

(** ** The push-down block of the erasure loop *)

Ltac munfold_push :=
  unfold erase_push, jsw_double, jsw_single, get_red, get_link, get_data,
    set_red, set_link, set_data, load, modify, deref, bind, ret, fail.

(** The colour tests of the block all come before its first write: they are
    rewritten with facts about the state at the entry. *)
Ltac red_facts rt h :=
  repeat match goal with
  | H : repr h ?t |- _ =>
    lazymatch goal with
    | _ : is_red (rootp t) _ = _ |- _ => fail
    | _ => pose proof (is_red_repr {| root := rt; heap := h |} t H)
    end
  | H : h !! ?x = Some ?n |- _ =>
    lazymatch goal with
    | _ : is_red (Some x) _ = _ |- _ => fail
    | _ => pose proof (get_red_ok {| root := rt; heap := h |} x n H
                       : is_red (Some x) _ = _)
    end
  end.

Ltac mred :=
  repeat match goal with
  | H : is_red ?p ?s = _ |- context [is_red ?p ?s] => rewrite H
  end.

Ltac erun := repeat (progress (mcbn; mlookup; mbool; mred)).

Ltac same_tac :=
  lazymatch goal with
  | |- same_outside _ _ _ =>
    cbn [heap slocs]; repeat (apply same_outside_insert; [in_union|]);
    apply same_outside_refl
  | |- same_data _ _ =>
    cbn [heap];
    repeat (eapply same_data_insert; [mlookup; reflexivity | reflexivity |]);
    apply same_data_refl
  | |- _ => done
  end.

Ltac node_tac :=
  eexists; mlookup; split; [reflexivity|]; cbn [red link0 link1];
  split_and!; reflexivity.

Ltac repr_tac :=
  cbn [repr heap blacken redden]; split_and!;
  lazymatch goal with
  | |- repr _ _ => frame_tac
  | |- exists _, _ => node_tac
  | |- _ => done
  end.

(** The colour tests on the children of a node both of whose children are
    black. *)
Lemma is_red_children s n Ql Qr (d : bool) :
  repr (heap s) Ql -> repr (heap s) Qr ->
  is_red_t Ql = false -> is_red_t Qr = false ->
  link0 n = rootp Ql -> link1 n = rootp Qr ->
  is_red (link n d) s = Ok false s /\
  is_red (link n (negb d)) s = Ok false s.
Proof.
  intros Hl Hr Hcl Hcr H0 H1.
  pose proof (is_red_repr s Ql Hl) as H2. pose proof (is_red_repr s Qr Hr) as H3.
  rewrite Hcl in H2. rewrite Hcr in H3.
  destruct d; cbn [link negb]; by rewrite H0, H1.
Qed.

Ltac child_facts rt h d :=
  match goal with
  | Hl : repr h ?Ql, Hr : repr h ?Qr,
    Hcl : is_red_t ?Ql = false, Hcr : is_red_t ?Qr = false,
    Hq : h !! _ = Some {| red := false; link0 := rootp ?Ql;
                          link1 := rootp ?Qr; data := ?dt |} |- _ =>
    destruct (is_red_children {| root := rt; heap := h |}
                {| red := false; link0 := rootp Ql; link1 := rootp Qr;
                   data := dt |} Ql Qr d Hl Hr Hcl Hcr eq_refl eq_refl)
  end.

Lemma erase_push_none s q p g d last c Cd Cnd :
  repr (heap s) (mk d c q Cd Cnd) ->
  c = true \/ is_red_t Cd = true ->
  erase_push q p g d last s = Ok p s.
Proof.
  intros Hr Hc. destruct s as [rt h].
  destruct d; unfold mk in *; cbn [repr heap] in *.
  all: destruct_all; open_nodes; red_facts rt h.
  all: destruct Hc as [->|Hc]; [|rewrite Hc in *; destruct c].
  all: munfold_push; cbn [rootp] in *; erun; reflexivity.
Qed.

(** The sibling link of [p] is null: nothing is done. *)
Lemma erase_push_root s q P g d last cp Cd Cnd :
  repr (heap s) (mk last cp P (mk d false q Cd Cnd) Leaf) ->
  is_red_t Cd = false -> is_red_t Cnd = false ->
  erase_push q (Some P) g d last s = Ok (Some P) s.
Proof.
  intros Hr Hc1 Hc2. destruct s as [rt h].
  destruct d, last; unfold mk in *; cbn [repr heap] in *.
  all: destruct_all; open_nodes; red_facts rt h.
  all: rewrite ?Hc1, ?Hc2 in *.
  all: munfold_push; cbn [rootp] in *; erun; reflexivity.
Qed.

(** The child of [q] away from the path is red: a single rotation at [q]. *)
Lemma erase_push_rot s q r P g d last cp Cd Rd Rn S :
  let X := mk last cp P (mk d false q Cd (mk d true r Rd Rn)) S in
  let X' := mk last cp P (mk d false r (mk d true q Cd Rd) Rn) S in
  repr (heap s) X -> wf X -> is_red_t Cd = false ->
  exists s',
    erase_push q (Some P) g d last s = Ok (Some r) s' /\
    root s' = root s /\
    repr (heap s') X' /\
    same_outside (slocs X) (heap s) (heap s') /\
    same_data (heap s) (heap s').
Proof.
  intros X X' Hr Hwf Hc. subst X X'. destruct s as [rt h].
  destruct d, last; unfold mk in *; cbn [repr wf slocs heap] in *.
  all: destruct_all; open_nodes; norm_wf; red_facts rt h.
  all: rewrite ?Hc in *.
  all: eexists; split; [munfold_push; cbn [rootp] in *; erun; reflexivity|].
  all: refine (conj _ (conj _ (conj _ _))); [done | repr_tac | same_tac | same_tac].
Qed.

(** Both children of the sibling are black: the colour flip. *)
Lemma erase_push_flip_t s q x P g d last cp cs Ql Qr Sl Sr :
  let X := mk last cp P (T false Ql q Qr) (T cs Sl x Sr) in
  let X' := mk last false P (T true Ql q Qr) (T true Sl x Sr) in
  repr (heap s) X -> wf X ->
  is_red_t Ql = false -> is_red_t Qr = false ->
  is_red_t Sl = false -> is_red_t Sr = false ->
  exists s',
    erase_push q (Some P) g d last s = Ok (Some P) s' /\
    root s' = root s /\
    repr (heap s') X' /\
    same_outside (slocs X) (heap s) (heap s') /\
    same_data (heap s) (heap s').
Proof.
  intros X X' Hr Hwf Hc1 Hc2 Hc3 Hc4. subst X X'. destruct s as [rt h].
  destruct last; unfold mk in *; cbn [repr wf slocs heap] in *.
  all: destruct_all; open_nodes; norm_wf; child_facts rt h d; red_facts rt h.
  all: rewrite ?Hc1, ?Hc2, ?Hc3, ?Hc4 in *.
  all: eexists; split; [munfold_push; cbn [rootp] in *; erun; reflexivity|].
  all: refine (conj _ (conj _ (conj _ _))); [done | repr_tac | same_tac | same_tac].
Qed.

Lemma erase_push_flip s q x P g d last cp cs Cd Cnd Sl Sr :
  let X := mk last cp P (mk d false q Cd Cnd) (T cs Sl x Sr) in
  let X' := mk last false P (mk d true q Cd Cnd) (T true Sl x Sr) in
  repr (heap s) X -> wf X ->
  is_red_t Cd = false -> is_red_t Cnd = false ->
  is_red_t Sl = false -> is_red_t Sr = false ->
  exists s',
    erase_push q (Some P) g d last s = Ok (Some P) s' /\
    root s' = root s /\
    repr (heap s') X' /\
    same_outside (slocs X) (heap s) (heap s') /\
    same_data (heap s) (heap s').
Proof.
  intros X X' Hr Hwf Hc1 Hc2 Hc3 Hc4. subst X X'.
  destruct d; cbn [mk] in *; by apply erase_push_flip_t.
Qed.

(** The far child of the sibling is red, the near one is not: a single
    rotation at [p]. *)
Lemma erase_push_single_t s q x n P G d last d2 cg cp cs Ql Qr M Nl Nr GS :
  let X := mk d2 cg G (mk last cp P (T false Ql q Qr)
                         (mk last cs x M (T true Nl n Nr))) GS in
  let X' := mk d2 cg G (mk last true x
                          (mk last false P (T true Ql q Qr) M)
                          (T false Nl n Nr)) GS in
  repr (heap s) X -> wf X ->
  is_red_t Ql = false -> is_red_t Qr = false -> is_red_t M = false ->
  exists s',
    erase_push q (Some P) (Some G) d last s = Ok (Some P) s' /\
    root s' = root s /\
    repr (heap s') X' /\
    same_outside (slocs X) (heap s) (heap s') /\
    same_data (heap s) (heap s').
Proof.
  intros X X' Hr Hwf Hc1 Hc2 Hc3. subst X X'. destruct s as [rt h].
  destruct last, d2; unfold mk in *; cbn [repr wf slocs heap] in *.
  all: destruct_all; open_nodes; norm_wf; child_facts rt h d; red_facts rt h.
  all: rewrite ?Hc1, ?Hc2, ?Hc3 in *.
  all: eexists; split; [munfold_push; cbn [rootp] in *; erun; reflexivity|].
  all: refine (conj _ (conj _ (conj _ _))); [done | repr_tac | same_tac | same_tac].
Qed.

Lemma erase_push_single s q x n P G d last d2 cg cp cs Cd Cnd M Nl Nr GS :
  let X := mk d2 cg G (mk last cp P (mk d false q Cd Cnd)
                         (mk last cs x M (T true Nl n Nr))) GS in
  let X' := mk d2 cg G (mk last true x
                          (mk last false P (mk d true q Cd Cnd) M)
                          (T false Nl n Nr)) GS in
  repr (heap s) X -> wf X ->
  is_red_t Cd = false -> is_red_t Cnd = false -> is_red_t M = false ->
  exists s',
    erase_push q (Some P) (Some G) d last s = Ok (Some P) s' /\
    root s' = root s /\
    repr (heap s') X' /\
    same_outside (slocs X) (heap s) (heap s') /\
    same_data (heap s) (heap s').
Proof.
  intros X X' Hr Hwf Hc1 Hc2 Hc3. subst X X'.
  destruct d; cbn [mk] in *; by apply erase_push_single_t.
Qed.

(** The near child of the sibling is red: a double rotation at [p]. *)
Lemma erase_push_double_t s q x m P G d last d2 cg cp cs Ql Qr Ma Mb N GS :
  let X := mk d2 cg G (mk last cp P (T false Ql q Qr)
                         (mk last cs x (mk last true m Ma Mb) N)) GS in
  let X' := mk d2 cg G (mk last true m
                          (mk last false P (T true Ql q Qr) Ma)
                          (mk last false x Mb N)) GS in
  repr (heap s) X -> wf X ->
  is_red_t Ql = false -> is_red_t Qr = false ->
  exists s',
    erase_push q (Some P) (Some G) d last s = Ok (Some P) s' /\
    root s' = root s /\
    repr (heap s') X' /\
    same_outside (slocs X) (heap s) (heap s') /\
    same_data (heap s) (heap s').
Proof.
  intros X X' Hr Hwf Hc1 Hc2. subst X X'. destruct s as [rt h].
  destruct (is_red_t N) eqn:Hc3.
  all: destruct last, d2; unfold mk in *; cbn [repr wf slocs heap] in *.
  all: destruct_all; open_nodes; norm_wf; child_facts rt h d; red_facts rt h.
  all: rewrite ?Hc1, ?Hc2, ?Hc3 in *.
  all: eexists; split; [munfold_push; cbn [rootp] in *; erun; reflexivity|].
  all: refine (conj _ (conj _ (conj _ _))); [done | repr_tac | same_tac | same_tac].
Qed.

Lemma erase_push_double s q x m P G d last d2 cg cp cs Cd Cnd Ma Mb N GS :
  let X := mk d2 cg G (mk last cp P (mk d false q Cd Cnd)
                         (mk last cs x (mk last true m Ma Mb) N)) GS in
  let X' := mk d2 cg G (mk last true m
                          (mk last false P (mk d true q Cd Cnd) Ma)
                          (mk last false x Mb N)) GS in
  repr (heap s) X -> wf X ->
  is_red_t Cd = false -> is_red_t Cnd = false ->
  exists s',
    erase_push q (Some P) (Some G) d last s = Ok (Some P) s' /\
    root s' = root s /\
    repr (heap s') X' /\
    same_outside (slocs X) (heap s) (heap s') /\
    same_data (heap s) (heap s').
Proof.
  intros X X' Hr Hwf Hc1 Hc2. subst X X'.
  destruct d; cbn [mk] in *; by apply erase_push_double_t.
Qed.

(** ** The erasure loop *)

Lemma erase_loop_S fuel node v :
  erase_loop (S fuel) node v =
  bind (get_link (ev_q v) (ev_dir v)) (fun c =>
    match c with
    | None => ret v
    | Some cl =>
      bind (node_cmp cl node) (fun cmp =>
        bind (node_cmp cl node) (fun cmp' =>
          bind (erase_push cl (Some (ev_q v)) (ev_p v) (cmp <? 0) (ev_dir v))
            (fun p =>
               erase_loop fuel node
                 {| ev_q := cl; ev_p := p; ev_g := ev_p v;
                    ev_f := if cmp' =? 0 then Some cl else ev_f v;
                    ev_dir := cmp <? 0 |})))
    end).
Proof. done. Qed.

Lemma shape_step h0 cf W W' s s' :
  era_shape h0 cf W s ->
  repr (heap s') W' -> rootp W' = rootp W -> locs W' = locs W ->
  same_outside (slocs W) (heap s) (heap s') -> same_data (heap s) (heap s') ->
  era_shape h0 cf W' s'.
Proof.
  intros [Hr Hwf Hd] Hr' Hroot Hl Hso Hsd.
  destruct (window_replace h0 (heap s) (heap s') cf W W') as (? & ? & ? & _);
    try done.
Qed.

Lemma shape_top h0 F cf t s :
  era_shape h0 (F :: cf) t s ->
  exists n, heap s !! fx F = Some n /\ red n = fc F /\
            link n (fd F) = rootp t /\ link n (negb (fd F)) = rootp (fsib F).
Proof.
  intros [Hr _ _]. cbn [plug] in Hr. apply repr_plug_sub in Hr.
  unfold plug1 in Hr. apply repr_mk in Hr as (Hn & _). done.
Qed.

Lemma shape_sub h0 cf t s : era_shape h0 cf t s -> repr (heap s) t /\ wf t.
Proof.
  intros [Hr Hwf _]. split; [by eapply repr_plug_sub | by eapply wf_plug_sub].
Qed.

Lemma shape_up h0 F cf t s :
  era_shape h0 (F :: cf) t s <-> era_shape h0 cf (plug1 F t) s.
Proof. split; intros [? ? ?]; split; done. Qed.

Lemma slocs_of_locs t t' : locs t' = locs t -> slocs t' = slocs t.
Proof. intros Hl. apply set_eq. intros x. by rewrite <- !elem_of_locs, Hl. Qed.

Lemma full_ctx (ctx : list frame) :
  exists F cf, ctx ++ [head_frame] = F :: cf.
Proof. destruct ctx as [|F ctx]; simpl; eauto. Qed.

Section erase_steps.
Context (h0 : gmap loc jsw_rbnode) (k : Z) (l0 : list loc) (dup : Prop).
Context (node : loc).
Context (Hkey : (fun n => key (data n)) <$> h0 !! node = Some k).

Implicit Types (ctx : list frame) (tq : tree) (s : store) (v : erase_vars).

Lemma era_inv_next ctx c l x r v s ctx' FQ p' s' :
  let tq := T c l x r in
  let d := cmp_at h0 k x <? 0 in
  era_inv h0 k l0 dup ctx tq v s ->
  fx FQ = x -> fd FQ = d ->
  era_shape h0 ((FQ :: ctx') ++ [head_frame]) (child tq d) s' ->
  locs (plug (FQ :: ctx') (child tq d)) = locs (plug ctx tq) ->
  no_red_red (plug (FQ :: ctx') (child tq d)) /\
  balanced (plug (FQ :: ctx') (child tq d)) ->
  p' = frame_loc (ctx' ++ [head_frame]) 0 ->
  era_pushed (FQ :: ctx') (child tq d) ->
  era_inv h0 k l0 dup (FQ :: ctx') (child tq d) (next_vars h0 k v x p') s'.
Proof.
  intros tq d Hinv Hx Hd Hsh Hl [Hn Hb] Hp Hpu.
  destruct Hinv as [Hsh0 Hl0 _ _ _ _ _ _ _ Hf Hfound Hdup Hkeys].
  pose proof (slocs_of_locs _ _ Hl) as Hsl.
  split; try done.
  - congruence.
  - cbn. by rewrite Hx.
  - intros F [= <-]. done.
  - intros fl. unfold next_vars. cbn [ev_f].
    destruct (Z.eqb_spec (cmp_at h0 k x) 0) as [Hc|Hc].
    + intros [= <-]. split; [apply Hfound; by left|].
      rewrite Hsl. apply slocs_plug_sub. subst tq. simpl. set_solver.
    + intros Hfl. destruct (Hf fl Hfl). by rewrite Hsl.
  - intros Hre. apply Hfound.
    destruct (Z.eq_dec (cmp_at h0 k x) 0) as [Hc|Hc]; [by left|].
    apply (reaches_child_inv _ _ _ _ _ _ d); [by apply cmp_dir_Some | done].
  - intros Hd'. unfold next_vars. cbn [ev_f].
    destruct (Z.eqb_spec (cmp_at h0 k x) 0) as [Hc|Hc]; [by left|].
    destruct (Hdup Hd') as [?|Hre]; [by left|]. right.
    apply reaches_child; [done | by apply cmp_dir_Some].
  - intros Hok. unfold next_vars. cbn [ev_f].
    destruct Hsh0 as [Hr0 Hwf0 Hd0]. rewrite plug_app in Hr0, Hwf0.
    apply repr_plug_sub in Hr0. apply wf_plug_sub in Hwf0.
    apply (era_keys_step h0 k ctx c l x r FQ ctx'); try done.
    + apply repr_plug_sub in Hr0. destruct Hr0 as ((nx & Hnx & _) & _).
      specialize (Hd0 x). rewrite Hnx in Hd0.
      destruct (h0 !! x); [done | discriminate].
    + fold tq. by rewrite Hl0.
    + by apply Hkeys.
Qed.

(** The next state after the part [W] of the tree, made of the frames
    [lower] around [tq], was rebuilt as [W'], which is [child tq d] below the
    frames [FQ :: mid]. *)
Lemma era_next_gen lower upper mid FQ W' c l x r v s p' s' :
  let tq := T c l x r in
  let d := cmp_at h0 k x <? 0 in
  era_inv h0 k l0 dup (lower ++ upper) tq v s ->
  fx FQ = x -> fd FQ = d -> fc FQ = true ->
  plug (FQ :: mid) (child tq d) = W' ->
  era_shape h0 (upper ++ [head_frame]) W' s' ->
  no_red_red W' -> balanced W' -> locs W' = locs (plug lower tq) ->
  (upper = [] \/
   bh W' = bh (plug lower tq) /\
   (is_red_t W' = true -> is_red_t (plug lower tq) = true)) ->
  p' = frame_loc (mid ++ upper ++ [head_frame]) 0 ->
  era_inv h0 k l0 dup (FQ :: mid ++ upper) (child tq d) (next_vars h0 k v x p') s'.
Proof.
  intros tq d Hinv Hx Hd Hc HW Hsh Hn' Hb' Hl' Htop Hp.
  pose proof (ei_nrr _ _ _ _ _ _ _ _ Hinv) as Hn.
  pose proof (ei_bal _ _ _ _ _ _ _ _ Hinv) as Hb.
  rewrite plug_app in Hn, Hb.
  assert (plug (FQ :: mid ++ upper) (child tq d) = plug upper W') as Hplug.
  { rewrite <- HW. by rewrite (app_comm_cons mid upper FQ), plug_app. }
  assert (plug ((FQ :: mid ++ upper) ++ [head_frame]) (child tq d)
          = plug (upper ++ [head_frame]) W') as Hplug'.
  { rewrite <- HW.
    by rewrite (app_comm_cons mid upper FQ), <- app_assoc, plug_app. }
  apply (era_inv_next (lower ++ upper) c l x r v s); fold tq d; try done.
  - destruct Hsh as [? ? ?]. split; by rewrite ?Hplug'.
  - rewrite Hplug, plug_app. by apply locs_plug_congr.
  - rewrite Hplug. by apply (rb_replace_top upper (plug lower tq) W').
  - by rewrite <- app_assoc.
  - cbn. by left.
Qed.

Lemma era_push_spec ctx c l x r v s :
  let d := cmp_at h0 k x <? 0 in
  era_inv h0 k l0 dup ctx (T c l x r) v s ->
  exists ctx' p' s',
    erase_push x (Some (ev_q v)) (ev_p v) d (ev_dir v) s = Ok p' s' /\
    era_inv h0 k l0 dup ctx' (child (T c l x r) d) (next_vars h0 k v x p') s'.
Proof.
  intros d Hinv.
  pose proof Hinv as [Hsh Hl Hn Hb Hq Hp Hdir Hpu Hst Hf Hfound Hdup].
  set (tq := T c l x r) in *.
  set (Cd := child tq d). set (Cnd := child tq (negb d)).
  assert (tq = mk d c x Cd Cnd) as Htq by apply mk_child.
  destruct (shape_sub _ _ _ _ Hsh) as [Hrq Hwq].
  destruct (decide (c = true \/ is_red_t Cd = true)) as [Hc1|Hc1].
  { (* nothing to push *)
    exists ({| fc := c; fx := x; fd := d; fsib := Cnd |} :: ctx), (Some (ev_q v)), s.
    split.
    - apply (erase_push_none s x _ _ d _ c Cd Cnd); [by rewrite <- Htq | done].
    - apply (era_inv_next ctx c l x r v s ctx); try done.
      + destruct Hsh as [? ? ?].
        split; cbn [app plug]; unfold Cnd, tq; rewrite ?plug1_child; done.
      + cbn [plug]. unfold Cnd, tq. by rewrite plug1_child.
      + cbn [plug]. unfold Cnd, tq. by rewrite plug1_child.
      + cbn. destruct Hc1 as [->|?]; [by left | right; by left]. }
  assert (c = false /\ is_red_t Cd = false) as [-> HCd].
  { destruct c, (is_red_t Cd); try done; exfalso; apply Hc1; auto. }
  destruct (full_ctx ctx) as (F & cf & Hcf).
  rewrite Hcf in Hsh, Hq, Hp, Hdir. cbn in Hq. injection Hq as Hq.
  specialize (Hdir F eq_refl). rewrite Hq, Hdir.
  pose proof (proj1 (shape_up _ _ _ _ _) Hsh) as HshX.
  destruct (shape_sub h0 cf (plug1 F tq) s HshX) as [HrX HwX].
  unfold plug1 in HrX, HwX.
  pose proof (no_red_red_plug_sub _ _ Hn) as Hnq.
  pose proof (balanced_plug_sub _ _ Hb) as Hbq.
  destruct (is_red_t Cnd) eqn:HCnd.
  { (* the other child of [q] is red *)
    destruct Cnd as [|[] a r' b] eqn:ECnd; try done.
    set (Rd := child (T true a r' b) d).
    set (Rn := child (T true a r' b) (negb d)).
    assert (T true a r' b = mk d true r' Rd Rn) as HR by apply mk_child.
    rewrite HR in Htq. rewrite Htq in HrX, HwX, Hnq, Hbq.
    destruct (erase_push_rot s x r' (fx F) (ev_p v) d (fd F) (fc F) Cd Rd Rn
                (fsib F) HrX HwX HCd) as (s' & Hrun & _ & Hr' & Hso & Hsd).
    destruct (rot_q_rb d x r' Cd Rd Rn Hnq Hbq HCd)
      as (Hn' & Hb' & Hbh' & Hred' & Hl').
    exists ({| fc := true; fx := x; fd := d; fsib := Rd |}
            :: [{| fc := false; fx := r'; fd := d; fsib := Rn |}] ++ ctx),
           (Some r'), s'.
    split; [done|].
    apply (era_next_gen [] ctx [_] _
             (mk d false r' (mk d true x Cd Rd) Rn) false l x r v s);
      try done.
    - rewrite Hcf. apply shape_up.
      apply (shape_step h0 cf (plug1 F tq) _ s); try done.
      + unfold plug1. by rewrite !rootp_mk.
      + apply (locs_plug_congr [F]). by rewrite Htq.
      + unfold plug1. by rewrite Htq.
    - cbn [plug]. fold tq. by rewrite Htq.
    - right. cbn [plug]. fold tq. rewrite Htq. split; [done|].
      by rewrite Hred'. }
  (* both children of [q] are black *)
  destruct ctx as [|F' rest].
  { (* [q] is the root *)
    cbn in Hcf. injection Hcf as <- <-. cbn [fx fd fc fsib head_frame] in *.
    exists [{| fc := false; fx := x; fd := d; fsib := Cnd |}], (Some Head), s.
    split.
    - apply (erase_push_root s x Head _ d true false Cd Cnd);
        [by rewrite <- Htq | done | done].
    - apply (era_inv_next [] false l x r v s []); try done.
      + destruct Hsh as [? ? ?].
        split; cbn [app plug]; unfold Cnd, tq; rewrite ?plug1_child; done.
      + cbn [plug]. unfold Cnd, tq. by rewrite plug1_child.
      + cbn [plug]. unfold Cnd, tq. by rewrite plug1_child.
      + cbn. right. right. done. }
  cbn in Hcf. injection Hcf as -> <-.
  pose proof (no_red_red_plug_sub rest (plug1 F tq) Hn) as HnP.
  pose proof (balanced_plug_sub rest (plug1 F tq) Hb) as HbP.
  unfold plug1 in HnP, HbP.
  destruct (fsib F) as [|cs Sl sx Sr] eqn:ES.
  { exfalso. apply balanced_mk in HbP as (Hbh & _). simpl in Hbh. lia. }
  assert (cs = false /\ (rest = [] \/ fc F = true)) as [-> Htop].
  { cbn in Hpu. rewrite ES in Hpu. destruct Hpu as [Hc|[Hc|[-> Hc]]].
    - apply no_red_red_mk in HnP as (HP & _). destruct (HP Hc) as [_ Hs].
      simpl in Hs. destruct cs; [done|]. auto.
    - done.
    - simpl in Hc. destruct cs; [done|]. auto. }
  set (last := fd F) in *.
  set (M := child (T false Sl sx Sr) last).
  set (N := child (T false Sl sx Sr) (negb last)).
  assert (T false Sl sx Sr = mk last false sx M N) as HS by apply mk_child.
  rewrite HS, Htq in HrX, HwX, HnP, HbP.
  assert (forall W', locs W' = locs (plug1 F tq) ->
            (fc F = true -> bh W' = bh (plug1 F tq)) ->
            rest = [] \/ bh W' = bh (plug [F] tq) /\
              (is_red_t W' = true -> is_red_t (plug [F] tq) = true)) as Htop'.
  { intros W' _ Hbh. destruct Htop as [?|Hc]; [by left|right].
    split; [by apply Hbh|]. intros _. cbn [plug]. unfold plug1.
    by rewrite is_red_mk. }
  assert (plug1 F tq = mk last (fc F) (fx F) (mk d false x Cd Cnd)
                          (mk last false sx M N)) as HTP.
  { unfold plug1. by rewrite ES, HS, Htq. }
  destruct (full_ctx rest) as (FG & cf2 & Hrest).
  rewrite Hrest in Hp, HshX. cbn in Hp.
  destruct (is_red_t M) eqn:HM.
  { (* the near child of the sibling is red *)
    destruct M as [|[] a m b] eqn:EM; try done.
    set (Ma := child (T true a m b) last).
    set (Mb := child (T true a m b) (negb last)).
    assert (T true a m b = mk last true m Ma Mb) as HMk by apply mk_child.
    rewrite HMk in *.
    pose proof (proj1 (shape_up _ _ _ _ _) HshX) as HshG.
    destruct (shape_sub _ _ _ _ HshG) as [HrG HwG].
    unfold plug1 in HrG, HwG. fold last in HrG, HwG.
    rewrite ES, HS, Htq in HrG, HwG.
    destruct (erase_push_double s x sx m (fx F) (fx FG) d last (fd FG) (fc FG)
                (fc F) false Cd Cnd Ma Mb N (fsib FG) HrG HwG HCd HCnd)
      as (s' & Hrun & _ & Hr' & Hso & Hsd).
    destruct (double_rb last d (fc F) (fx F) x sx m Cd Cnd Ma Mb N HnP HbP HCd HCnd)
      as (Hn' & Hb' & Hbh' & Hl').
    rewrite <- HTP in Hbh', Hl'.
    exists ({| fc := true; fx := x; fd := d; fsib := Cnd |}
            :: [{| fc := false; fx := fx F; fd := last; fsib := Ma |};
                {| fc := true; fx := m; fd := last;
                   fsib := mk last false sx Mb N |}] ++ rest),
           (Some (fx F)), s'.
    split; [by rewrite Hp|].
    apply (era_next_gen [F] rest [_; _] _
             (mk last true m (mk last false (fx F) (mk d true x Cd Cnd) Ma)
                (mk last false sx Mb N)) false l x r v s); try done.
    - rewrite Hrest. apply shape_up.
      apply (shape_step h0 cf2 (plug1 FG (plug1 F tq)) _ s); try done.
      + unfold plug1. by rewrite !rootp_mk.
      + apply (locs_plug_congr [FG]). done.
      + unfold plug1. fold last. by rewrite ES, HS, Htq.
    - by apply Htop'. }
  destruct (is_red_t N) eqn:HN.
  { (* the far child of the sibling is red *)
    destruct N as [|[] Nl n Nr] eqn:EN; try done.
    pose proof (proj1 (shape_up _ _ _ _ _) HshX) as HshG.
    destruct (shape_sub _ _ _ _ HshG) as [HrG HwG].
    unfold plug1 in HrG, HwG. fold last in HrG, HwG.
    rewrite ES, HS, Htq in HrG, HwG.
    destruct (erase_push_single s x sx n (fx F) (fx FG) d last (fd FG) (fc FG)
                (fc F) false Cd Cnd M Nl Nr (fsib FG) HrG HwG HCd HCnd HM)
      as (s' & Hrun & _ & Hr' & Hso & Hsd).
    destruct (single_rb last d (fc F) (fx F) x sx n Cd Cnd M Nl Nr
                HnP HbP HCd HCnd HM) as (Hn' & Hb' & Hbh' & Hl').
    rewrite <- HTP in Hbh', Hl'.
    exists ({| fc := true; fx := x; fd := d; fsib := Cnd |}
            :: [{| fc := false; fx := fx F; fd := last; fsib := M |};
                {| fc := true; fx := sx; fd := last;
                   fsib := T false Nl n Nr |}] ++ rest),
           (Some (fx F)), s'.
    split; [by rewrite Hp|].
    apply (era_next_gen [F] rest [_; _] _
             (mk last true sx (mk last false (fx F) (mk d true x Cd Cnd) M)
                (T false Nl n Nr)) false l x r v s); try done.
    - rewrite Hrest. apply shape_up.
      apply (shape_step h0 cf2 (plug1 FG (plug1 F tq)) _ s); try done.
      + unfold plug1. by rewrite !rootp_mk.
      + apply (locs_plug_congr [FG]). done.
      + unfold plug1. fold last. by rewrite ES, HS, Htq.
    - by apply Htop'. }
  (* both children of the sibling are black *)
  assert (is_red_t Sl = false /\ is_red_t Sr = false) as [HSl HSr].
  { unfold M, N in HM, HN. destruct last; simpl in HM, HN; done. }
  rewrite <- HS in HrX, HwX, HnP, HbP, HTP.
  destruct (erase_push_flip s x sx (fx F) (ev_p v) d last (fc F) false
              Cd Cnd Sl Sr HrX HwX HCd HCnd HSl HSr)
    as (s' & Hrun & _ & Hr' & Hso & Hsd).
  destruct (flip_rb last d (fc F) (fx F) x sx Cd Cnd Sl Sr
              HnP HbP HCd HCnd HSl HSr) as (Hn' & Hb' & Hbh' & _ & Hl').
  rewrite <- HTP in Hbh', Hl'.
  exists ({| fc := true; fx := x; fd := d; fsib := Cnd |}
          :: [{| fc := false; fx := fx F; fd := last;
                 fsib := T true Sl sx Sr |}] ++ rest),
         (Some (fx F)), s'.
  split; [done|].
  apply (era_next_gen [F] rest [_] _
           (mk last false (fx F) (mk d true x Cd Cnd) (T true Sl sx Sr))
           false l x r v s); try done.
  - rewrite Hrest.
    apply (shape_step h0 (FG :: cf2) (plug1 F tq) _ s); try done.
    + unfold plug1. by rewrite !rootp_mk.
    + by rewrite HTP.
  - by apply Htop'.
Qed.

(** Every state that satisfies the invariant runs one more iteration. *)
Lemma erase_loop_spec fuel : era_loop_ok h0 k l0 dup node fuel.
Proof.
  induction fuel as [|fuel IH]; intros ctx tq v s Hinv.
  { simpl. split; [done | lia]. }
  rewrite erase_loop_S.
  destruct (full_ctx ctx) as (F & cf & Hcf).
  pose proof (ei_shape _ _ _ _ _ _ _ _ Hinv) as Hsh.
  pose proof (ei_q _ _ _ _ _ _ _ _ Hinv) as Hq.
  pose proof (ei_dir _ _ _ _ _ _ _ _ Hinv) as Hdir.
  rewrite Hcf in Hsh, Hq, Hdir. cbn in Hq. injection Hq as Hq.
  specialize (Hdir F eq_refl).
  destruct (shape_top _ _ _ _ _ Hsh) as (n & Hn & _ & Hlk & _).
  rewrite <- Hq in Hn. rewrite <- Hdir in Hlk.
  rewrite (bind_ok _ _ _ _ _ (get_link_ok s (ev_q v) n (ev_dir v) Hn)), Hlk.
  destruct tq as [|c l x r]; cbn [rootp].
  { cbn. by exists ctx. }
  destruct (shape_sub _ _ _ _ Hsh) as [((nx & Hnx & _) & _) _].
  destruct (node_lookup_data h0 node k (heap s) (es_data _ _ _ _ Hsh) Hkey)
    as (nn & Hnn & Hknn).
  rewrite !(bind_ok _ _ _ _ _
              (node_cmp_at h0 k s x nx node nn (es_data _ _ _ _ Hsh) Hnx Hnn Hknn)).
  destruct (era_push_spec ctx c l x r v s Hinv) as (ctx' & p' & s' & Hrun & Hinv').
  rewrite (bind_ok _ _ _ _ _ Hrun).
  eapply runs_weaken; [apply (IH _ _ _ _ Hinv') | | done].
  pose proof (height_child (T c l x r) (cmp_at h0 k x <? 0) ltac:(done)). lia.
Qed.

End erase_steps.

(** ** [jsw_rberase] *)

Lemma bh_zero_leaf t : bh t = O -> is_red_t t = false -> t = Leaf.
Proof. destruct t as [|[] ? ? ?]; simpl; [done | done | lia]. Qed.

(** At the exit [q] is a node without children, red or the root. *)
Lemma era_exit h0 k l0 dup ctx v s :
  era_inv h0 k l0 dup ctx Leaf v s ->
  exists F rest, ctx = F :: rest /\ fsib F = Leaf /\ (fc F = true \/ rest = []).
Proof.
  intros Hinv. destruct ctx as [|F rest].
  { by destruct (ei_start _ _ _ _ _ _ _ _ Hinv eq_refl). }
  exists F, rest. split; [done|].
  pose proof (ei_pushed _ _ _ _ _ _ _ _ Hinv) as Hpu.
  pose proof (no_red_red_plug_sub rest (plug1 F Leaf) (ei_nrr _ _ _ _ _ _ _ _ Hinv)) as Hn.
  pose proof (balanced_plug_sub rest (plug1 F Leaf) (ei_bal _ _ _ _ _ _ _ _ Hinv)) as Hb.
  unfold plug1 in Hn, Hb.
  apply no_red_red_mk in Hn as (Hc & _). apply balanced_mk in Hb as (Hbh & _).
  simpl in Hbh, Hpu.
  destruct Hpu as [Hr|[?|[-> Hr]]]; [|done|].
  - split; [|by left]. apply bh_zero_leaf; [done | by apply Hc].
  - split; [|by right]. by apply bh_zero_leaf.
Qed.

(** Writes that leave colours and links alone keep the layout. *)
Lemma repr_same_links h h' t :
  (forall x n, h !! x = Some n ->
     exists n', h' !! x = Some n' /\ red n' = red n /\
                link0 n' = link0 n /\ link1 n' = link1 n) ->
  repr h t -> repr h' t.
Proof.
  intros Hs. induction t as [|c l IHl x r IHr]; simpl; [done|].
  intros ((n & Hn & ? & ? & ?) & ? & ?). split_and!; [|auto|auto].
  destruct (Hs x n Hn) as (n' & ? & ? & ? & ?). exists n'.
  split_and!; congruence.
Qed.

(** The exchange of the data of [f] and [q]. *)
Lemma erase_swap s fl q nf nq :
  heap s !! fl = Some nf -> heap s !! q = Some nq ->
  exists s',
    (forall K : unit -> M store unit,
       bind (get_data fl) (fun tmp => bind (get_data q) (fun dq =>
         bind (set_data fl dq) (fun _ => bind (set_data q tmp) K))) s
       = K tt s') /\
    root s' = root s /\
    (forall x, x <> fl -> x <> q -> heap s' !! x = heap s !! x) /\
    (forall x n, heap s !! x = Some n ->
       exists n', heap s' !! x = Some n' /\ red n' = red n /\
                  link0 n' = link0 n /\ link1 n' = link1 n) /\
    key_of (heap s') fl = key_of (heap s) q /\
    key_of (heap s') q = key_of (heap s) fl.
Proof.
  intros Hf Hq. destruct s as [rt h]. cbn [heap root] in *.
  destruct (decide (fl = q)) as [->|Hne].
  - eexists. split; [intros K; munfold; mrun; reflexivity|]. cbn [heap root].
    split_and!; [done | by intros; rewrite !lookup_insert_ne | | |].
    + intros x n Hx. destruct (decide (x = q)) as [->|?].
      * eexists. rewrite lookup_insert_eq. split; [done|].
        rewrite Hf in Hq. by simplify_eq.
      * exists n. by rewrite !lookup_insert_ne.
    + unfold key_of. rewrite lookup_insert_eq, Hq. by simplify_eq.
    + unfold key_of. rewrite lookup_insert_eq, Hq. by simplify_eq.
  - eexists. split; [intros K; munfold; mrun; reflexivity|]. cbn [heap root].
    split_and!; [done | by intros; rewrite !lookup_insert_ne | | |].
    + intros x n Hx. destruct (decide (x = q)) as [->|?].
      * eexists. rewrite lookup_insert_eq. split; [done|]. by simplify_eq.
      * destruct (decide (x = fl)) as [->|?].
        -- eexists. rewrite lookup_insert_ne, lookup_insert_eq by done.
           split; [done|]. by simplify_eq.
        -- exists n. by rewrite !lookup_insert_ne.
    + unfold key_of. rewrite lookup_insert_ne, lookup_insert_eq, Hq by done.
      done.
    + unfold key_of. rewrite lookup_insert_eq, Hf. done.
Qed.

(** The node [q], which has no children, is taken out below [p]. *)
Lemma erase_unlink s q P d cq cp dP S :
  let X := mk dP cp P (mk d cq q Leaf Leaf) S in
  let X' := mk dP cp P Leaf S in
  repr (heap s) X -> wf X ->
  exists s',
    bind (deref (Some P)) (fun pl => bind (get_link pl true) (fun p1 =>
      bind (get_link q false) (fun q0 =>
        bind (get_link q (bool_decide (q0 = None))) (fun c =>
          set_link pl (bool_decide (p1 = Some q)) c)))) s = Ok tt s' /\
    root s' = root s /\
    repr (heap s') X' /\
    same_outside {[P]} (heap s) (heap s') /\
    same_data (heap s) (heap s').
Proof.
  intros X X' Hr Hwf. subst X X'. destruct s as [rt h].
  destruct d, dP; unfold mk in *; cbn [repr wf slocs heap] in *.
  all: destruct_all; open_nodes; norm_wf.
  all: eexists; split; [munfold; mrun; reflexivity|].
  all: refine (conj _ (conj _ (conj _ _))); [done | repr_tac | same_tac | same_tac].
Qed.

(** The end of [jsw_rberase]: the root is read back from the sentinel, which
    goes out of scope, and painted black. *)
Lemma erase_finish s t1 :
  repr (heap s) (plug [head_frame] t1) -> wf (plug [head_frame] t1) ->
  exists s',
    (let! h1 := get_link Head true in
     set_root h1 >>
     leave_head >>
     let! r := get_root in
     match r with
     | Some rl => set_red rl false
     | None => ret tt
     end >>
     ret 1) s = Ok 1 s' /\
    holds s' (blacken t1) /\
    (forall x, x <> Head -> data <$> heap s' !! x = data <$> heap s !! x).
Proof.
  intros Hr Hwf. destruct s as [rt h]. cbn [heap] in *.
  destruct t1 as [|c l x r].
  - simpl in Hr. destruct Hr as ((nH & HnH & _ & _ & HH1) & _).
    eexists. split.
    { unfold leave_head. munfold. cbn [heap root]. rewrite HnH. cbn.
      rewrite HH1. cbn. reflexivity. }
    split; [by split_and!|]. intros y Hy. cbn [heap].
    by rewrite lookup_delete_ne.
  - pose proof Hr as Hr'. pose proof Hwf as Hwf'. simpl in Hr', Hwf'.
    destruct Hr' as ((nH & HnH & _ & _ & HH1) & _ & (nx & Hnx & Hrest) & _).
    destruct Hwf' as (_ & Hh' & _).
    assert (x <> Head) as Hxh by set_solver.
    eexists. split.
    { unfold leave_head. munfold. cbn [heap root]. rewrite HnH. cbn.
      rewrite HH1. cbn. rewrite lookup_delete_ne by done. rewrite Hnx.
      reflexivity. }
    split.
    + by apply (holds_blacken_root _ h (T c l x r) x nx).
    + intros y Hy. cbn [heap]. destruct (decide (y = x)) as [->|Hne].
      * by rewrite lookup_insert_eq, Hnx.
      * by rewrite lookup_insert_ne, lookup_delete_ne.
Qed.

Lemma rb_inv_blacken t : no_red_red t -> balanced t -> rb_inv (blacken t).
Proof.
  intros. split_and!;
    [apply is_red_blacken | by apply no_red_red_blacken | by apply balanced_blacken].
Qed.

Lemma bind_congr {S A B} (c c' : M S A) (k : A -> M S B) s s' :
  c s = c' s' -> bind c k s = bind c' k s'.
Proof. unfold bind. by intros ->. Qed.

Lemma jsw_rberase_spec fuel s t node nn :
  holds s t -> rb_inv t -> heap s !! node = Some nn -> node <> Head ->
  runs (jsw_rberase fuel node s) (height t) fuel
       (erase_result s t (key (data nn))).
Proof.
  intros (Hroot & Hr & Hwf & Hh) (Hblk & Hn & Hb) Hnn Hnh.
  destruct s as [rt h]. simpl in *. subst rt.
  destruct t as [|c l x r].
  - (* empty tree *)
    unfold jsw_rberase. munfold. cbn. split; [done|]. exists Leaf.
    refine (conj _ (conj _ (conj _ (conj _ _)))); [by split_and! | done | done | |].
    + left. split_and!; try done. by intros [].
    + intros _. split; [done|]. intros z. unfold key_list. simpl.
      split; [by intros ?%elem_of_nil | by intros [_ ?%elem_of_nil]].
  - (* the loop *)
    cbn [rootp].
    set (t := T c l x r) in *.
    set (h0 := <[Head := {| red := false; link0 := None; link1 := Some x;
                            data := {| key := 0 |} |}]> h).
    set (s0 := {| root := Some x; heap := h0 |}).
    set (v0 := {| ev_q := Head; ev_p := None; ev_g := None; ev_f := None;
                  ev_dir := true |}).
    set (k := key (data nn)).
    assert (jsw_rberase fuel node {| root := Some x; heap := h |} =
      bind (erase_loop fuel node v0) (fun v =>
        match ev_f v with
        | Some fl =>
          let! tmp := get_data fl in
          let! dq := get_data (ev_q v) in
          set_data fl dq >>
          set_data (ev_q v) tmp >>
          let! pl := deref (ev_p v) in
          let! p1 := get_link pl true in
          let! q0 := get_link (ev_q v) false in
          let! c := get_link (ev_q v) (bool_decide (q0 = None)) in
          set_link pl (bool_decide (p1 = Some (ev_q v))) c
        | None => ret tt
        end >>
        let! h1 := get_link Head true in
        set_root h1 >>
        leave_head >>
        let! r := get_root in
        match r with
        | Some rl => set_red rl false
        | None => ret tt
        end >>
        ret 1) s0) as ->.
    { unfold jsw_rberase, enter_head. munfold. cbn.
      rewrite lookup_insert_eq. cbn. rewrite insert_insert_eq.
      reflexivity. }
    assert ((fun n => key (data n)) <$> h0 !! node = Some k) as Hkey.
    { unfold h0. rewrite lookup_insert_ne by done. by rewrite Hnn. }
    assert (forall y, y ∈ slocs t -> h0 !! y = h !! y) as Hag.
    { intros y Hy. unfold h0. apply lookup_insert_ne. set_solver. }
    assert (era_inv h0 k (locs t) (reaches h0 k t) [] t v0 s0) as Hinv.
    { split; try done.
      - split; [| |done].
        + destruct Hr as (Hx & Hl & Hrr). simpl. split_and!; try done.
          * eexists. unfold h0. rewrite lookup_insert_eq. done.
          * destruct Hx as (n & ? & ?). exists n. unfold h0.
            rewrite lookup_insert_ne by set_solver. done.
          * apply repr_insert_notin; [set_solver | done].
          * apply repr_insert_notin; [set_solver | done].
        + by apply wf_head.
      - intros F [= <-]. done.
      - by right.
      - intros _. split_and!; [done | done |].
        intros fl. split; [done | by intros [? _]]. }
    pose proof (erase_loop_spec h0 k (locs t) (reaches h0 k t) node Hkey fuel
                  [] t v0 s0 Hinv) as Hloop.
    eapply runs_bind; [exact Hloop|].
    intros v s1 (ctx' & Hinv1).
    destruct (era_exit _ _ _ _ _ _ _ Hinv1) as (F & rest & -> & HS & Htop).
    pose proof Hinv1 as [[Hr1 Hwf1 Hd1] Hl1 Hn1 Hb1 Hq1 Hp1 _ _ _ Hf1 _ Hdup1 Hkeys1].
    assert (Head ∉ slocs (plug (F :: rest) Leaf)) as HnH.
    { pose proof Hwf1 as Hw. rewrite plug_app in Hw. cbn [plug] in Hw.
      unfold plug1 at 1 in Hw. by apply wf_mk in Hw as (Hw & _). }
    assert (forall y, y ∈ locs t -> key_of h0 y = key_of h y) as Hkag.
    { intros y Hy%elem_of_locs. unfold key_of. by rewrite Hag. }
    assert (keys_ok h k (locs t) -> keys_ok h0 k (locs t)) as Hok0.
    { apply keys_ok_agree. done. }
    assert (forall ll, ll ⊆ locs t -> map (key_of h0) ll = map (key_of h) ll) as Hmap0.
    { intros ll Hll. apply map_ext_in. intros y Hy%list_elem_of_In. auto. }
    cbn in Hq1. injection Hq1 as Hq1.
    destruct (ev_f v) as [fl|] eqn:Ef.
    + (* the key was met: the node [q] is taken out *)
      destruct (Hf1 fl eq_refl) as [Hdup Hfl].
      assert (is_Some (heap s1 !! fl)) as [nf Hnf].
      { eapply repr_lookup; [exact Hr1|]. by apply plug_head_sub. }
      destruct (full_ctx rest) as (FP & cf & Hrest).
      cbn [app] in Hr1, Hwf1, Hp1. rewrite Hrest in Hr1, Hwf1, Hp1.
      cbn in Hp1.
      pose proof (wf_plug_sub cf (plug1 FP (plug1 F Leaf)) Hwf1) as HwX.
      pose proof (repr_plug_sub _ cf (plug1 FP (plug1 F Leaf)) Hr1) as HrX.
      unfold plug1 in HrX, HwX. rewrite HS in HrX, HwX.
      assert (is_Some (heap s1 !! fx F)) as [nq Hnq].
      { apply repr_mk in HrX as (_ & HrQ & _).
        apply repr_mk in HrQ as ((nq & ? & _) & _). eauto. }
      rewrite Hq1, Hp1.
      destruct (erase_swap s1 fl (fx F) nf nq Hnf Hnq)
        as (s2 & Hswap & _ & Hout2 & Hlinks & Hkfl & Hkq).
      erewrite bind_congr by apply Hswap. cbn beta.
      pose proof (repr_same_links _ _ _ Hlinks Hr1) as Hr2.
      pose proof (repr_same_links _ _ _ Hlinks HrX) as HrX2.
      destruct (erase_unlink s2 (fx F) (fx FP) (fd F) (fc F) (fc FP) (fd FP)
                  (fsib FP) HrX2 HwX) as (s3 & Hun & _ & Hr3 & Hso3 & Hsd3).
      rewrite (bind_ok _ _ _ _ _ Hun).
      assert (repr (heap s3) (plug [head_frame] (plug rest Leaf)) /\
              wf (plug [head_frame] (plug rest Leaf))) as [Hr4 Hwf4].
      { rewrite <- plug_app, Hrest. cbn [plug]. split.
        - eapply (repr_plug_replace (heap s2) (heap s3) cf
                    (plug1 FP (plug1 F Leaf))); [done | done | exact Hr3 | | ].
          + unfold plug1. by rewrite !rootp_mk.
          + intros y _ Hy. apply Hso3. intros ->%elem_of_singleton.
            apply Hy. unfold plug1. rewrite slocs_mk. set_solver.
        - eapply (wf_plug_replace cf (plug1 FP (plug1 F Leaf))); [done | |].
          + apply wf_mk in HwX as (_ & ? & _ & _ & ?).
            apply wf_mk. split_and!; try done; set_solver.
          + unfold plug1. rewrite !slocs_mk. set_solver. }
      destruct (erase_finish s3 _ Hr4 Hwf4) as (s' & Hrun & Hholds & Hdata).
      rewrite Hrun. cbn [runs]. split; [done|].
      assert (plug1 F Leaf = T (fc F) Leaf (fx F) Leaf) as HF.
      { unfold plug1, mk. rewrite HS. by destruct (fd F). }
      cbn [plug] in Hn1, Hb1, Hl1. rewrite HF in Hn1, Hb1, Hl1.
      exists (blacken (plug rest Leaf)).
      assert (fx F <> Head) as HqH.
      { intros Hq. apply HnH. rewrite <- Hq. cbn [plug].
        apply slocs_plug_sub. unfold plug1. rewrite slocs_mk. set_solver. }
      refine (conj _ (conj _ (conj _ (conj _ _)))); [done | | | |].
      * apply rb_inv_blacken;
          apply (rb_replace_top rest (T (fc F) Leaf (fx F) Leaf) Leaf);
          try done.
        all: destruct Htop as [->|?]; [right|by left]; done.
      * intros y Hy HyH. cbn [heap].
        assert (y ∉ slocs (plug (F :: rest) Leaf)) as Hy'.
        { rewrite <- elem_of_locs. cbn [plug]. rewrite HF, Hl1.
          by rewrite elem_of_locs. }
        assert (y <> fl) as Hyf by (by intros ->).
        assert (y <> fx F) as Hyq.
        { intros ->. apply Hy'. cbn [plug]. apply slocs_plug_sub.
          unfold plug1. rewrite slocs_mk. set_solver. }
        rewrite (Hdata y HyH), Hsd3, (Hout2 y Hyf Hyq), Hd1.
        unfold h0. by rewrite lookup_insert_ne.
      * right. split.
        { eapply reaches_agree; [|exact Hdup]. intros y Hy. symmetry. by apply Hag. }
        destruct (locs_plug_leaf (fc F) (fx F) rest) as (la & lb & Hla & Hlb).
        exists la, (fx F), lb. rewrite locs_blacken.
        split_and!; [congruence | congruence |].
        intros Hok. cbn [heap] in Hok.
        destruct (Hkeys1 (Hok0 Hok)) as (_ & _ & H3).
        destruct (proj1 (H3 fl) eq_refl) as [_ Hkf].
        rewrite <- Hkf, <- (key_of_data _ _ _ (Hd1 fl)), <- Hkq.
        apply key_of_data. rewrite Hdata by done. apply Hsd3.
      * intros Hok. rewrite locs_blacken. unfold key_list. rewrite locs_blacken.
        cbn [heap] in Hok |- *.
        rewrite <- (Hmap0 (locs t)) by done. rewrite <- Hl1.
        assert (plug rest (T (fc F) Leaf (fx F) Leaf) = plug (F :: rest) Leaf)
          as HplugF by (cbn [plug]; by rewrite HF).
        rewrite HplugF in Hl1 |- *.
        apply (era_keys_found h0 (heap s') k F rest fl HS).
        -- rewrite Hl1. by apply Hok0.
        -- apply Hkeys1. by apply Hok0.
        -- rewrite <- (key_of_data _ _ _ (Hd1 (fx F))), <- Hkfl.
           apply key_of_data. rewrite Hdata by set_solver. apply Hsd3.
        -- intros y Hy Hyf.
           assert (y <> fx F) as Hyq.
           { intros ->. pose proof (proj2 (NoDup_locs _) (wf_plug_sub _ _ Hwf4)) as Hnd.
             destruct (locs_plug_leaf (fc F) (fx F) rest) as (la & lb & Hla & Hlb).
             rewrite Hla in Hy. rewrite <- HplugF, Hlb in Hl1.
             pose proof (proj2 (NoDup_locs t) Hwf) as Hndt.
             rewrite <- Hl1 in Hndt. apply NoDup_app in Hndt as (_ & Hn1' & Hn2').
             apply NoDup_cons in Hn2' as [Hn2' _].
             apply elem_of_app in Hy as [Hy|Hy]; [|done].
             apply (Hn1' _ Hy). by left. }
           assert (y <> Head) as HyH.
           { intros ->. apply HnH. cbn [plug].
             apply (slocs_plug_mono rest (plug1 F Leaf) Leaf);
               [set_solver | by apply elem_of_locs]. }
           rewrite <- (key_of_data _ _ _ (Hd1 y)).
           transitivity (key_of (heap s2) y);
             [|unfold key_of; by rewrite (Hout2 y Hyf Hyq)].
           apply key_of_data. rewrite Hdata by done. apply Hsd3.
    + (* the key was not met *)
      rewrite plug_app in Hr1, Hwf1.
      destruct (erase_finish s1 _ Hr1 Hwf1) as (s' & Hrun & Hholds & Hdata).
      unfold bind at 1. unfold ret at 1.
      rewrite Hrun. cbn [runs]. split; [done|].
      exists (blacken (plug (F :: rest) Leaf)).
      assert (forall y, y <> Head ->
                data <$> heap s' !! y = data <$> h !! y) as Hsame.
      { intros y Hy. rewrite (Hdata y Hy). cbn [heap]. rewrite Hd1.
        unfold h0. by rewrite lookup_insert_ne. }
      refine (conj _ (conj _ (conj _ (conj _ _))));
        [done | by apply rb_inv_blacken | by intros; apply Hsame | |].
      * left. split_and!.
        -- intros Hre. destruct Hdup1 as [?|[]]; [|done].
           eapply reaches_agree; [|exact Hre]. intros y Hy. by apply Hag.
        -- by rewrite locs_blacken.
        -- done.
      * intros Hok. unfold key_list. rewrite locs_blacken, Hl1.
        cbn [heap] in Hok |- *.
        assert (forall y, y ∈ locs t -> key_of (heap s') y = key_of h y) as Hk'.
        { intros y Hy%elem_of_locs. apply key_of_data, Hsame. set_solver. }
        split; [by apply (descending_agree h); [|apply Hok]|].
        rewrite (map_ext_in _ _ _ (fun y Hy => Hk' y (proj2 (list_elem_of_In _ _) Hy))).
        pose proof (era_keys_none h0 k (F :: rest)) as Hnone.
        pose proof (walk_plug true (F :: rest) Leaf) as Hw.
        cbn [walk negb locs app] in Hw. rewrite <- Hw, Hl1 in Hnone.
        specialize (Hnone (Hok0 Hok)).
        specialize (Hnone (Hkeys1 (Hok0 Hok))).
        intros z. split; [|by intros [_ ?]]. intros Hz. split; [|done].
        rewrite <- Hmap0 in Hz by done. apply elem_of_map in Hz as (y & -> & Hy).
        rewrite Forall_forall in Hnone. by apply Hnone.
Qed.

(** ** Search *)

Lemma descent_reaches h k t : descent h k t <> None <-> reaches h k t.
Proof.
  induction t as [|c l IHl x r IHr]; simpl; [tauto|].
  destruct (Z.eqb_spec (cmp_at h k x) 0) as [Hc|Hc].
  - split; [by left | done].
  - destruct (cmp_at h k x <? 0); [rewrite IHr | rewrite IHl]; tauto.
Qed.

Lemma descent_Some h k t y :
  descent h k t = Some y -> y ∈ slocs t /\ cmp_at h k y = 0.
Proof.
  induction t as [|c l IHl x r IHr]; simpl; [done|].
  destruct (Z.eqb_spec (cmp_at h k x) 0) as [Hc|Hc].
  - intros [= <-]. split; [set_solver | done].
  - destruct (cmp_at h k x <? 0); intros H.
    + destruct (IHr H). split; [set_solver | done].
    + destruct (IHl H). split; [set_solver | done].
Qed.

Lemma absent_not_reaches s k t :
  in_int k -> key_absent s k t -> ~ reaches (heap s) k t.
Proof.
  intros Hk. unfold key_absent.
  induction t as [|c l IHl x r IHr]; simpl; [tauto|].
  rewrite Forall_app, Forall_cons. intros (Hl & (kx & Hx & Hkx & Hne) & Hr).
  assert (cmp_at (heap s) k x <> 0) as Hc.
  { unfold cmp_at. simpl in Hx. destruct (heap s !! x) as [n|]; [|done].
    injection Hx as <-. intros H0. by apply wrap_zero in H0. }
  intros [?|[_ Hre]]; [done|].
  destruct (cmp_at (heap s) k x <? 0); [by apply IHr | by apply IHl].
Qed.

Lemma key_absentb_sound s k t : key_absentb s k t = true -> key_absent s k t.
Proof.
  unfold key_absentb, key_absent. rewrite forallb_forall, Forall_forall.
  intros H x Hx. specialize (H x). rewrite <- list_elem_of_In in H.
  specialize (H Hx). destruct (key_at s (Some x)) as [kx|]; [|done].
  exists kx. apply andb_true_iff in H as [H1 H3].
  apply andb_true_iff in H1 as [H1 H2].
  split; [done|]. unfold in_int. split; [lia|].
  apply negb_true_iff in H3. lia.
Qed.

Lemma find_loop_spec fuel s node nn : forall t,
  repr (heap s) t -> heap s !! node = Some nn ->
  runs (find_loop fuel node (rootp t) s) (height t) fuel
    (fun r s' => s' = s /\ r = descent (heap s) (key (data nn)) t).
Proof.
  induction fuel as [|fuel IH]; intros t Hr Hnn.
  { simpl. split; [done | lia]. }
  destruct t as [|c l x r]; simpl find_loop.
  { cbn. done. }
  destruct Hr as ((n & Hn & _ & H0 & H1) & Hl & Hrr).
  rewrite (bind_ok _ _ _ _ _
             (node_cmp_at (heap s) (key (data nn)) s x n node nn
                (same_data_refl _) Hn Hnn eq_refl)).
  cbn [descent].
  destruct (Z.eqb_spec (cmp_at (heap s) (key (data nn)) x) 0) as [Hc|Hc].
  { cbn. done. }
  rewrite (bind_ok _ _ _ _ _ (get_link_ok s x n _ Hn)).
  destruct (cmp_at (heap s) (key (data nn)) x <? 0) eqn:E; cbn [link].
  - rewrite H1. eapply runs_weaken; [by apply (IH r) | simpl; lia | done].
  - rewrite H0. eapply runs_weaken; [by apply (IH l) | simpl; lia | done].
Qed.

Lemma jsw_rbfind_descent fuel s t node nn :
  holds s t -> heap s !! node = Some nn ->
  runs (jsw_rbfind fuel node s) (height t) fuel
    (fun r s' => s' = s /\ r = descent (heap s) (key (data nn)) t).
Proof.
  intros (Hroot & Hr & _) Hnn. unfold jsw_rbfind.
  unfold get_root, bind at 1. rewrite Hroot.
  eapply runs_bind; [by apply (find_loop_spec fuel s node nn t)|].
  intros a s' [-> ->]. cbn. split; [done|]. by destruct (descent _ _ _).
Qed.

Lemma jsw_rbfind_reaches fuel s t node nn y s' :
  holds s t -> heap s !! node = Some nn ->
  jsw_rbfind fuel node s = Ok (Some y) s' ->
  reaches (heap s) (key (data nn)) t.
Proof.
  intros Hh Hnn Hrun.
  pose proof (jsw_rbfind_descent fuel s t node nn Hh Hnn) as H.
  rewrite Hrun in H. destruct H as [_ Hd]. apply descent_reaches.
  by rewrite <- Hd.
Qed.

(** ** The cursor: stack bounds and the precondition of stepping *)

Lemma cursor_call_spec s t fuel op tr :
  holds s t -> (height t <= HEIGHT_LIMIT)%nat ->
  length (path tr) = HEIGHT_LIMIT ->
  (is_seed op = true \/ cursor_at t tr) ->
  runs (cursor_call fuel s op tr) (height t) fuel (fun p tr' =>
    it tr' = p /\ (cursor_done tr' \/ cursor_at t tr')).
Proof.
  intros Hh Hht Hlen Hpre.
  destruct op; simpl;
    try (apply start_spec; [done | lia | done]);
    (destruct Hpre as [?|?]; [done|]); apply move_spec; try done; lia.
Qed.

Lemma cursor_state_length t tr :
  cursor_done tr \/ cursor_at t tr -> length (path tr) = HEIGHT_LIMIT.
Proof. intros [(_ & _ & ?) | (ctx & tq & _ & _ & _ & _ & _ & ?)]; done. Qed.

Lemma cursor_state_top t tr :
  (height t <= HEIGHT_LIMIT)%nat ->
  cursor_done tr \/ cursor_at t tr -> (top tr < HEIGHT_LIMIT)%nat.
Proof.
  intros Hht [(_ & -> & _) | (ctx & tq & Ht & Hne & Hcur)].
  - unfold HEIGHT_LIMIT. lia.
  - pose proof (cur_top _ _ _ _ Hcur Ht Hne). lia.
Qed.

Lemma cursor_calls_spec s t fuel ops : forall tr,
  holds s t -> (height t <= HEIGHT_LIMIT)%nat ->
  cursor_done tr \/ cursor_at t tr ->
  match cursor_calls fuel s ops tr with
  | Ok _ tr' => cursor_done tr' \/ cursor_at t tr'
  | Err e => e = NullDeref \/ e = OutOfFuel /\ (fuel <= height t)%nat
  end.
Proof.
  induction ops as [|op ops IH]; intros tr Hh Hht Hst; simpl; [done|].
  unfold bind at 1.
  destruct (is_seed op) eqn:Hseed; [|destruct Hst as [Hdone | Hat]].
  - pose proof (cursor_call_spec s t fuel op tr Hh Hht
                  (cursor_state_length _ _ Hst) (or_introl Hseed)) as Hc.
    destruct (cursor_call fuel s op tr) as [p tr1|e]; simpl in Hc; [|by right].
    destruct Hc as [_ Hst1]. specialize (IH tr1 Hh Hht Hst1).
    unfold bind. destruct (cursor_calls fuel s ops tr1); done.
  - destruct Hdone as (Hnone & _).
    destruct op; try done; simpl; unfold jsw_rbtnext, jsw_rbtprev;
      rewrite move_null by done; by left.
  - pose proof (cursor_call_spec s t fuel op tr Hh Hht
                  (cursor_state_length _ _ (or_intror Hat)) (or_intror Hat)) as Hc.
    destruct (cursor_call fuel s op tr) as [p tr1|e]; simpl in Hc; [|by right].
    destruct Hc as [_ Hst1]. specialize (IH tr1 Hh Hht Hst1).
    unfold bind. destruct (cursor_calls fuel s ops tr1); done.
Qed.

Lemma cursor_calls_seeded s t fuel op ops tr :
  holds s t -> (height t <= HEIGHT_LIMIT)%nat ->
  length (path tr) = HEIGHT_LIMIT -> is_seed op = true ->
  match cursor_calls fuel s (op :: ops) tr with
  | Ok _ tr' => cursor_done tr' \/ cursor_at t tr'
  | Err e => e = NullDeref \/ e = OutOfFuel /\ (fuel <= height t)%nat
  end.
Proof.
  intros Hh Hht Hlen Hseed. simpl. unfold bind at 1.
  pose proof (cursor_call_spec s t fuel op tr Hh Hht Hlen (or_introl Hseed)) as Hc.
  destruct (cursor_call fuel s op tr) as [p tr1|e]; simpl in Hc; [|by right].
  destruct Hc as [_ Hst1].
  pose proof (cursor_calls_spec s t fuel ops tr1 Hh Hht Hst1) as IH.
  unfold bind. destruct (cursor_calls fuel s ops tr1); done.
Qed.

(** X9: on a red-black tree with fewer than [2^32 - 1] nodes, a
    cursor that is seeded with [jsw_rbtfirst] or [jsw_rbtlast] and then put
    through any sequence of cursor calls never accesses [path] out of
    bounds: the tree is at most 62 high, the stack index stays below
    [HEIGHT_LIMIT], and the run faults only when an exhausted cursor is
    stepped (or when the fuel of the model is no more than the height). *)
Theorem path_stack_in_bounds (s : store) (t : tree) (tr : jsw_rbtrav)
    (fuel : nat) (op : cursor_op) (ops : list cursor_op) :
  holds s t -> rb_inv t -> (size t + 1 < 2 ^ 32)%nat ->
  length (path tr) = HEIGHT_LIMIT -> is_seed op = true ->
  match cursor_calls fuel s (op :: ops) tr with
  | Ok _ tr' => (top tr' < HEIGHT_LIMIT)%nat
  | Err e => e <> OutOfBounds /\
             (e = NullDeref \/ e = OutOfFuel /\ (fuel <= height t)%nat)
  end.
Proof.
  intros Hh Hrb Hsz Hlen Hseed.
  pose proof (rb_height_limit t Hrb Hsz) as Hht.
  pose proof (cursor_calls_seeded s t fuel op ops tr Hh Hht Hlen Hseed) as H.
  destruct (cursor_calls fuel s (op :: ops) tr) as [ps tr'|e].
  - by apply (cursor_state_top t).
  - split; [|done]. by destruct H as [-> | [-> _]].
Qed.

Lemma path_stack_in_bounds_witness :
  match cursor_calls 8 store_5
          [op_first; op_next; op_next; op_prev; op_last; op_prev] trav_0 with
  | Ok _ tr' => (top tr' < HEIGHT_LIMIT)%nat
  | Err e => e <> OutOfBounds /\
             (e = NullDeref \/ e = OutOfFuel /\ (8 <= height tree_5)%nat)
  end.
Proof.
  apply (path_stack_in_bounds store_5 tree_5 trav_0 8 op_first
           [op_next; op_next; op_prev; op_last; op_prev]).
  - apply holdsb_sound. vm_compute. reflexivity.
  - apply rb_invb_sound. vm_compute. reflexivity.
  - assert (size tree_5 = 5%nat) as -> by (vm_compute; reflexivity).
    apply Nat.lt_le_trans with (2 ^ 3)%nat; [simpl; lia|].
    apply Nat.pow_le_mono_r; lia.
  - vm_compute. reflexivity.
  - reflexivity.
Defined.



Ltac fresh_node :=
  rewrite <- elem_of_locs; vm_compute;
  let H := fresh in
  intros H; repeat (apply elem_of_cons in H as [H|H]; [discriminate|]);
  by apply elem_of_nil in H.

(** ** Search *)

(** X1: [jsw_rbfind] only reads.  On a tree laid out in the store it
    ends after at most as many iterations as the tree is high, leaves the
    store as it was, and returns the node on which the descent for the key of
    the probe ends: a node of the tree whose key compares equal to the
    probe's, or NULL when the descent meets no such node. *)
Theorem jsw_rbfind_reads_only (fuel : nat) (s : store) (t : tree)
    (node : loc) (nn : jsw_rbnode) :
  holds s t -> heap s !! node = Some nn ->
  runs (jsw_rbfind fuel node s) (height t) fuel
    (fun r s' =>
       s' = s /\ r = descent (heap s) (key (data nn)) t /\
       match r with
       | Some y => y ∈ slocs t /\ node_cmp y node s = Ok 0 s
       | None => ~ reaches (heap s) (key (data nn)) t
       end).
Proof.
  intros Hh Hnn.
  eapply runs_weaken; [by apply (jsw_rbfind_descent fuel s t node nn) | done |].
  intros r s' [-> ->]. split; [done|]. split; [done|].
  destruct (descent (heap s) (key (data nn)) t) as [y|] eqn:E.
  - destruct (descent_Some _ _ _ _ E) as [Hy Hc]. split; [done|].
    destruct Hh as (_ & Hr & _).
    destruct (repr_lookup _ _ _ Hr Hy) as [ny Hny].
    rewrite (node_cmp_at (heap s) (key (data nn)) s y ny node nn
               (same_data_refl _) Hny Hnn eq_refl).
    by rewrite Hc.
  - intros Hre%descent_reaches. done.
Qed.

Lemma jsw_rbfind_reads_only_witness :
  runs (jsw_rbfind 64 (Nd 4) store_dup) (height tree_dup) 64
    (fun r s' =>
       s' = store_dup /\
       r = descent (heap store_dup) (key (data (blank 1))) tree_dup /\
       match r with
       | Some y => y ∈ slocs tree_dup /\
                   node_cmp y (Nd 4) store_dup = Ok 0 store_dup
       | None => ~ reaches (heap store_dup) (key (data (blank 1))) tree_dup
       end).
Proof.
  apply (jsw_rbfind_reads_only 64 store_dup tree_dup (Nd 4) (blank 1)).
  - apply holdsb_sound. vm_compute. reflexivity.
  - vm_compute. reflexivity.
Defined.

(** X2: when the keys of the tree and of the probe are [int]
    values and no node of the tree has the key of the probe, [jsw_rbfind]
    returns NULL. *)
Theorem jsw_rbfind_absent_key (fuel : nat) (s : store) (t : tree)
    (node : loc) (nn : jsw_rbnode) :
  holds s t -> heap s !! node = Some nn ->
  in_int (key (data nn)) -> key_absent s (key (data nn)) t ->
  runs (jsw_rbfind fuel node s) (height t) fuel
    (fun r s' => s' = s /\ r = None).
Proof.
  intros Hh Hnn Hk Hab.
  pose proof (absent_not_reaches s _ t Hk Hab) as Hno.
  eapply runs_weaken; [by apply (jsw_rbfind_descent fuel s t node nn) | done |].
  intros r s' [-> ->]. split; [done|].
  destruct (descent (heap s) (key (data nn)) t) eqn:E; [|done].
  destruct Hno. apply descent_reaches. by rewrite E.
Qed.

Lemma jsw_rbfind_absent_key_witness :
  runs (jsw_rbfind 64 (Nd 5) store_abs) (height tree_abs) 64
    (fun r s' => s' = store_abs /\ r = None).
Proof.
  apply (jsw_rbfind_absent_key 64 store_abs tree_abs (Nd 5) (blank 0)).
  - apply holdsb_sound. vm_compute. reflexivity.
  - vm_compute. reflexivity.
  - vm_compute. split; discriminate.
  - apply key_absentb_sound. vm_compute. reflexivity.
Defined.

(** ** Insertion *)

(** X3: on a red-black tree, [jsw_rbinsert] with a record that is not
    linked in yet runs to its end within twice the height plus two
    iterations, returns 1 and leaves a red-black tree: the root is black, no
    red node has a red child, and all paths to an absent child cross equally
    many black nodes.  It never returns 0. *)
Theorem jsw_rbinsert_keeps_rb (fuel : nat) (s : store) (t : tree)
    (node : loc) (nn : jsw_rbnode) :
  holds s t -> rb_inv t ->
  heap s !! node = Some nn -> node ∉ slocs t -> node <> Head ->
  runs (jsw_rbinsert fuel node s) (2 * height t + 1) fuel
    (fun z s' => z = 1 /\ exists t', holds s' t' /\ rb_inv t').
Proof.
  intros Hh Hrb Hnn Hnin Hnh.
  eapply runs_weaken; [by apply (jsw_rbinsert_spec fuel s t node nn) | done |].
  intros z s' (-> & t' & ? & ? & _). eauto.
Qed.

Lemma jsw_rbinsert_keeps_rb_witness :
  runs (jsw_rbinsert 64 (Nd 5) store_4) (2 * height tree_4 + 1) 64
    (fun z s' => z = 1 /\ exists t', holds s' t' /\ rb_inv t').
Proof.
  apply (jsw_rbinsert_keeps_rb 64 store_4 tree_4 (Nd 5) (blank 3)).
  - apply holdsb_sound. vm_compute. reflexivity.
  - apply rb_invb_sound. vm_compute. reflexivity.
  - vm_compute. reflexivity.
  - fresh_node.
  - discriminate.
Defined.

(** X4: when no node of a red-black tree has the key of the record
    (all keys being [int] values), [jsw_rbinsert] links the record in: the
    nodes of the tree come in the order they had, with the record between
    two of them, and no data is written, neither in the tree nor in the
    record. *)
Theorem jsw_rbinsert_links_new_key (fuel : nat) (s : store) (t : tree)
    (node : loc) (nn : jsw_rbnode) :
  holds s t -> rb_inv t ->
  heap s !! node = Some nn -> node ∉ slocs t -> node <> Head ->
  in_int (key (data nn)) -> key_absent s (key (data nn)) t ->
  runs (jsw_rbinsert fuel node s) (2 * height t + 1) fuel
    (fun z s' =>
       exists t' l1 l2,
         holds s' t' /\ locs t = l1 ++ l2 /\ locs t' = l1 ++ node :: l2 /\
         forall x, x <> Head -> data <$> heap s' !! x = data <$> heap s !! x).
Proof.
  intros Hh Hrb Hnn Hnin Hnh Hk Hab.
  pose proof (absent_not_reaches s _ t Hk Hab) as Hno.
  eapply runs_weaken; [by apply (jsw_rbinsert_spec fuel s t node nn) | done |].
  intros z s' (-> & t' & ? & ? & Hd & [(? & _)|(_ & l1 & l2 & ? & ? & _)]); [done|].
  exists t', l1, l2. done.
Qed.

Lemma jsw_rbinsert_links_new_key_witness :
  runs (jsw_rbinsert 64 (Nd 5) store_abs) (2 * height tree_abs + 1) 64
    (fun z s' =>
       exists t' l1 l2,
         holds s' t' /\ locs tree_abs = l1 ++ l2 /\
         locs t' = l1 ++ Nd 5 :: l2 /\
         forall x, x <> Head ->
                   data <$> heap s' !! x = data <$> heap store_abs !! x).
Proof.
  apply (jsw_rbinsert_links_new_key 64 store_abs tree_abs (Nd 5) (blank 0)).
  - apply holdsb_sound. vm_compute. reflexivity.
  - apply rb_invb_sound. vm_compute. reflexivity.
  - vm_compute. reflexivity.
  - fresh_node.
  - discriminate.
  - vm_compute. split; discriminate.
  - apply key_absentb_sound. vm_compute. reflexivity.
Defined.



(** ** Erasure *)

(** X6: on a red-black tree, [jsw_rberase] runs to its end within the
    height plus one iterations, returns 1 and leaves a red-black tree,
    whether the key of the probe is met or not. *)
Theorem jsw_rberase_keeps_rb (fuel : nat) (s : store) (t : tree)
    (node : loc) (nn : jsw_rbnode) :
  holds s t -> rb_inv t -> heap s !! node = Some nn -> node <> Head ->
  runs (jsw_rberase fuel node s) (height t) fuel
    (fun z s' => z = 1 /\ exists t', holds s' t' /\ rb_inv t').
Proof.
  intros Hh Hrb Hnn Hnh.
  eapply runs_weaken; [by apply (jsw_rberase_spec fuel s t node nn) | done |].
  intros z s' (-> & t' & ? & ? & _). eauto.
Qed.

Lemma jsw_rberase_keeps_rb_witness :
  runs (jsw_rberase 64 (Nd 2) store_4) (height tree_4) 64
    (fun z s' => z = 1 /\ exists t', holds s' t' /\ rb_inv t').
Proof.
  apply (jsw_rberase_keeps_rb 64 store_4 tree_4 (Nd 2)
           {| red := false; link0 := None; link1 := Some (Nd 4);
              data := {| key := 20 |} |}).
  - apply holdsb_sound. vm_compute. reflexivity.
  - apply rb_invb_sound. vm_compute. reflexivity.
  - vm_compute. reflexivity.
  - discriminate.
Defined.

(** X7: when no node of a red-black tree has the key of the probe
    (all keys being [int] values), [jsw_rberase] takes no node out: the tree
    holds the nodes it held, in the same order and with the same data.
    Colours and links on the way down may differ afterwards. *)
Theorem jsw_rberase_absent_keeps_nodes (fuel : nat) (s : store) (t : tree)
    (node : loc) (nn : jsw_rbnode) :
  holds s t -> rb_inv t -> heap s !! node = Some nn -> node <> Head ->
  in_int (key (data nn)) -> key_absent s (key (data nn)) t ->
  runs (jsw_rberase fuel node s) (height t) fuel
    (fun z s' =>
       z = 1 /\
       exists t', holds s' t' /\ locs t' = locs t /\
         forall x, x <> Head -> data <$> heap s' !! x = data <$> heap s !! x).
Proof.
  intros Hh Hrb Hnn Hnh Hk Hab.
  pose proof (absent_not_reaches s _ t Hk Hab) as Hno.
  eapply runs_weaken; [by apply (jsw_rberase_spec fuel s t node nn) | done |].
  intros z s' (-> & t' & ? & ? & _ & [(_ & ? & ?)|(Hre & _)] & _); [|done].
  split; [done|]. exists t'. done.
Qed.

Lemma jsw_rberase_absent_keeps_nodes_witness :
  runs (jsw_rberase 64 (Nd 5) store_abs) (height tree_abs) 64
    (fun z s' =>
       z = 1 /\
       exists t', holds s' t' /\ locs t' = locs tree_abs /\
         forall x, x <> Head ->
                   data <$> heap s' !! x = data <$> heap store_abs !! x).
Proof.
  apply (jsw_rberase_absent_keeps_nodes 64 store_abs tree_abs (Nd 5) (blank 0)).
  - apply holdsb_sound. vm_compute. reflexivity.
  - apply rb_invb_sound. vm_compute. reflexivity.
  - vm_compute. reflexivity.
  - discriminate.
  - vm_compute. split; discriminate.
  - apply key_absentb_sound. vm_compute. reflexivity.
Defined.

(** X8: when [jsw_rbfind] finds the key of the probe in a red-black
    tree, [jsw_rberase] takes exactly one node out of it: the other nodes
    come in the order they had. *)
Theorem jsw_rberase_takes_one_node (fuel fuel' : nat) (s s0 : store)
    (t : tree) (node y : loc) (nn : jsw_rbnode) :
  holds s t -> rb_inv t -> heap s !! node = Some nn -> node <> Head ->
  jsw_rbfind fuel' node s = Ok (Some y) s0 ->
  runs (jsw_rberase fuel node s) (height t) fuel
    (fun z s' =>
       exists t' l1 x l2,
         holds s' t' /\ locs t = l1 ++ x :: l2 /\ locs t' = l1 ++ l2).
Proof.
  intros Hh Hrb Hnn Hnh Hfind.
  pose proof (jsw_rbfind_reaches _ _ _ _ _ _ _ Hh Hnn Hfind) as Hre.
  eapply runs_weaken; [by apply (jsw_rberase_spec fuel s t node nn) | done |].
  intros z s' (-> & t' & ? & ? & _ & [(Hno & _)|(_ & l1 & x & l2 & ? & ? & _)] & _); [done|].
  exists t', l1, x, l2. done.
Qed.

Lemma jsw_rberase_takes_one_node_witness :
  runs (jsw_rberase 64 (Nd 2) store_4) (height tree_4) 64
    (fun z s' =>
       exists t' l1 x l2,
         holds s' t' /\ locs tree_4 = l1 ++ x :: l2 /\ locs t' = l1 ++ l2).
Proof.
  apply (jsw_rberase_takes_one_node 64 64 store_4 store_4 tree_4 (Nd 2) (Nd 2)
           {| red := false; link0 := None; link1 := Some (Nd 4);
              data := {| key := 20 |} |}).
  - apply holdsb_sound. vm_compute. reflexivity.
  - apply rb_invb_sound. vm_compute. reflexivity.
  - vm_compute. reflexivity.
  - discriminate.
  - vm_compute. reflexivity.
Defined.

(** ** The rotations *)

Lemma wfb_sound t : bool_decide (NoDup (locs t)) = true -> wf t.
Proof. intros H%bool_decide_eq_true. by apply NoDup_locs. Qed.

(** X11: [jsw_single ( root, dir )] needs the child of [root] away
    from [dir]: without it, it dereferences NULL.  With it, that child [x]
    becomes the black parent of [root], which turns red and takes over the
    subtree that hung at [x->link[dir]]; [x] is returned, the nodes come in
    the order they had, only [root] and [x] are written, and no data
    changes. *)
Theorem jsw_single_rotates (s : store) (d c : bool) (r : loc) (A S : tree) :
  repr (heap s) (mk d c r A S) -> wf (mk d c r A S) ->
  match S with
  | Leaf => jsw_single (Some r) d s = Err NullDeref
  | T cx _ x _ =>
    let B := child S d in
    let C := child S (negb d) in
    let t' := mk d false x (mk d true r A B) C in
    exists s',
      jsw_single (Some r) d s = Ok (Some x) s' /\
      root s' = root s /\ repr (heap s') t' /\
      locs t' = locs (mk d c r A S) /\
      same_outside {[r; x]} (heap s) (heap s') /\
      same_data (heap s) (heap s')
  end.
Proof.
  intros Hr Hwf. destruct s as [rt h].
  destruct S as [|cx l x rr].
  - destruct d; unfold mk in *; cbn [repr wf slocs heap] in *;
      destruct_all; open_nodes; munfold; mrun; reflexivity.
  - destruct d; unfold mk in *; cbn [repr wf slocs heap child negb] in *.
    all: destruct_all; open_nodes; norm_wf.
    all: eexists; split; [munfold; mrun; reflexivity|].
    all: refine (conj _ (conj _ (conj _ (conj _ _))));
      [done | repr_tac | list_assoc | | same_tac].
    all: cbn [heap]; repeat (apply same_outside_insert; [set_solver|]);
      apply same_outside_refl.
Qed.

Lemma jsw_single_rotates_witness :
  exists s',
    jsw_single (Some (Nd 1)) true store_5 = Ok (Some (Nd 2)) s' /\
    root s' = root store_5 /\
    repr (heap s')
      (mk true false (Nd 2)
         (mk true true (Nd 1) (T false Leaf (Nd 3) (T true Leaf (Nd 5) Leaf))
            (T true Leaf (Nd 4) Leaf)) Leaf) /\
    locs (mk true false (Nd 2)
            (mk true true (Nd 1) (T false Leaf (Nd 3) (T true Leaf (Nd 5) Leaf))
               (T true Leaf (Nd 4) Leaf)) Leaf)
    = locs (mk true false (Nd 1) (T false Leaf (Nd 3) (T true Leaf (Nd 5) Leaf))
              (T false Leaf (Nd 2) (T true Leaf (Nd 4) Leaf))) /\
    same_outside {[Nd 1; Nd 2]} (heap store_5) (heap s') /\
    same_data (heap store_5) (heap s').
Proof.
  apply (jsw_single_rotates store_5 true false (Nd 1)
           (T false Leaf (Nd 3) (T true Leaf (Nd 5) Leaf))
           (T false Leaf (Nd 2) (T true Leaf (Nd 4) Leaf))).
  - apply reprb_sound. vm_compute. reflexivity.
  - apply wfb_sound. vm_compute. reflexivity.
Defined.

(** X12: [jsw_double ( root, dir )] needs the child [x] of [root] away
    from [dir] and the child [m] of [x] towards [dir]: without one of them,
    it dereferences NULL.  With both, [m] becomes the black parent of [root]
    and [x], which turn red and share the two subtrees of [m]; [m] is
    returned, the nodes come in the order they had, only these three nodes
    are written, and no data changes. *)
Theorem jsw_double_rotates (s : store) (d c : bool) (r : loc) (A S : tree) :
  repr (heap s) (mk d c r A S) -> wf (mk d c r A S) ->
  match S, child S d with
  | Leaf, _ => jsw_double (Some r) d s = Err NullDeref
  | T _ _ _ _, Leaf => jsw_double (Some r) d s = Err NullDeref
  | T _ _ x _, T _ _ m _ =>
    let Ma := child (child S d) d in
    let Mb := child (child S d) (negb d) in
    let C := child S (negb d) in
    let t' := mk d false m (mk d true r A Ma) (mk d true x Mb C) in
    exists s',
      jsw_double (Some r) d s = Ok (Some m) s' /\
      root s' = root s /\ repr (heap s') t' /\
      locs t' = locs (mk d c r A S) /\
      same_outside {[r; x; m]} (heap s) (heap s') /\
      same_data (heap s) (heap s')
  end.
Proof.
  intros Hr Hwf. destruct s as [rt h].
  destruct S as [|cx l x rr].
  { destruct d; unfold mk in *; cbn [repr wf slocs heap] in *;
      destruct_all; open_nodes; munfold; mrun; reflexivity. }
  destruct d; cbn [child negb].
  - destruct rr as [|cm ml m mr].
    + unfold mk in *; cbn [repr wf slocs heap] in *;
        destruct_all; open_nodes; munfold; mrun; reflexivity.
    + unfold mk in *; cbn [repr wf slocs heap child negb] in *.
      destruct_all; open_nodes; norm_wf.
      eexists; split; [munfold; mrun; reflexivity|].
      refine (conj _ (conj _ (conj _ (conj _ _))));
        [done | repr_tac | list_assoc | | same_tac].
      cbn [heap]; repeat (apply same_outside_insert; [set_solver|]);
        apply same_outside_refl.
  - destruct l as [|cm ml m mr].
    + unfold mk in *; cbn [repr wf slocs heap] in *;
        destruct_all; open_nodes; munfold; mrun; reflexivity.
    + unfold mk in *; cbn [repr wf slocs heap child negb] in *.
      destruct_all; open_nodes; norm_wf.
      eexists; split; [munfold; mrun; reflexivity|].
      refine (conj _ (conj _ (conj _ (conj _ _))));
        [done | repr_tac | list_assoc | | same_tac].
      cbn [heap]; repeat (apply same_outside_insert; [set_solver|]);
        apply same_outside_refl.
Qed.

Lemma jsw_double_rotates_witness :
  exists s',
    jsw_double (Some (Nd 1)) true store_5 = Ok (Some (Nd 4)) s' /\
    root s' = root store_5 /\
    repr (heap s')
      (mk true false (Nd 4)
         (mk true true (Nd 1) (T false Leaf (Nd 3) (T true Leaf (Nd 5) Leaf))
            Leaf)
         (mk true true (Nd 2) Leaf Leaf)) /\
    locs (mk true false (Nd 4)
            (mk true true (Nd 1) (T false Leaf (Nd 3) (T true Leaf (Nd 5) Leaf))
               Leaf)
            (mk true true (Nd 2) Leaf Leaf))
    = locs (mk true false (Nd 1) (T false Leaf (Nd 3) (T true Leaf (Nd 5) Leaf))
              (T false Leaf (Nd 2) (T true Leaf (Nd 4) Leaf))) /\
    same_outside {[Nd 1; Nd 2; Nd 4]} (heap store_5) (heap s') /\
    same_data (heap store_5) (heap s').
Proof.
  apply (jsw_double_rotates store_5 true false (Nd 1)
           (T false Leaf (Nd 3) (T true Leaf (Nd 5) Leaf))
           (T false Leaf (Nd 2) (T true Leaf (Nd 4) Leaf))).
  - apply reprb_sound. vm_compute. reflexivity.
  - apply wfb_sound. vm_compute. reflexivity.
Defined.

(** ** The cursor: where it stands and what it returns *)

Lemma head_rev {A} (l : list A) : head (rev l) = last l.
Proof.
  induction l as [|x l _] using rev_ind; [done|].
  by rewrite rev_app_distr, last_snoc.
Qed.

Lemma cursor_state t (tr : jsw_rbtrav) (p : ptr) :
  it tr = p -> cursor_done tr \/ cursor_at t tr ->
  match p with Some y => cursor_on t y tr | None => cursor_done tr end.
Proof.
  intros Hit [Hd | Hat]; destruct p as [y|]; try done.
  - destruct Hd as (Hn & _). congruence.
  - destruct Hat as (ctx & tq & _ & Hne & Hi & _).
    rewrite Hi in Hit. by destruct tq.
Qed.



Lemma start_ok s d fuel t tr :
  holds s t -> (height t <= S HEIGHT_LIMIT)%nat ->
  length (path tr) = HEIGHT_LIMIT -> (height t < fuel)%nat ->
  exists tr', start fuel s (negb d) tr = Ok (head (walk d t)) tr' /\
    match head (walk d t) with
    | Some y => cursor_on t y tr'
    | None => cursor_done tr'
    end.
Proof.
  intros Hh Hht Hlen Hfuel.
  destruct (runs_ok _ _ _ _ (start_to s (negb d) fuel t tr Hh Hht Hlen) Hfuel)
    as (p & tr' & Hrun & -> & Hit & Hst).
  rewrite negb_involutive in *. exists tr'. split; [done|].
  by apply cursor_state.
Qed.




(** X13: on a tree at most 65 high, [jsw_rbtfirst] returns the first
    node of the link[0]-to-link[1] order and [jsw_rbtlast] the last one, and
    the cursor is left standing on it; on an empty tree both return NULL and
    leave an exhausted cursor. *)
Theorem jsw_rbtfirst_last_ends (s : store) (t : tree) (tr : jsw_rbtrav)
    (fuel : nat) :
  holds s t -> (height t <= S HEIGHT_LIMIT)%nat ->
  length (path tr) = HEIGHT_LIMIT -> (height t < fuel)%nat ->
  (exists tr', jsw_rbtfirst fuel s tr = Ok (head (locs t)) tr' /\
     match head (locs t) with
     | Some y => cursor_on t y tr'
     | None => cursor_done tr'
     end) /\
  (exists tr', jsw_rbtlast fuel s tr = Ok (last (locs t)) tr' /\
     match last (locs t) with
     | Some y => cursor_on t y tr'
     | None => cursor_done tr'
     end).
Proof.
  intros Hh Hht Hlen Hfuel. split.
  - apply (start_ok s true fuel t tr Hh Hht Hlen Hfuel).
  - pose proof (start_ok s false fuel t tr Hh Hht Hlen Hfuel) as H.
    unfold walk in H. rewrite head_rev in H. exact H.
Qed.

Lemma jsw_rbtfirst_last_ends_witness :
  (exists tr', jsw_rbtfirst 8 store_5 trav_0 = Ok (head (locs tree_5)) tr' /\
     match head (locs tree_5) with
     | Some y => cursor_on tree_5 y tr'
     | None => cursor_done tr'
     end) /\
  (exists tr', jsw_rbtlast 8 store_5 trav_0 = Ok (last (locs tree_5)) tr' /\
     match last (locs tree_5) with
     | Some y => cursor_on tree_5 y tr'
     | None => cursor_done tr'
     end).
Proof.
  apply (jsw_rbtfirst_last_ends store_5 tree_5 trav_0 8).
  - apply holdsb_sound. vm_compute. reflexivity.
  - vm_compute. lia.
  - vm_compute. reflexivity.
  - vm_compute. lia.
Defined.





(** ** Trees in key order *)

Lemma repr_present h t : repr h t -> Forall (fun x => is_Some (h !! x)) (locs t).
Proof.
  intros Hr. apply Forall_forall. intros x Hx%elem_of_locs.
  by apply (repr_lookup h t).
Qed.

Lemma key_of_lookup h x n : h !! x = Some n -> key_of h x = key (data n).
Proof. unfold key_of. by intros ->. Qed.

(** X16: on a tree whose keys descend from link[0] to link[1] and
    do not wrap around against the key of the probe, [jsw_rbfind] returns a
    node that holds the key of the probe when the tree has one, and NULL
    when it has none. *)
Theorem jsw_rbfind_finds_key (fuel : nat) (s : store) (t : tree)
    (node : loc) (nn : jsw_rbnode) :
  holds s t -> heap s !! node = Some nn ->
  keys_ok (heap s) (key (data nn)) (locs t) ->
  runs (jsw_rbfind fuel node s) (height t) fuel
    (fun r s' =>
       s' = s /\
       match r with
       | Some y => y ∈ locs t /\ key_of (heap s) y = key (data nn)
       | None => key (data nn) ∉ key_list (heap s) t
       end).
Proof.
  intros Hh Hnn Hok.
  eapply runs_weaken; [by apply (jsw_rbfind_descent fuel s t node nn) | done |].
  intros r s' [-> ->]. split; [done|].
  destruct Hh as (_ & Hr & _).
  pose proof (descent_sorted (heap s) (key (data nn)) t Hr Hok) as H.
  destruct (descent (heap s) (key (data nn)) t) as [y|]; [done|].
  unfold key_list. rewrite elem_of_map. intros (y & Hy & Hin).
  rewrite Forall_forall in H. by apply (H y Hin).
Qed.

Lemma jsw_rbfind_finds_key_witness :
  runs (jsw_rbfind 64 (Nd 4) store_dup) (height tree_dup) 64
    (fun r s' =>
       s' = store_dup /\
       match r with
       | Some y => y ∈ locs tree_dup /\
                   key_of (heap store_dup) y = key (data (blank 1))
       | None => key (data (blank 1)) ∉ key_list (heap store_dup) tree_dup
       end).
Proof.
  apply (jsw_rbfind_finds_key 64 store_dup tree_dup (Nd 4) (blank 1)).
  - apply holdsb_sound. vm_compute. reflexivity.
  - vm_compute. reflexivity.
  - apply keys_okb_sound. vm_compute. reflexivity.
Defined.

(** What [jsw_rbinsert] leaves behind when the tree was in key order. *)
Lemma insert_sorted s t node nn z s' :
  holds s t -> heap s !! node = Some nn -> node <> Head ->
  keys_ok (heap s) (key (data nn)) (locs t) ->
  insert_result s t node (key (data nn)) z s' ->
  exists t', holds s' t' /\ rb_inv t' /\
    descending (heap s') (locs t') /\
    (forall x, x <> Head -> key_of (heap s') x = key_of (heap s) x) /\
    ((key (data nn) ∈ key_list (heap s) t /\ locs t' = locs t) \/
     (key (data nn) ∉ key_list (heap s) t /\
      exists l1 l2, locs t = l1 ++ l2 /\ locs t' = l1 ++ node :: l2)).
Proof.
  intros (_ & Hr & _ & Hh) Hnn Hnh Hok (_ & t' & Hh' & Hrb' & Hd & Hcase).
  set (k := key (data nn)) in *.
  assert (forall x, x <> Head -> key_of (heap s') x = key_of (heap s) x) as Hk.
  { intros x Hx. by apply key_of_data, Hd. }
  assert (forall x, x ∈ locs t -> key_of (heap s') x = key_of (heap s) x) as Hkt.
  { intros x Hx%elem_of_locs. apply Hk. set_solver. }
  pose proof (descent_sorted (heap s) k t Hr Hok) as Hds.
  exists t'. split; [done|]. split; [done|].
  destruct Hcase as [(Hre & Hl & _) | (Hnre & l1 & l2 & Hl1 & Hl2 & ctx & Hp & -> & ->)].
  - split; [|split; [done|]].
    + rewrite Hl. apply (descending_agree (heap s)); [done | apply Hok].
    + left. split; [|done].
      apply descent_reaches in Hre.
      destruct (descent (heap s) k t) as [y|]; [|done].
      destruct Hds as [Hy Hky]. unfold key_list.
      apply elem_of_map. exists y. split; [by symmetry | done].
  - assert (descent (heap s) k t = None) as Hnone.
    { destruct (descent (heap s) k t) eqn:E; [|done].
      destruct Hnre. apply descent_reaches. by rewrite E. }
    rewrite Hnone in Hds.
    assert (Forall (fun F => is_Some (heap s !! fx F)) ctx) as Hpres.
    { apply Forall_forall. intros F HF.
      apply (repr_lookup _ t); [done|]. apply elem_of_locs. rewrite Hl1.
      by apply frame_in_ahead. }
    rewrite Hl1 in Hok.
    destruct (hole_keys (heap s) k ctx Hp Hpres Hok) as [H1 H2].
    split; [|split; [done|]].
    + rewrite Hl2. apply (descending_insert (heap s) _ k).
      * apply Hok.
      * apply Forall_forall. intros y Hy. rewrite elem_of_rev in Hy.
        rewrite Forall_forall in H1. by apply H1.
      * done.
      * rewrite (Hk node Hnh). by apply key_of_lookup.
      * intros x Hx. apply Hkt. by rewrite Hl1.
    + right. split; [|by exists (rev (ahead false ctx)), (ahead true ctx)].
      unfold key_list. rewrite elem_of_map. intros (y & Hy & Hin).
      rewrite Forall_forall in Hds. by apply (Hds y Hin).
Qed.

(** X17: [jsw_rbinsert] keeps a red-black tree in key order.  When
    the keys of the tree descend from link[0] to link[1] and do not wrap
    around against the new key, the tree it leaves is a red-black tree whose
    keys descend again, and its keys are the old ones and the new one. *)
Theorem jsw_rbinsert_keeps_order (fuel : nat) (s : store) (t : tree)
    (node : loc) (nn : jsw_rbnode) :
  holds s t -> rb_inv t ->
  heap s !! node = Some nn -> node ∉ slocs t -> node <> Head ->
  keys_ok (heap s) (key (data nn)) (locs t) ->
  runs (jsw_rbinsert fuel node s) (2 * height t + 1) fuel
    (fun z s' =>
       exists t', holds s' t' /\ rb_inv t' /\
         descending (heap s') (locs t') /\
         forall k, k ∈ key_list (heap s') t' <->
                   k = key (data nn) \/ k ∈ key_list (heap s) t).
Proof.
  intros Hh Hrb Hnn Hnin Hnh Hok.
  eapply runs_weaken;
    [by apply (jsw_rbinsert_spec fuel s t node nn) | done |].
  intros z s' Hres.
  destruct (insert_sorted s t node nn z s' Hh Hnn Hnh Hok Hres)
    as (t' & Hh' & Hrb' & Hd' & Hk & Hcase).
  exists t'. split_and!; try done.
  assert (forall l, l ⊆ locs t ->
            map (key_of (heap s')) l = map (key_of (heap s)) l) as Hmap.
  { intros l Hl. apply map_ext_in. intros x Hx%list_elem_of_In.
    apply Hk. intros ->. destruct Hh as (_ & _ & _ & HH). apply HH.
    apply elem_of_locs. by apply Hl. }
  intros k. unfold key_list.
  destruct Hcase as [[Hin ->] | (Hnin' & l1 & l2 & Hl1 & ->)].
  - rewrite Hmap by done. split; [by right|]. by intros [->|?].
  - rewrite Hl1, !map_app. simpl. rewrite <- !Hmap by (rewrite Hl1; set_solver).
    rewrite (Hk node Hnh), (key_of_lookup _ _ _ Hnn).
    rewrite !elem_of_app, elem_of_cons. tauto.
Qed.

Lemma jsw_rbinsert_keeps_order_witness :
  runs (jsw_rbinsert 64 (Nd 5) store_4) (2 * height tree_4 + 1) 64
    (fun z s' =>
       exists t', holds s' t' /\ rb_inv t' /\
         descending (heap s') (locs t') /\
         forall k, k ∈ key_list (heap s') t' <->
                   k = key (data (blank 3)) \/ k ∈ key_list (heap store_4) tree_4).
Proof.
  apply (jsw_rbinsert_keeps_order 64 store_4 tree_4 (Nd 5) (blank 3)).
  - apply holdsb_sound. vm_compute. reflexivity.
  - apply rb_invb_sound. vm_compute. reflexivity.
  - vm_compute. reflexivity.
  - rewrite <- elem_of_locs. vm_compute.
    intros H; repeat (apply elem_of_cons in H as [H|H]; [discriminate|]).
    by apply elem_of_nil in H.
  - discriminate.
  - apply keys_okb_sound. vm_compute. reflexivity.
Defined.






(** ** Erasure from trees in key order *)

(** X19: [jsw_rberase] keeps a red-black tree in key order.  When
    the keys of the tree descend from link[0] to link[1] and do not wrap
    around against the key of the probe, the tree it leaves is a red-black
    tree whose keys descend again, and its keys are the old ones but for the
    key of the probe. *)
Theorem jsw_rberase_keeps_order (fuel : nat) (s : store) (t : tree)
    (node : loc) (nn : jsw_rbnode) :
  holds s t -> rb_inv t -> heap s !! node = Some nn -> node <> Head ->
  keys_ok (heap s) (key (data nn)) (locs t) ->
  runs (jsw_rberase fuel node s) (height t) fuel
    (fun z s' =>
       exists t', holds s' t' /\ rb_inv t' /\
         descending (heap s') (locs t') /\
         forall k, k ∈ key_list (heap s') t' <->
                   k <> key (data nn) /\ k ∈ key_list (heap s) t).
Proof.
  intros Hh Hrb Hnn Hnh Hok.
  eapply runs_weaken; [by apply (jsw_rberase_spec fuel s t node nn) | done |].
  intros z s' (-> & t' & ? & ? & _ & _ & Hkeys).
  destruct (Hkeys Hok) as [? ?]. exists t'. done.
Qed.

Lemma jsw_rberase_keeps_order_witness :
  runs (jsw_rberase 64 (Nd 5) store_5) (height tree_5) 64
    (fun z s' =>
       exists t', holds s' t' /\ rb_inv t' /\
         descending (heap s') (locs t') /\
         forall k, k ∈ key_list (heap s') t' <->
                   k <> 3 /\ k ∈ key_list (heap store_5) tree_5).
Proof.
  apply (jsw_rberase_keeps_order 64 store_5 tree_5 (Nd 5)
           {| red := true; link0 := None; link1 := None;
              data := {| key := 3 |} |}).
  - apply holdsb_sound. vm_compute. reflexivity.
  - apply rb_invb_sound. vm_compute. reflexivity.
  - vm_compute. reflexivity.
  - discriminate.
  - apply keys_okb_sound. vm_compute. reflexivity.
Defined.






(** ** Sequences of insertions and erasures *)














(** ** Comparison, exactly *)

Lemma wrap_range z : INT_MIN <= wrap z <= INT_MAX.
Proof.
  unfold wrap, INT_MIN, INT_MAX.
  pose proof (Z.mod_pos_bound (z + 2 ^ 31) (2 ^ 32) ltac:(lia)). lia.
Qed.

(** X23: [node_cmp] only reads, yields an [int], and yields 0 exactly when
    the two keys are equal, also when the subtraction wraps around; when the
    difference of the keys is an [int], it yields that difference. *)
Theorem node_cmp_equal_keys (s : store) (a b : loc) (na nb : jsw_rbnode) :
  heap s !! a = Some na -> heap s !! b = Some nb ->
  in_int (key (data na)) -> in_int (key (data nb)) ->
  exists c, node_cmp a b s = Ok c s /\ in_int c /\
    (c = 0 <-> key (data nb) = key (data na)) /\
    (no_wrap (key (data nb)) (key (data na)) ->
     c = key (data nb) - key (data na)).
Proof.
  intros Ha Hb Hia Hib. eexists. split; [by apply node_cmp_ok|].
  split; [apply wrap_range|]. split; [split|].
  - by apply wrap_zero.
  - intros ->. by rewrite Z.sub_diag.
  - unfold no_wrap, INT_MIN, INT_MAX. intros ?. apply wrap_small. lia.
Qed.

Lemma node_cmp_equal_keys_witness :
  exists c, node_cmp (Nd 1) (Nd 2) store_5 = Ok c store_5 /\ in_int c /\
    (c = 0 <-> 20 = 10) /\ (no_wrap 20 10 -> c = 20 - 10).
Proof.
  apply (node_cmp_equal_keys store_5 (Nd 1) (Nd 2)
           {| red := false; link0 := Some (Nd 2); link1 := Some (Nd 3);
              data := {| key := 10 |} |}
           {| red := false; link0 := None; link1 := Some (Nd 4);
              data := {| key := 20 |} |}).
  - vm_compute. reflexivity.
  - vm_compute. reflexivity.
  - vm_compute. split; discriminate.
  - vm_compute. split; discriminate.
Defined.

(** ** A new cursor *)




(** ** Trees that are too high for the cursor *)

Lemma push_it_full tr :
  top tr = HEIGHT_LIMIT -> push_it tr = Err OutOfBounds.
Proof.
  intros Ht. unfold push_it, bind, get_top, get_it, set_top, set_path.
  cbn. by rewrite Ht.
Qed.

Lemma descend_overflow s d : forall fuel ctx tq tr,
  repr (heap s) tq -> cur ctx tq tr -> (length ctx <= HEIGHT_LIMIT)%nat ->
  (HEIGHT_LIMIT + 2 <= length ctx + spine d tq)%nat ->
  (spine d tq <= fuel)%nat ->
  descend fuel s d tr = Err OutOfBounds.
Proof.
  induction fuel as [|fuel IH]; intros ctx tq tr Hr Hcur Hlen Hsp Hfuel.
  { lia. }
  destruct tq as [|c l x r]; [cbn [spine] in Hsp; lia|].
  rewrite (mk_child d) in Hr.
  apply repr_mk in Hr as ((n & Hn & Hc & Hl1 & Hl2) & Hr1 & Hr2).
  pose proof Hcur as (Hit & Htop & Hpath & Hpl).
  assert (spine d (T c l x r) = S (spine d (child (T c l x r) d))) as Hs
    by (by destruct d).
  rewrite Hs in Hsp, Hfuel.
  destruct (child (T c l x r) d) as [|c' l' x' r'] eqn:Hch.
  { cbn [spine] in Hsp. lia. }
  destruct (decide (length ctx = HEIGHT_LIMIT)) as [Hfull|Hnot].
  - cbn [descend]. unfold bind at 1 2 3.
    unfold get_it at 1, deref at 1, ret at 1, node_link at 1.
    rewrite Hit. cbn [rootp]. rewrite Hn, Hl1. cbn [rootp].
    unfold bind at 1. rewrite push_it_full; [done | congruence].
  - assert (length ctx < HEIGHT_LIMIT)%nat as Hlt by lia.
    destruct (push_it_cur ctx (T c l x r) tr c x d (child (T c l x r) (negb d))
                Hcur Hlt eq_refl) as (tr' & Hpush & Hit' & Hcur').
    specialize (Hcur' (T c' l' x' r')).
    match type of Hcur' with cur _ _ ?t => set (tr1 := t) in * end.
    assert (descend (S fuel) s d tr = descend fuel s d tr1) as ->.
    { cbn [descend]. unfold bind at 1 2 3.
      unfold get_it at 1, deref at 1, ret at 1, node_link at 1.
      rewrite Hit. cbn [rootp]. rewrite Hn, Hl1. cbn [rootp].
      unfold bind at 1. rewrite Hpush.
      unfold bind, get_it, deref, ret, node_link, set_it.
      rewrite Hit', Hit. cbn [rootp]. rewrite Hn, Hl1. done. }
    apply (IH _ _ _ Hr1 Hcur'); simpl length; lia.
Qed.

(** X25: [start] does not check the stack index.  When the way
    from the root along [link[0]] has 66 nodes or more, [jsw_rbtfirst]
    stores past the end of [path], which has [HEIGHT_LIMIT] entries;
    likewise [jsw_rbtlast] along [link[1]]. *)
Theorem jsw_rbtfirst_overflows (s : store) (t : tree) (tr : jsw_rbtrav)
    (fuel : nat) :
  holds s t -> length (path tr) = HEIGHT_LIMIT ->
  ((HEIGHT_LIMIT + 2 <= spine false t)%nat -> (spine false t <= fuel)%nat ->
   jsw_rbtfirst fuel s tr = Err OutOfBounds) /\
  ((HEIGHT_LIMIT + 2 <= spine true t)%nat -> (spine true t <= fuel)%nat ->
   jsw_rbtlast fuel s tr = Err OutOfBounds).
Proof.
  intros (Hroot & Hr & _) Hlen.
  assert (forall d, (HEIGHT_LIMIT + 2 <= spine d t)%nat ->
                    (spine d t <= fuel)%nat ->
                    start fuel s d tr = Err OutOfBounds) as H.
  { intros d Hsp Hfuel.
    destruct t as [|c l x r]; [cbn [spine] in Hsp; lia|].
    cbn [rootp] in Hroot.
    set (tr1 := {| trav_tree := Some x; it := Some x; path := path tr;
                   top := O |}).
    assert (start fuel s d tr =
      bind (descend fuel s d)
        (fun _ => bind get_it (fun i =>
           ret (match i with None => None | Some l => Some l end))) tr1) as ->.
    { unfold start, bind, set_tree, set_it, set_top, get_it. cbn.
      rewrite Hroot. done. }
    unfold bind at 1.
    rewrite (descend_overflow s d fuel [] (T c l x r) tr1); try done.
    cbn [length]. lia. }
  split; intros; by apply H.
Qed.

Lemma jsw_rbtfirst_overflows_witness :
  jsw_rbtfirst 70 (chain_store 66) trav_0 = Err OutOfBounds.
Proof.
  refine (proj1 (jsw_rbtfirst_overflows (chain_store 66) (chain_tree 1 66)
                   trav_0 70 _ _) _ _).
  - apply holdsb_sound. vm_compute. reflexivity.
  - vm_compute. reflexivity.
  - apply Nat.leb_le. vm_compute. reflexivity.
  - apply Nat.leb_le. vm_compute. reflexivity.
Defined.

